(** * Audio-Spectrum-Visualizer: the signal-processing core

    A shallow embedding of the transform engine ([src/fft.cpp]), the
    equalizer stack ([src/eq_processor.hpp]), the plugin state
    serialization ([vst/plugin_processor.cpp]) and the band table of the
    spectrum analyzer ([src/audio_analyzer.cpp]), with the properties the
    specification states about them. *)

From Stdlib Require Import NArith ZArith List Bool Lia Eqdep_dec.
From Stdlib Require Import Reals Lra.
From Stdlib Require Import Strings.Byte.
From Stdlib Require SpecFloat.
Import ListNotations.

(* ================================================================== *)
(** * IEEE-754 values as bit patterns *)
(* ================================================================== *)

(** A [double] is its 64-bit pattern and a [float] its 32-bit pattern.
    Comparison, [std::abs], [std::min] and [std::max] are exact functions
    of the pattern and are defined here; rounding arithmetic is not, and
    stays behind the interface [Arith]. *)
Module IEEE.
Local Open Scope N_scope.

Definition two64 : N := 18446744073709551616.
Definition two32 : N := 4294967296.

Record double : Type := mkDouble
  { dbits : N; dbits_lt : (dbits <? two64) = true }.

Record float : Type := mkFloat
  { fbits : N; fbits_lt : (fbits <? two32) = true }.

Lemma double_eq (a b : double) : dbits a = dbits b -> a = b.
Proof.
  destruct a as [x Hx], b as [y Hy]; simpl; intros ->.
  f_equal. apply UIP_dec, bool_dec.
Qed.

Lemma dbits_bound (d : double) : dbits d < two64.
Proof. apply N.ltb_lt, dbits_lt. Qed.

Lemma wrap64_lt (n : N) : (n mod two64 <? two64) = true.
Proof. apply N.ltb_lt, N.mod_lt. discriminate. Qed.

(** The double whose pattern is the low 64 bits of [n]. *)
Definition of_bits (n : N) : double := mkDouble (n mod two64) (wrap64_lt n).

Lemma of_bits_dbits (d : double) : of_bits (dbits d) = d.
Proof.
  apply double_eq; simpl. apply N.mod_small, dbits_bound.
Qed.

Definition sign (d : double) : bool := N.testbit (dbits d) 63.
Definition magnitude (d : double) : N := N.land (dbits d) 0x7fffffffffffffff.
Definition exponent (d : double) : N := N.shiftr (magnitude d) 52.
Definition mantissa (d : double) : N := N.land (dbits d) 0xfffffffffffff.

(** NaN: exponent field all ones and a non-zero mantissa. *)
Definition is_nan (d : double) : bool := 0x7ff0000000000000 <? magnitude d.

(** Sign-magnitude order: on non-NaN patterns the numeric order is the
    order of the signed magnitudes, with [+0] and [-0] equal. *)
Definition key (d : double) : Z :=
  if sign d then (- Z.of_N (magnitude d))%Z else Z.of_N (magnitude d).

(** [a < b], false as soon as one side is NaN. *)
Definition lt (a b : double) : bool :=
  negb (is_nan a) && negb (is_nan b) && (key a <? key b)%Z.

(** [a <= b], false as soon as one side is NaN. *)
Definition le (a b : double) : bool :=
  negb (is_nan a) && negb (is_nan b) && (key a <=? key b)%Z.

(** [std::abs]: clears the sign bit. *)
Definition fabs (d : double) : double := of_bits (magnitude d).

(** [std::max(a, b)] is [(a < b) ? b : a]. *)
Definition max (a b : double) : double := if lt a b then b else a.

(** [std::min(a, b)] is [(b < a) ? b : a]. *)
Definition min (a b : double) : double := if lt b a then b else a.

(** Rounding arithmetic and the conversions between the two precisions:
    left uninterpreted, every property below holds for any choice. *)
Class Arith : Type := {
  add : double -> double -> double;
  sub : double -> double -> double;
  mul : double -> double -> double;
  div : double -> double -> double;
  pow : double -> double -> double;
  cos : double -> double;
  sin : double -> double;
  log10 : double -> double;
  sqrt : double -> double;
  of_size : N -> double;
  to_double : float -> double;
  to_float : double -> float
}.

(** Literals of the sources, as binary64 patterns. *)
Definition d_0 : double := mkDouble 0 eq_refl.
Definition d_1 : double := mkDouble 0x3ff0000000000000 eq_refl.
Definition d_2 : double := mkDouble 0x4000000000000000 eq_refl.
Definition d_m2 : double := mkDouble 0xc000000000000000 eq_refl.
Definition d_10 : double := mkDouble 0x4024000000000000 eq_refl.
Definition d_20 : double := mkDouble 0x4034000000000000 eq_refl.
Definition d_40 : double := mkDouble 0x4044000000000000 eq_refl.
Definition d_0_1 : double := mkDouble 0x3fb999999999999a eq_refl.
Definition d_0_01 : double := mkDouble 0x3f847ae147ae147b eq_refl.
Definition d_0_45 : double := mkDouble 0x3fdccccccccccccd eq_refl.
Definition d_1000 : double := mkDouble 0x408f400000000000 eq_refl.
Definition d_44100 : double := mkDouble 0x40e5888000000000 eq_refl.
Definition M_PI : double := mkDouble 0x400921fb54442d18 eq_refl.

(** ** Order facts *)

Lemma lt_irrefl (a : double) : lt a a = false.
Proof.
  unfold lt. rewrite Z.ltb_irrefl. now rewrite andb_false_r.
Qed.

Lemma lt_asym (a b : double) : lt a b = true -> lt b a = false.
Proof.
  unfold lt. intros H.
  apply andb_true_iff in H as [H Hk]. apply andb_true_iff in H as [Ha Hb].
  rewrite Ha, Hb. simpl. apply Z.ltb_lt in Hk. apply Z.ltb_ge. lia.
Qed.

Lemma lt_trans (a b c : double) :
  lt a b = true -> lt b c = true -> lt a c = true.
Proof.
  unfold lt. intros H1 H2.
  apply andb_true_iff in H1 as [H1 Hk1]. apply andb_true_iff in H1 as [Ha Hb].
  apply andb_true_iff in H2 as [H2 Hk2]. apply andb_true_iff in H2 as [_ Hc].
  rewrite Ha, Hc. simpl. apply Z.ltb_lt in Hk1, Hk2. apply Z.ltb_lt. lia.
Qed.

Lemma le_not_lt (a b : double) : le a b = true -> lt b a = false.
Proof.
  unfold le, lt. intros H.
  apply andb_true_iff in H as [H Hk]. apply andb_true_iff in H as [Ha Hb].
  rewrite Ha, Hb. simpl. apply Z.leb_le in Hk. apply Z.ltb_ge. lia.
Qed.

Lemma lt_le (a b : double) : lt a b = true -> le a b = true.
Proof.
  unfold le, lt. intros H.
  apply andb_true_iff in H as [H Hk]. rewrite H. simpl.
  apply Z.ltb_lt in Hk. apply Z.leb_le. lia.
Qed.

Lemma le_refl (a : double) : is_nan a = false -> le a a = true.
Proof.
  unfold le. intros ->. simpl. apply Z.leb_refl.
Qed.

(** Two ordered values, neither below the other, compare equal. *)
Lemma not_lt_le (a b : double) :
  is_nan a = false -> is_nan b = false -> lt a b = false -> le b a = true.
Proof.
  unfold le, lt. intros -> -> H. simpl in *.
  apply Z.ltb_ge in H. now apply Z.leb_le.
Qed.

End IEEE.

(* ================================================================== *)
(** * Binary64 arithmetic on the patterns *)
(* ================================================================== *)

(** The arithmetic the sources run on: [+ - * /], [std::sqrt] and the
    conversions are the correctly rounded operations of IEEE 754, round
    to nearest, ties to even.  They are the Standard Library's
    [SpecFloat] operations at 53 bits of precision, carried over to the
    patterns.  The functions of the C library ([std::pow], [std::cos],
    [std::sin], [std::log10]) are not fixed by IEEE 754 and stay a
    parameter. *)
Module binary64.
Import IEEE.
Local Open Scope N_scope.

Definition prec : Z := 53.
Definition emax : Z := 1024.

(** The value a pattern stands for: sign, exponent field (11 bits) and
    mantissa field (52 bits, with the implicit bit when the exponent
    field is not zero). *)
Definition decode (d : double) : SpecFloat.spec_float :=
  let e := exponent d in
  let m := mantissa d in
  if e =? 0x7ff then
    if m =? 0 then SpecFloat.S754_infinity (sign d) else SpecFloat.S754_nan
  else
    match (if e =? 0 then m else m + 0x10000000000000) with
    | N0 => SpecFloat.S754_zero (sign d)
    | Npos p =>
      SpecFloat.S754_finite (sign d) p
                            (Z.of_N (if e =? 0 then 1 else e) - 1075)
    end.

Definition sign_bit (s : bool) : N := if s then 0x8000000000000000 else 0.

(** The pattern of a value of the format.  A NaN result is given the
    quiet NaN with the empty payload. *)
Definition encode (x : SpecFloat.spec_float) : double :=
  match x with
  | SpecFloat.S754_zero s => of_bits (sign_bit s)
  | SpecFloat.S754_infinity s => of_bits (sign_bit s + 0x7ff0000000000000)
  | SpecFloat.S754_nan => of_bits 0x7ff8000000000000
  | SpecFloat.S754_finite s m e =>
    if 0x10000000000000 <=? Npos m
    then of_bits (sign_bit s + N.shiftl (Z.to_N (e + 1075)) 52
                  + (Npos m - 0x10000000000000))
    else of_bits (sign_bit s + Npos m)
  end.

Definition add (a b : double) : double :=
  encode (SpecFloat.SFadd prec emax (decode a) (decode b)).
Definition sub (a b : double) : double :=
  encode (SpecFloat.SFsub prec emax (decode a) (decode b)).
Definition mul (a b : double) : double :=
  encode (SpecFloat.SFmul prec emax (decode a) (decode b)).
Definition div (a b : double) : double :=
  encode (SpecFloat.SFdiv prec emax (decode a) (decode b)).
Definition sqrt (a : double) : double :=
  encode (SpecFloat.SFsqrt prec emax (decode a)).

(** Unary minus: flips the sign bit. *)
Definition opp (a : double) : double :=
  of_bits (N.lxor (dbits a) 0x8000000000000000).

(** [static_cast<double>(n)] of an unsigned integer. *)
Definition of_size (n : N) : double :=
  encode (SpecFloat.binary_normalize prec emax (Z.of_N n) 0 false).

(** ** Binary32 and the conversions between the two formats *)

Lemma wrap32_lt (n : N) : (n mod two32 <? two32) = true.
Proof. apply N.ltb_lt, N.mod_lt. discriminate. Qed.

Definition of_fbits (n : N) : float := mkFloat (n mod two32) (wrap32_lt n).

Definition decode32 (f : float) : SpecFloat.spec_float :=
  let s := N.testbit (fbits f) 31 in
  let e := N.shiftr (N.land (fbits f) 0x7fffffff) 23 in
  let m := N.land (fbits f) 0x7fffff in
  if e =? 0xff then
    if m =? 0 then SpecFloat.S754_infinity s else SpecFloat.S754_nan
  else
    match (if e =? 0 then m else m + 0x800000) with
    | N0 => SpecFloat.S754_zero s
    | Npos p =>
      SpecFloat.S754_finite s p (Z.of_N (if e =? 0 then 1 else e) - 150)
    end.

Definition encode32 (x : SpecFloat.spec_float) : float :=
  let sign_bit := fun s : bool => if s then 0x80000000 else 0 in
  match x with
  | SpecFloat.S754_zero s => of_fbits (sign_bit s)
  | SpecFloat.S754_infinity s => of_fbits (sign_bit s + 0x7f800000)
  | SpecFloat.S754_nan => of_fbits 0x7fc00000
  | SpecFloat.S754_finite s m e =>
    if 0x800000 <=? Npos m
    then of_fbits (sign_bit s + N.shiftl (Z.to_N (e + 150)) 23
                   + (Npos m - 0x800000))
    else of_fbits (sign_bit s + Npos m)
  end.

(** [float] to [double]: exact. *)
Definition to_double (f : float) : double :=
  encode (match decode32 f with
          | SpecFloat.S754_finite s m e => SpecFloat.binary_round prec emax s m e
          | x => x
          end).

(** [double] to [float]: rounded to 24 bits. *)
Definition to_float (d : double) : float :=
  encode32 (match decode d with
            | SpecFloat.S754_finite s m e => SpecFloat.binary_round 24 128 s m e
            | x => x
            end).

(** ** The C library *)

Record libm : Type := mkLibm {
  m_pow : double -> double -> double;
  m_cos : double -> double;
  m_sin : double -> double;
  m_log10 : double -> double
}.

Definition arith (m : libm) : Arith := {|
  IEEE.add := add;
  IEEE.sub := sub;
  IEEE.mul := mul;
  IEEE.div := div;
  IEEE.pow := m_pow m;
  IEEE.cos := m_cos m;
  IEEE.sin := m_sin m;
  IEEE.log10 := m_log10 m;
  IEEE.sqrt := sqrt;
  IEEE.of_size := of_size;
  IEEE.to_double := to_double;
  IEEE.to_float := to_float
|}.

End binary64.

(* ================================================================== *)
(** * Equalizer stack ([src/eq_processor.hpp], namespace [eq]) *)
(* ================================================================== *)

Module EQ.
Import IEEE.
Local Open Scope Z_scope.

Definition NUM_BANDS : Z := 5.

(** A [std::array<T, NUM_BANDS>]: five cells, read and written by index.
    Every access of the source sits behind [0 <= band < NUM_BANDS]; an
    index outside that range falls on the last cell here. *)
Record array5 (T : Type) : Type := mkArray5
  { cell0 : T; cell1 : T; cell2 : T; cell3 : T; cell4 : T }.
Arguments mkArray5 {T}.
Arguments cell0 {T}.
Arguments cell1 {T}.
Arguments cell2 {T}.
Arguments cell3 {T}.
Arguments cell4 {T}.

Definition at5 {T} (a : array5 T) (i : Z) : T :=
  match i with
  | 0 => cell0 a | 1 => cell1 a | 2 => cell2 a | 3 => cell3 a
  | _ => cell4 a
  end.

Definition put5 {T} (a : array5 T) (i : Z) (v : T) : array5 T :=
  match i with
  | 0 => mkArray5 v (cell1 a) (cell2 a) (cell3 a) (cell4 a)
  | 1 => mkArray5 (cell0 a) v (cell2 a) (cell3 a) (cell4 a)
  | 2 => mkArray5 (cell0 a) (cell1 a) v (cell3 a) (cell4 a)
  | 3 => mkArray5 (cell0 a) (cell1 a) (cell2 a) v (cell4 a)
  | _ => mkArray5 (cell0 a) (cell1 a) (cell2 a) (cell3 a) v
  end.

(** The band indices visited by [for (int i = 0; i < NUM_BANDS; ++i)]. *)
Definition bands : list Z := [0; 1; 2; 3; 4].

Definition DEFAULT_FREQUENCIES : array5 double :=
  mkArray5 (mkDouble 0x404e000000000000 eq_refl)   (* 60.0 *)
           (mkDouble 0x406f400000000000 eq_refl)   (* 250.0 *)
           (mkDouble 0x408f400000000000 eq_refl)   (* 1000.0 *)
           (mkDouble 0x40af400000000000 eq_refl)   (* 4000.0 *)
           (mkDouble 0x40c7700000000000 eq_refl).  (* 12000.0 *)
Definition MIN_FREQ : double := mkDouble 0x4034000000000000 eq_refl.  (* 20.0 *)
Definition MAX_FREQ : double := mkDouble 0x40d3880000000000 eq_refl.  (* 20000.0 *)
Definition MIN_GAIN : double := mkDouble 0xc028000000000000 eq_refl.  (* -12.0 *)
Definition MAX_GAIN : double := mkDouble 0x4028000000000000 eq_refl.  (* 12.0 *)
Definition MIN_Q : double := mkDouble 0x3fb999999999999a eq_refl.     (* 0.1 *)
Definition MAX_Q : double := mkDouble 0x4024000000000000 eq_refl.     (* 10.0 *)
Definition DEFAULT_Q : double := mkDouble 0x3fe69fbe76c8b439 eq_refl. (* 0.707 *)

(** The two per-channel cells [x[2]] of a delay line. *)
Definition chan_get (a : double * double) (channel : Z) : double :=
  if channel =? 0 then fst a else snd a.
Definition chan_set (a : double * double) (channel : Z) (v : double)
  : double * double :=
  if channel =? 0 then (v, snd a) else (fst a, v).

(** ** class BiquadFilter *)
Record BiquadFilter : Type := mkBiquad {
  b0_ : double; b1_ : double; b2_ : double;
  a1_ : double; a2_ : double;
  x1_ : double * double; x2_ : double * double;
  y1_ : double * double; y2_ : double * double
}.

(** The delay memory of one section, both channels. *)
Definition delay_state (f : BiquadFilter)
  : (double * double) * (double * double) * (double * double) * (double * double) :=
  (x1_ f, x2_ f, y1_ f, y2_ f).

Module Biquad.
Section WithArith.
Context {A : Arith}.

(** [BiquadFilter()]: the member initializers, then [reset()]. *)
Definition init : BiquadFilter :=
  mkBiquad d_1 d_0 d_0 d_0 d_0 (d_0, d_0) (d_0, d_0) (d_0, d_0) (d_0, d_0).

Definition reset (f : BiquadFilter) : BiquadFilter :=
  mkBiquad (b0_ f) (b1_ f) (b2_ f) (a1_ f) (a2_ f)
           (d_0, d_0) (d_0, d_0) (d_0, d_0) (d_0, d_0).

Definition setPeakingEQ (f : BiquadFilter)
    (sampleRate freq gainDb q : double) : BiquadFilter :=
  let freq := max d_20 (min freq (mul sampleRate d_0_45)) in
  let q := max d_0_1 (min q d_10) in
  let A_ := pow d_10 (div gainDb d_40) in
  let w0 := div (mul (mul d_2 M_PI) freq) sampleRate in
  let cosw0 := cos w0 in
  let sinw0 := sin w0 in
  let alpha := div sinw0 (mul d_2 q) in
  let b0 := add d_1 (mul alpha A_) in
  let b1 := mul d_m2 cosw0 in
  let b2 := sub d_1 (mul alpha A_) in
  let a0 := add d_1 (div alpha A_) in
  let a1 := mul d_m2 cosw0 in
  let a2 := sub d_1 (div alpha A_) in
  mkBiquad (div b0 a0) (div b1 a0) (div b2 a0) (div a1 a0) (div a2 a0)
           (x1_ f) (x2_ f) (y1_ f) (y2_ f).

(** [float process(float input, int channel)]: the output sample and the
    filter with its delay line shifted. *)
Definition process (f : BiquadFilter) (input : float) (channel : Z)
  : float * BiquadFilter :=
  let x0 := to_double input in
  let y0 :=
    sub (sub (add (add (mul (b0_ f) x0)
                       (mul (b1_ f) (chan_get (x1_ f) channel)))
                  (mul (b2_ f) (chan_get (x2_ f) channel)))
             (mul (a1_ f) (chan_get (y1_ f) channel)))
        (mul (a2_ f) (chan_get (y2_ f) channel)) in
  (to_float y0,
   mkBiquad (b0_ f) (b1_ f) (b2_ f) (a1_ f) (a2_ f)
            (chan_set (x1_ f) channel x0)
            (chan_set (x2_ f) channel (chan_get (x1_ f) channel))
            (chan_set (y1_ f) channel y0)
            (chan_set (y2_ f) channel (chan_get (y1_ f) channel))).

End WithArith.
End Biquad.

(** ** class EQProcessor *)
Record EQProcessor : Type := mkEQ {
  sampleRate_ : double;
  bypass_ : bool;
  frequencies_ : array5 double;
  gains_ : array5 double;
  qFactors_ : array5 double;
  filters_ : array5 BiquadFilter
}.

Section WithArith.
Context {A : Arith}.

(** [EQProcessor()] *)
Definition init : EQProcessor :=
  mkEQ d_44100 false DEFAULT_FREQUENCIES
       (mkArray5 d_0 d_0 d_0 d_0 d_0)
       (mkArray5 DEFAULT_Q DEFAULT_Q DEFAULT_Q DEFAULT_Q DEFAULT_Q)
       (mkArray5 Biquad.init Biquad.init Biquad.init Biquad.init Biquad.init).

Definition updateFilter (p : EQProcessor) (band : Z) : EQProcessor :=
  mkEQ (sampleRate_ p) (bypass_ p) (frequencies_ p) (gains_ p) (qFactors_ p)
       (put5 (filters_ p) band
          (Biquad.setPeakingEQ (at5 (filters_ p) band) (sampleRate_ p)
             (at5 (frequencies_ p) band) (at5 (gains_ p) band)
             (at5 (qFactors_ p) band))).

Definition updateAllFilters (p : EQProcessor) : EQProcessor :=
  fold_left updateFilter bands p.

Definition setSampleRate (p : EQProcessor) (sampleRate : double) : EQProcessor :=
  updateAllFilters
    (mkEQ sampleRate (bypass_ p) (frequencies_ p) (gains_ p) (qFactors_ p)
          (filters_ p)).

Definition reset (p : EQProcessor) : EQProcessor :=
  mkEQ (sampleRate_ p) (bypass_ p) (frequencies_ p) (gains_ p) (qFactors_ p)
       (mkArray5 (Biquad.reset (cell0 (filters_ p)))
                 (Biquad.reset (cell1 (filters_ p)))
                 (Biquad.reset (cell2 (filters_ p)))
                 (Biquad.reset (cell3 (filters_ p)))
                 (Biquad.reset (cell4 (filters_ p)))).

Definition setBandGain (p : EQProcessor) (band : Z) (gainDb : double)
  : EQProcessor :=
  if (band >=? 0) && (band <? NUM_BANDS) then
    updateFilter
      (mkEQ (sampleRate_ p) (bypass_ p) (frequencies_ p)
            (put5 (gains_ p) band (max MIN_GAIN (min MAX_GAIN gainDb)))
            (qFactors_ p) (filters_ p))
      band
  else p.

Definition setBandFrequency (p : EQProcessor) (band : Z) (freq : double)
  : EQProcessor :=
  if (band >=? 0) && (band <? NUM_BANDS) then
    updateFilter
      (mkEQ (sampleRate_ p) (bypass_ p)
            (put5 (frequencies_ p) band (max MIN_FREQ (min MAX_FREQ freq)))
            (gains_ p) (qFactors_ p) (filters_ p))
      band
  else p.

Definition setBandQ (p : EQProcessor) (band : Z) (q : double) : EQProcessor :=
  if (band >=? 0) && (band <? NUM_BANDS) then
    updateFilter
      (mkEQ (sampleRate_ p) (bypass_ p) (frequencies_ p) (gains_ p)
            (put5 (qFactors_ p) band (max MIN_Q (min MAX_Q q)))
            (filters_ p))
      band
  else p.

Definition setBypass (p : EQProcessor) (bypass : bool) : EQProcessor :=
  mkEQ (sampleRate_ p) bypass (frequencies_ p) (gains_ p) (qFactors_ p)
       (filters_ p).

Definition getBandGain (p : EQProcessor) (band : Z) : double :=
  if (band >=? 0) && (band <? NUM_BANDS) then at5 (gains_ p) band else d_0.

Definition getBandFrequency (p : EQProcessor) (band : Z) : double :=
  if (band >=? 0) && (band <? NUM_BANDS) then at5 (frequencies_ p) band
  else d_1000.

Definition getBandQ (p : EQProcessor) (band : Z) : double :=
  if (band >=? 0) && (band <? NUM_BANDS) then at5 (qFactors_ p) band
  else DEFAULT_Q.

Definition isBypassed (p : EQProcessor) : bool := bypass_ p.

(** [std::abs(gains_[i]) > 0.01] *)
Definition band_active (p : EQProcessor) (i : Z) : bool :=
  lt d_0_01 (fabs (at5 (gains_ p) i)).

(** [filters_[i].process(sample, channel)], the filter written back. *)
Definition run_band (p : EQProcessor) (i : Z) (sample : float) (channel : Z)
  : float * EQProcessor :=
  let (out, f) := Biquad.process (at5 (filters_ p) i) sample channel in
  (out,
   mkEQ (sampleRate_ p) (bypass_ p) (frequencies_ p) (gains_ p) (qFactors_ p)
        (put5 (filters_ p) i f)).

(** One turn of the band loop of [process]. *)
Definition process_band (st : float * float * EQProcessor) (i : Z)
  : float * float * EQProcessor :=
  let '(l, r, p) := st in
  if band_active p i then
    let (l', p1) := run_band p i l 0 in
    let (r', p2) := run_band p1 i r 1 in
    (l', r', p2)
  else st.

(** [void process(float& left, float& right)]: the two samples [l] and
    [r] after the call, and the processor. *)
Definition process (p : EQProcessor) (l r : float)
  : float * float * EQProcessor :=
  if bypass_ p then (l, r, p)
  else fold_left process_band bands (l, r, p).

(** One turn of the band loop of [processMono]. *)
Definition processMono_band (st : float * EQProcessor) (i : Z)
  : float * EQProcessor :=
  let '(input, p) := st in
  if band_active p i then run_band p i input 0 else st.

(** [float processMono(float input)] *)
Definition processMono (p : EQProcessor) (input : float)
  : float * EQProcessor :=
  if bypass_ p then (input, p)
  else fold_left processMono_band bands (input, p).

(** The delay memory of every band. *)
Definition all_delay_state (p : EQProcessor) :=
  map (fun i => delay_state (at5 (filters_ p) i)) bands.

End WithArith.
End EQ.

(* ================================================================== *)
(** * Plugin state persistence ([vst/plugin_processor.cpp]) *)
(* ================================================================== *)

Module SpectrumEQ.
Import IEEE.
Local Open Scope N_scope.

Inductive tresult : Type := kResultOk | kResultFalse.

(** Modelled from the spec: the byte streamer [Steinberg::IBStreamer] of
    the host SDK ([base/source/fstreamer.h]) is not among the sources.
    Following the persisted-state layout of the specification it is a
    little-endian streamer: an [int32] is four bytes, a [float64] the
    eight bytes of its pattern, least significant byte first; a read
    that does not find all its bytes reports failure.  The stream is
    the list of bytes from the cursor on; writing appends. *)
Definition IBStream : Type := list byte.

Definition byte_of (n : N) : byte :=
  match Byte.of_N (n mod 256) with Some b => b | None => x00 end.

Fixpoint le_bytes (n : nat) (v : N) : list byte :=
  match n with
  | O => []
  | S k => byte_of v :: le_bytes k (v / 256)
  end.

Fixpoint le_value (bs : list byte) : N :=
  match bs with
  | [] => 0
  | b :: t => Byte.to_N b + 256 * le_value t
  end.

Definition readRaw (n : nat) (s : IBStream) : option (list byte * IBStream) :=
  if (length s <? n)%nat then None else Some (firstn n s, skipn n s).

(** [Steinberg::int32], two's complement. *)
Definition int32_of_bits (u : N) : Z :=
  if u <? 2147483648 then Z.of_N u else (Z.of_N u - 4294967296)%Z.
Definition bits_of_int32 (v : Z) : N := Z.to_N (v mod 4294967296)%Z.

Definition writeInt32 (s : IBStream) (v : Z) : IBStream :=
  s ++ le_bytes 4 (bits_of_int32 v).
Definition writeDouble (s : IBStream) (d : double) : IBStream :=
  s ++ le_bytes 8 (dbits d).

Definition readInt32 (s : IBStream) : option (Z * IBStream) :=
  match readRaw 4 s with
  | Some (bs, rest) => Some (int32_of_bits (le_value bs), rest)
  | None => None
  end.
Definition readDouble (s : IBStream) : option (double * IBStream) :=
  match readRaw 8 s with
  | Some (bs, rest) => Some (of_bits (le_value bs), rest)
  | None => None
  end.

Section WithArith.
Context {A : Arith}.

(** The band loop of [setState]: the processor as the loop leaves it, and
    the rest of the stream, or [None] when a read failed. *)
Fixpoint setState_bands (l : list Z) (eq_ : EQ.EQProcessor) (s : IBStream)
  : EQ.EQProcessor * option IBStream :=
  match l with
  | [] => (eq_, Some s)
  | band :: l' =>
    match readDouble s with
    | None => (eq_, None)
    | Some (gain, s1) =>
      match readDouble s1 with
      | None => (eq_, None)
      | Some (freq, s2) =>
        match readDouble s2 with
        | None => (eq_, None)
        | Some (q, s3) =>
          setState_bands l'
            (EQ.setBandQ
               (EQ.setBandFrequency (EQ.setBandGain eq_ band gain) band freq)
               band q)
            s3
        end
      end
    end
  end.

(** [tresult setState(IBStream* state)]; a null [state] is [None]. *)
Definition setState (eq_ : EQ.EQProcessor) (state : option IBStream)
  : tresult * EQ.EQProcessor :=
  match state with
  | None => (kResultFalse, eq_)
  | Some s =>
    match readInt32 s with
    | None => (kResultFalse, eq_)
    | Some (version, s0) =>
      match setState_bands EQ.bands eq_ s0 with
      | (eq1, None) => (kResultFalse, eq1)
      | (eq1, Some s1) =>
        match readInt32 s1 with
        | None => (kResultFalse, eq1)
        | Some (bypass, _) =>
          (kResultOk, EQ.setBypass eq1 (negb (bypass =? 0)%Z))
        end
      end
    end
  end.

(** The band loop of [getState]. *)
Definition getState_bands (eq_ : EQ.EQProcessor) (s : IBStream) : IBStream :=
  fold_left
    (fun s band =>
       writeDouble
         (writeDouble (writeDouble s (EQ.getBandGain eq_ band))
                      (EQ.getBandFrequency eq_ band))
         (EQ.getBandQ eq_ band))
    EQ.bands s.

(** [tresult getState(IBStream* state)]: the result and the stream as
    written. *)
Definition getState (eq_ : EQ.EQProcessor) (state : option IBStream)
  : tresult * option IBStream :=
  match state with
  | None => (kResultFalse, None)
  | Some s =>
    let s := writeInt32 s 1 in
    let s := getState_bands eq_ s in
    let s := writeInt32 s (if EQ.isBypassed eq_ then 1 else 0)%Z in
    (kResultOk, Some s)
  end.

End WithArith.

(** The persisted layout in the words of the specification: [int32]
    version 1, then for each of the five bands [float64] gain, frequency
    and Q, then [int32] bypass, all little-endian. *)
Definition band_fields (gain freq q : double) : list byte :=
  le_bytes 8 (dbits gain) ++ le_bytes 8 (dbits freq) ++ le_bytes 8 (dbits q).

Definition layout17 (eq_ : EQ.EQProcessor) : list byte :=
  le_bytes 4 1
  ++ concat (map (fun band =>
                    band_fields (EQ.at5 (EQ.gains_ eq_) band)
                                (EQ.at5 (EQ.frequencies_ eq_) band)
                                (EQ.at5 (EQ.qFactors_ eq_) band))
                 EQ.bands)
  ++ le_bytes 4 (if EQ.bypass_ eq_ then 1 else 0).

End SpectrumEQ.

(* ================================================================== *)
(** * Transform engine ([src/fft.cpp], namespace [fft]) *)
(* ================================================================== *)

Module FFT.
Local Open Scope N_scope.

(** ** [size_t]: 64-bit arithmetic with its wrap-around *)

Definition two64 : N := 18446744073709551616.
Definition wadd (a b : N) : N := (a + b) mod two64.
Definition wsub (a b : N) : N := (a + two64 - b) mod two64.
Definition shl1 (a : N) : N := (2 * a) mod two64.

(** [2^b] for a bit count [b]. *)
Definition p2 (b : nat) : N := 2 ^ N.of_nat b.

(** ** [std::vector]: indexed reads and writes *)

Definition size {T} (v : list T) : N := N.of_nat (length v).

Definition get {T} (d : T) (v : list T) (i : N) : T := nth (N.to_nat i) v d.

Fixpoint set_nth {T} (v : list T) (i : nat) (x : T) : list T :=
  match v, i with
  | [], _ => []
  | _ :: t, O => x :: t
  | h :: t, S i' => h :: set_nth t i' x
  end.

(** [v[i] = x]; every write of the sources is in range, a write past the
    end leaves the vector as it is. *)
Definition set {T} (v : list T) (i : N) (x : T) : list T :=
  set_nth v (N.to_nat i) x.

(** What a call produces: a value, the [std::invalid_argument] thrown by
    [transformInPlace], or a loop that never exits. *)
Inductive outcome (T : Type) : Type :=
| Done (v : T)
| InvalidArgument
| Diverges.
Arguments Done {T}.
Arguments InvalidArgument {T}.
Arguments Diverges {T}.

(** ** Scalars

    The transform is written once over the operations it performs on
    [double]; it is run on the reals for the exact results and holds its
    control flow for any other choice. *)
Class Scalar (D : Type) : Type := {
  zero : D;
  one : D;
  minus_two : D;
  PI : D;
  add : D -> D -> D;
  sub : D -> D -> D;
  mul : D -> D -> D;
  div : D -> D -> D;
  opp : D -> D;
  cos : D -> D;
  sin : D -> D;
  of_size : N -> D
}.

Section Transform.
Context {D : Type} {S_ : Scalar D}.

(** [std::complex<double>] *)
Definition Complex : Type := (D * D)%type.
Definition ComplexVector : Type := list Complex.

Definition czero : Complex := (zero, zero).
Definition cone : Complex := (one, zero).
Definition cadd (a b : Complex) : Complex :=
  (add (fst a) (fst b), add (snd a) (snd b)).
Definition csub (a b : Complex) : Complex :=
  (sub (fst a) (fst b), sub (snd a) (snd b)).
Definition cmul (a b : Complex) : Complex :=
  (sub (mul (fst a) (fst b)) (mul (snd a) (snd b)),
   add (mul (fst a) (snd b)) (mul (snd a) (fst b))).
Definition conj (a : Complex) : Complex := (fst a, opp (snd a)).
Definition cscale_inv (a : Complex) (n : D) : Complex :=
  (div (fst a) n, div (snd a) n).

Definition cget (v : ComplexVector) (i : N) : Complex := get czero v i.

(** ** [isPowerOf2], [nextPowerOf2] *)

Definition isPowerOf2 (n : N) : bool :=
  (0 <? n) && (N.land n (wsub n 1) =? 0).

Definition nextPowerOf2 (n : N) : N :=
  if n =? 0 then 1
  else
    let n := wsub n 1 in
    let n := N.lor n (N.shiftr n 1) in
    let n := N.lor n (N.shiftr n 2) in
    let n := N.lor n (N.shiftr n 4) in
    let n := N.lor n (N.shiftr n 8) in
    let n := N.lor n (N.shiftr n 16) in
    let n := N.lor n (N.shiftr n 32) in
    wadd n 1.

(** ** [bitReversePermute] *)

Definition swap (data : ComplexVector) (i j : N) : ComplexVector :=
  set (set data i (cget data j)) j (cget data i).

(** [while (k <= j) { j -= k; k >>= 1; }].  [k] has 64 bits: once it has
    been shifted to zero the test holds for ever, so a run of 65 tests
    that all hold is a loop that never exits. *)
Fixpoint bitrev_while (fuel : nat) (j k : N) : option (N * N) :=
  match fuel with
  | O => None
  | S f =>
    if k <=? j then bitrev_while f (wsub j k) (N.shiftr k 1)
    else Some (j, k)
  end.

(** [for (size_t i = 0; i < n - 1; ++i)], [cnt] turns left. *)
Fixpoint bitrev_for (cnt : nat) (n i j : N) (data : ComplexVector)
  : outcome ComplexVector :=
  match cnt with
  | O => Done data
  | S c =>
    let data := if i <? j then swap data i j else data in
    match bitrev_while 65 j (N.shiftr n 1) with
    | None => Diverges
    | Some (j, k) => bitrev_for c n (wadd i 1) (wadd j k) data
    end
  end.

Definition bitReversePermute (data : ComplexVector) : outcome ComplexVector :=
  let n := size data in
  bitrev_for (N.to_nat (wsub n 1)) n 0 0 data.

(** ** [transformInPlace] *)

(** [for (size_t j = 0; j < len / 2; ++j)], [cnt] turns left; [half] is
    [len / 2]. *)
Fixpoint butterflies (cnt : nat) (i j half : N) (w wlen : Complex)
    (data : ComplexVector) : ComplexVector :=
  match cnt with
  | O => data
  | S c =>
    let u := cget data (wadd i j) in
    let t := cmul w (cget data (wadd (wadd i j) half)) in
    let data := set data (wadd i j) (cadd u t) in
    let data := set data (wadd (wadd i j) half) (csub u t) in
    butterflies c i (wadd j 1) half (cmul w wlen) wlen data
  end.

(** [for (size_t i = 0; i < n; i += len)]; the fuel is spent only when
    the loop does not exit. *)
Fixpoint blocks (fuel : nat) (n len i : N) (wlen : Complex)
    (data : ComplexVector) : outcome ComplexVector :=
  match fuel with
  | O => Diverges
  | S f =>
    if i <? n then
      blocks f n len (wadd i len) wlen
        (butterflies (N.to_nat (len / 2)) i 0 (len / 2) cone wlen data)
    else Done data
  end.

(** [for (size_t len = 2; len <= n; len <<= 1)]; after 64 doublings
    [len] has wrapped to zero and the loop cannot exit any more. *)
Fixpoint stages (fuel : nat) (n len : N) (data : ComplexVector)
  : outcome ComplexVector :=
  match fuel with
  | O => Diverges
  | S f =>
    if len <=? n then
      let angle := div (mul minus_two PI) (of_size len) in
      let wlen := (cos angle, sin angle) in
      match blocks (S (N.to_nat n)) n len 0 wlen data with
      | Done data => stages f n (shl1 len) data
      | InvalidArgument => InvalidArgument
      | Diverges => Diverges
      end
    else Done data
  end.

Definition transformInPlace (data : ComplexVector) : outcome ComplexVector :=
  let n := size data in
  if negb (isPowerOf2 n) then InvalidArgument
  else if n <=? 1 then Done data
  else
    match bitReversePermute data with
    | Done data => stages 65 n 2 data
    | InvalidArgument => InvalidArgument
    | Diverges => Diverges
    end.

(** ** [transform], [inverse] *)

(** [for (size_t i = 0; i < signal.size(); ++i) data[i] = Complex(signal[i], 0.0)] *)
Fixpoint copy_signal (signal : list D) (i : N) (data : ComplexVector)
  : ComplexVector :=
  match signal with
  | [] => data
  | x :: rest => copy_signal rest (wadd i 1) (set data i (x, zero))
  end.

Definition transform (signal : list D) : outcome ComplexVector :=
  let n := nextPowerOf2 (size signal) in
  let data := repeat czero (N.to_nat n) in
  let data := copy_signal signal 0 data in
  transformInPlace data.

Definition inverse (spectrum : ComplexVector) : outcome ComplexVector :=
  let data := spectrum in
  let n := size data in
  let data := map conj data in
  match transformInPlace data with
  | Done data => Done (map (fun c => cscale_inv (conj c) (of_size n)) data)
  | InvalidArgument => InvalidArgument
  | Diverges => Diverges
  end.

End Transform.

(** ** The exact scalars *)

#[export] Instance exact : Scalar R := {|
  zero := 0%R;
  one := 1%R;
  minus_two := (-2)%R;
  PI := Rtrigo1.PI;
  add := Rplus;
  sub := Rminus;
  mul := Rmult;
  div := Rdiv;
  opp := Ropp;
  cos := Rtrigo_def.cos;
  sin := Rtrigo_def.sin;
  of_size := fun n => INR (N.to_nat n)
|}.

End FFT.

(* ================================================================== *)
(** * Spectrum analyzer ([src/audio_analyzer.cpp], namespace [audio]) *)
(* ================================================================== *)

Module audio.
Import IEEE.
Local Open Scope N_scope.

(** [static_cast<size_t>(double)]: the value truncated toward zero;
    undefined ([None]) for a NaN, an infinity, or a truncated value
    outside [0, 2^64). *)
Definition to_size (d : double) : option N :=
  let e := exponent d in
  let m := mantissa d in
  if e =? 0x7ff then None
  else
    let significand := if e =? 0 then m else m + 0x10000000000000 in
    let ex := if e =? 0 then 1 else e in
    let t := if 1075 <=? ex then N.shiftl significand (ex - 1075)
             else N.shiftr significand (1075 - ex) in
    if t =? 0 then Some 0
    else if sign d then None
    else if t <? two64 then Some t
    else None.

Record AnalyzerConfig : Type := mkConfig {
  fftSize : N;
  hopSize : N;
  smoothingFactor : double;
  minFrequency : double;
  maxFrequency : double;
  numBands : N;
  useLogScale : bool
}.

Section WithArith.
Context {A : Arith}.

(** The bin range of band [i] once [freqLow] and [freqHigh] are known:
    the two conversions and [if (binHigh <= binLow) binHigh = binLow + 1]. *)
Definition bin_range (freqLow freqHigh binWidth : double) : option (N * N) :=
  match to_size (div freqLow binWidth), to_size (div freqHigh binWidth) with
  | Some binLow, Some binHigh =>
    let binHigh := if binHigh <=? binLow then FFT.wadd binLow 1 else binHigh in
    Some (binLow, binHigh)
  | _, _ => None
  end.

(** One turn of the logarithmic loop: the centre frequency and the bins. *)
Definition log_band (logMin logStep binWidth : double) (i : N)
  : option (double * (N * N)) :=
  let freqLow := pow d_10 (add logMin (mul (of_size i) logStep)) in
  let freqHigh :=
    pow d_10 (add logMin (mul (of_size (FFT.wadd i 1)) logStep)) in
  let freqCenter := sqrt (mul freqLow freqHigh) in
  match bin_range freqLow freqHigh binWidth with
  | Some bins => Some (freqCenter, bins)
  | None => None
  end.

(** One turn of the linear loop. *)
Definition linear_band (minFreq freqStep binWidth : double) (i : N)
  : option (double * (N * N)) :=
  let freqLow := add minFreq (mul (of_size i) freqStep) in
  let freqHigh := add freqLow freqStep in
  let freqCenter := div (add freqLow freqHigh) d_2 in
  match bin_range freqLow freqHigh binWidth with
  | Some bins => Some (freqCenter, bins)
  | None => None
  end.

(** [for (size_t i = 0; i < numBands; ++i)], [cnt] turns left: the
    entries written at [i], [i+1], ... *)
Fixpoint band_loop (band : N -> option (double * (N * N))) (cnt : nat) (i : N)
  : option (list (double * (N * N))) :=
  match cnt with
  | O => Some []
  | S c =>
    match band i with
    | None => None
    | Some entry =>
      match band_loop band c (FFT.wadd i 1) with
      | None => None
      | Some rest => Some (entry :: rest)
      end
    end
  end.

(** [AudioAnalyzer::updateBands]: the tables [bandFrequencies] and
    [bandBins] after the rebuild, both resized to [numBands] and written
    at every index; [None] when a conversion to [size_t] is undefined. *)
Definition updateBands (sampleRate : N) (config : AnalyzerConfig)
  : option (list double * list (N * N)) :=
  let minFreq := minFrequency config in
  let maxFreq := min (maxFrequency config) (div (of_size sampleRate) d_2) in
  let numBands := numBands config in
  let fftSize := fftSize config in
  let binWidth := div (of_size sampleRate) (of_size fftSize) in
  let table :=
    if useLogScale config then
      let logMin := log10 minFreq in
      let logMax := log10 maxFreq in
      let logStep := div (sub logMax logMin) (of_size numBands) in
      band_loop (log_band logMin logStep binWidth) (N.to_nat numBands) 0
    else
      let freqStep := div (sub maxFreq minFreq) (of_size numBands) in
      band_loop (linear_band minFreq freqStep binWidth) (N.to_nat numBands) 0
  in
  match table with
  | Some t => Some (map fst t, map snd t)
  | None => None
  end.

(** The running state of the band loop of [computeSpectrum]. *)
Record scan : Type := mkScan {
  maxMag : double;
  peakBin : N;
  smoothedMagnitudes : list double;
  spectrumMagnitudes : list double
}.

(** [for (size_t bin = startBin; bin <= endBin; ++bin)], [cnt] turns
    left: [bandMax], [maxMag] and [peakBin]. *)
Fixpoint bin_loop (magnitudes : list double) (cnt : nat) (bin : N)
    (st : double * double * N) : double * double * N :=
  match cnt with
  | O => st
  | S c =>
    let '(bandMax, maxMag, peakBin) := st in
    let mag := FFT.get d_0 magnitudes bin in
    let bandMax := if lt bandMax mag then mag else bandMax in
    let '(maxMag, peakBin) :=
      if lt maxMag mag then (mag, bin) else (maxMag, peakBin) in
    bin_loop magnitudes c (FFT.wadd bin 1) (bandMax, maxMag, peakBin)
  end.

(** The bins the inner loop visits for a band. *)
Definition bin_count (startBin endBin : N) : nat :=
  if startBin <=? endBin then N.to_nat (endBin - startBin + 1) else O.

(** One turn of [for (size_t band = 0; band < numBands; ++band)]. *)
Definition scan_band (magnitudes : list double) (halfSize : N)
    (smoothing : double) (st : scan) (band : N) (bins : N * N) : scan :=
  let (startBin, endBin) := bins in
  if halfSize <=? startBin then
    mkScan (maxMag st) (peakBin st) (smoothedMagnitudes st)
           (FFT.set (spectrumMagnitudes st) band d_0)
  else
    let endBin := N.min endBin (FFT.wsub halfSize 1) in
    let '(bandMax, maxMag', peakBin') :=
      bin_loop magnitudes (bin_count startBin endBin) startBin
               (d_0, maxMag st, peakBin st) in
    let bandMag := bandMax in
    let smoothed :=
      add (mul smoothing (FFT.get d_0 (smoothedMagnitudes st) band))
          (mul (sub d_1 smoothing) bandMag) in
    mkScan maxMag' peakBin'
           (FFT.set (smoothedMagnitudes st) band smoothed)
           (FFT.set (spectrumMagnitudes st) band smoothed).

Fixpoint scan_bands (magnitudes : list double) (halfSize : N)
    (smoothing : double) (bandBins : list (N * N)) (band : N) (st : scan)
  : scan :=
  match bandBins with
  | [] => st
  | bins :: rest =>
    scan_bands magnitudes halfSize smoothing rest (FFT.wadd band 1)
               (scan_band magnitudes halfSize smoothing st band bins)
  end.

(** [AudioAnalyzer::computeSpectrum] from the band mapping on.
    [magnitudes] is the local of that name as the lines before leave it:
    the magnitude of every bin of the windowed frame scaled by
    [2 / fftSize], before any smoothing.  [bandBins] holds one entry per
    band ([updateBands] resizes it to [numBands]).  The result is the
    scan state and [currentSpectrum.peakFrequency]. *)
Definition computeSpectrum (sampleRate : N) (config : AnalyzerConfig)
    (bandBins : list (N * N)) (smoothed spectrum : list double)
    (magnitudes : list double) : scan * double :=
  let fftSize := fftSize config in
  let halfSize := fftSize / 2 in
  let st :=
    scan_bands magnitudes halfSize (smoothingFactor config) bandBins 0
               (mkScan d_0 0 smoothed spectrum) in
  let binWidth := div (of_size sampleRate) (of_size fftSize) in
  (st, mul (of_size (peakBin st)) binWidth).

End WithArith.

(** The bins the band loop looks at. *)
Definition scanned (halfSize : N) (bandBins : list (N * N)) (bin : N) : Prop :=
  exists startBin endBin,
    In (startBin, endBin) bandBins /\ startBin < halfSize /\
    startBin <= bin /\ bin <= N.min endBin (halfSize - 1).

End audio.

(* ================================================================== *)
(** * Properties of the IEEE model *)
(* ================================================================== *)

Module IEEE_facts.
Import IEEE.
Local Open Scope N_scope.

(** An arithmetic to run the definitions on concrete inputs: every
    operation hands back its first operand.  No statement depends on it. *)
Definition first_operand : Arith := {|
  add := fun a _ => a;
  sub := fun a _ => a;
  mul := fun a _ => a;
  div := fun a _ => a;
  pow := fun a _ => a;
  cos := fun a => a;
  sin := fun a => a;
  log10 := fun a => a;
  sqrt := fun a => a;
  of_size := of_bits;
  to_double := fun f => of_bits (fbits f);
  to_float := fun _ => mkFloat 0 eq_refl
|}.

(** The pattern is the sign bit over the magnitude. *)
Lemma dbits_sign_magnitude (d : double) :
  dbits d = (if sign d then 0x8000000000000000 else 0) + magnitude d.
Proof.
  unfold sign, magnitude.
  pose proof (dbits_bound d) as Hb. unfold two64 in Hb.
  change 0x7fffffffffffffff with (N.ones 63).
  rewrite N.land_ones, N.testbit_eqb.
  change (2 ^ 63) with 0x8000000000000000.
  pose proof (N.Div0.div_mod (dbits d) 0x8000000000000000) as Hdm.
  assert (Hq : dbits d / 0x8000000000000000 < 2)
    by (apply N.Div0.div_lt_upper_bound; lia).
  revert Hdm Hq.
  generalize (dbits d / 0x8000000000000000) (dbits d mod 0x8000000000000000).
  intros q r Hdm Hq.
  assert (E : q = 0 \/ q = 1) by lia.
  destruct E as [-> | ->].
  - change (0 mod 2 =? 1) with false. cbv iota. lia.
  - change (1 mod 2 =? 1) with true. cbv iota. lia.
Qed.

Lemma magnitude_bound (d : double) : magnitude d < 0x8000000000000000.
Proof.
  unfold magnitude. change 0x7fffffffffffffff with (N.ones 63).
  rewrite N.land_ones. apply N.mod_lt. discriminate.
Qed.

(** Away from zero the order key determines the pattern. *)
Lemma key_inj (a b : double) : key a = key b -> key b <> 0%Z -> a = b.
Proof.
  intros Hk Hnz. apply double_eq.
  rewrite (dbits_sign_magnitude a), (dbits_sign_magnitude b).
  unfold key in *.
  destruct (sign a), (sign b); lia.
Qed.

(** ** Clamping with [std::max(lo, std::min(hi, v))] *)

(** [r] is [v] clamped to the domain [lo, hi]: it lies in the domain, it
    is [v] when [v] does, and the nearer bound otherwise. *)
Definition clamped (lo hi v r : double) : Prop :=
  le lo r = true /\ le r hi = true /\
  (le lo v = true -> le v hi = true -> r = v) /\
  (lt v lo = true -> r = lo) /\
  (lt hi v = true -> r = hi).

Section Clamp.
Variables lo hi : double.
Hypothesis lo_lt_hi : lt lo hi = true.
Hypothesis lo_nonzero : key lo <> 0%Z.
Hypothesis hi_nonzero : key hi <> 0%Z.

Lemma bounds_ordered :
  is_nan lo = false /\ is_nan hi = false /\ (key lo < key hi)%Z.
Proof.
  unfold lt in lo_lt_hi.
  apply andb_true_iff in lo_lt_hi as [H Hk].
  apply andb_true_iff in H as [Ha Hb].
  apply negb_true_iff in Ha, Hb. apply Z.ltb_lt in Hk. auto.
Qed.

Lemma clamp_in_domain (v : double) :
  le lo v = true -> le v hi = true -> max lo (min hi v) = v.
Proof.
  destruct bounds_ordered as (Hlo & Hhi & Hlt).
  unfold le, max, min, lt. intros H1 H2.
  apply andb_true_iff in H1 as [H1 Hk1]. apply andb_true_iff in H1 as [_ Hv].
  apply andb_true_iff in H2 as [_ Hk2].
  apply negb_true_iff in Hv. apply Z.leb_le in Hk1, Hk2.
  rewrite Hv, Hhi. simpl.
  destruct (key v <? key hi)%Z eqn:E1.
  - rewrite Hlo, Hv. simpl.
    destruct (key lo <? key v)%Z eqn:E2; [reflexivity|].
    apply Z.ltb_ge in E2. apply key_inj; [lia|]. lia.
  - apply Z.ltb_ge in E1. rewrite Hlo, Hhi. simpl.
    apply Z.ltb_lt in Hlt as Hlt'. rewrite Hlt'.
    symmetry. apply key_inj; lia.
Qed.

Lemma clamp_below (v : double) : lt v lo = true -> max lo (min hi v) = lo.
Proof.
  intros H. pose proof (lt_trans _ _ _ H lo_lt_hi) as H'.
  unfold max, min. rewrite H'. now rewrite (lt_asym _ _ H).
Qed.

Lemma clamp_above (v : double) : lt hi v = true -> max lo (min hi v) = hi.
Proof.
  intros H. unfold max, min. rewrite (lt_asym _ _ H). now rewrite lo_lt_hi.
Qed.

Lemma clamp_range (v : double) :
  le lo (max lo (min hi v)) = true /\ le (max lo (min hi v)) hi = true.
Proof.
  destruct bounds_ordered as (Hlo & Hhi & Hlt).
  unfold max, min.
  destruct (lt v hi) eqn:E1.
  - destruct (lt lo v) eqn:E2.
    + split; now apply lt_le.
    + split; [now apply le_refl | now apply lt_le].
  - rewrite lo_lt_hi. split; [now apply lt_le | now apply le_refl].
Qed.

Lemma clamp_clamped (v : double) : clamped lo hi v (max lo (min hi v)).
Proof.
  destruct (clamp_range v) as [H1 H2].
  repeat split; auto using clamp_in_domain, clamp_below, clamp_above.
Qed.

End Clamp.

End IEEE_facts.

(* ================================================================== *)
(** * Properties of the equalizer stack *)
(* ================================================================== *)

Module EQ_facts.
Import IEEE IEEE_facts EQ.
Local Open Scope Z_scope.

Lemma in_range_true (band : Z) :
  0 <= band < NUM_BANDS -> (band >=? 0) && (band <? NUM_BANDS) = true.
Proof.
  unfold NUM_BANDS. intros H. apply andb_true_iff. split.
  - apply Z.geb_le. lia.
  - apply Z.ltb_lt. lia.
Qed.

Lemma in_range_false (band : Z) :
  band < 0 \/ NUM_BANDS <= band -> (band >=? 0) && (band <? NUM_BANDS) = false.
Proof.
  unfold NUM_BANDS. intros H. apply andb_false_iff.
  destruct H; [left | right].
  - rewrite Z.geb_leb. apply Z.leb_gt. lia.
  - apply Z.ltb_ge. lia.
Qed.

Lemma band_cases (band : Z) :
  0 <= band < NUM_BANDS ->
  band = 0 \/ band = 1 \/ band = 2 \/ band = 3 \/ band = 4.
Proof. unfold NUM_BANDS. lia. Qed.

(** Split on the five values of an index in range. *)
Ltac each_band H :=
  apply band_cases in H;
  destruct H as [H | [H | [H | [H | H]]]]; subst.

Lemma at5_put5_same {T} (a : array5 T) (i : Z) (v : T) :
  0 <= i < NUM_BANDS -> at5 (put5 a i v) i = v.
Proof. intros H. each_band H; reflexivity. Qed.

Lemma at5_put5_other {T} (a : array5 T) (i j : Z) (v : T) :
  0 <= i < NUM_BANDS -> 0 <= j < NUM_BANDS -> i <> j ->
  at5 (put5 a i v) j = at5 a j.
Proof.
  intros Hi Hj Hne. each_band Hi; each_band Hj; try reflexivity; congruence.
Qed.

Lemma put5_at5 {T} (a : array5 T) (i : Z) :
  0 <= i < NUM_BANDS -> put5 a i (at5 a i) = a.
Proof. intros H. destruct a. each_band H; reflexivity. Qed.

Lemma In_bands (i : Z) : In i bands <-> 0 <= i < NUM_BANDS.
Proof.
  unfold bands, NUM_BANDS. simpl. lia.
Qed.

(** ** The domains *)

Lemma gain_clamped (v : double) :
  clamped MIN_GAIN MAX_GAIN v (max MIN_GAIN (min MAX_GAIN v)).
Proof. apply clamp_clamped; [reflexivity | discriminate | discriminate]. Qed.

Lemma freq_clamped (v : double) :
  clamped MIN_FREQ MAX_FREQ v (max MIN_FREQ (min MAX_FREQ v)).
Proof. apply clamp_clamped; [reflexivity | discriminate | discriminate]. Qed.

Lemma q_clamped (v : double) :
  clamped MIN_Q MAX_Q v (max MIN_Q (min MAX_Q v)).
Proof. apply clamp_clamped; [reflexivity | discriminate | discriminate]. Qed.

(** ** What the setters store and what they leave alone *)

Section WithArith.
Context {A : Arith}.

Lemma setBandGain_stored (p : EQProcessor) (band : Z) (v : double) :
  0 <= band < NUM_BANDS ->
  getBandGain (setBandGain p band v) band = max MIN_GAIN (min MAX_GAIN v).
Proof.
  intros H. unfold getBandGain, setBandGain.
  rewrite (in_range_true _ H). simpl. now apply at5_put5_same.
Qed.

Lemma setBandFrequency_stored (p : EQProcessor) (band : Z) (v : double) :
  0 <= band < NUM_BANDS ->
  getBandFrequency (setBandFrequency p band v) band
  = max MIN_FREQ (min MAX_FREQ v).
Proof.
  intros H. unfold getBandFrequency, setBandFrequency.
  rewrite (in_range_true _ H). simpl. now apply at5_put5_same.
Qed.

Lemma setBandQ_stored (p : EQProcessor) (band : Z) (v : double) :
  0 <= band < NUM_BANDS ->
  getBandQ (setBandQ p band v) band = max MIN_Q (min MAX_Q v).
Proof.
  intros H. unfold getBandQ, setBandQ.
  rewrite (in_range_true _ H). simpl. now apply at5_put5_same.
Qed.

Lemma setBandGain_twice (p : EQProcessor) (band : Z) (v : double) :
  0 <= band < NUM_BANDS ->
  setBandGain (setBandGain p band v) band v = setBandGain p band v.
Proof.
  intros H. unfold setBandGain. rewrite (in_range_true _ H).
  each_band H; reflexivity.
Qed.

Lemma setBandFrequency_twice (p : EQProcessor) (band : Z) (v : double) :
  0 <= band < NUM_BANDS ->
  setBandFrequency (setBandFrequency p band v) band v
  = setBandFrequency p band v.
Proof.
  intros H. unfold setBandFrequency. rewrite (in_range_true _ H).
  each_band H; reflexivity.
Qed.

Lemma setBandQ_twice (p : EQProcessor) (band : Z) (v : double) :
  0 <= band < NUM_BANDS ->
  setBandQ (setBandQ p band v) band v = setBandQ p band v.
Proof.
  intros H. unfold setBandQ. rewrite (in_range_true _ H).
  each_band H; reflexivity.
Qed.

(** ** The band loops of [process] and [processMono] *)

Lemma run_band_gains (p : EQProcessor) (i : Z) (x : float) (channel : Z) :
  gains_ (snd (run_band p i x channel)) = gains_ p.
Proof. reflexivity. Qed.

Lemma run_band_gains_eq (p p' : EQProcessor) (i : Z) (x y : float)
    (channel : Z) :
  run_band p i x channel = (y, p') -> gains_ p' = gains_ p.
Proof.
  intros R. rewrite <- (run_band_gains p i x channel), R. reflexivity.
Qed.

(** The sample through the filters of the bands of [l], one after the
    other: every band of the list runs. *)
Definition cascade_mono (l : list Z) (st : float * EQProcessor)
  : float * EQProcessor :=
  fold_left (fun st i => run_band (snd st) i (fst st) 0) l st.

Definition cascade_stereo (l : list Z) (st : float * float * EQProcessor)
  : float * float * EQProcessor :=
  fold_left
    (fun st i =>
       let '(l, r, p) := st in
       let (l', p1) := run_band p i l 0 in
       let (r', p2) := run_band p1 i r 1 in
       (l', r', p2))
    l st.

Local Opaque run_band.

Lemma mono_loop_is_cascade (g : array5 double) (l : list Z) :
  forall (x : float) (p : EQProcessor),
    gains_ p = g ->
    fold_left processMono_band l (x, p)
    = cascade_mono (filter (fun i => lt d_0_01 (fabs (at5 g i))) l) (x, p).
Proof.
  induction l as [|i l IH]; intros x p Hg; [reflexivity|].
  simpl. unfold band_active. rewrite Hg.
  destruct (lt d_0_01 (fabs (at5 g i))) eqn:E.
  - simpl. destruct (run_band p i x 0) as [y p'] eqn:R.
    apply IH. rewrite <- Hg. exact (run_band_gains_eq _ _ _ _ _ _ R).
  - now apply IH.
Qed.

Lemma stereo_loop_is_cascade (g : array5 double) (l : list Z) :
  forall (x y : float) (p : EQProcessor),
    gains_ p = g ->
    fold_left process_band l (x, y, p)
    = cascade_stereo (filter (fun i => lt d_0_01 (fabs (at5 g i))) l) (x, y, p).
Proof.
  induction l as [|i l IH]; intros x y p Hg; [reflexivity|].
  simpl. unfold band_active. rewrite Hg.
  destruct (lt d_0_01 (fabs (at5 g i))) eqn:E.
  - simpl. destruct (run_band p i x 0) as [x' p1] eqn:R1.
    destruct (run_band p1 i y 1) as [y' p2] eqn:R2.
    apply IH. rewrite <- Hg.
    rewrite (run_band_gains_eq _ _ _ _ _ _ R2).
    exact (run_band_gains_eq _ _ _ _ _ _ R1).
  - now apply IH.
Qed.

Local Transparent run_band.

Lemma filter_none {T} (f : T -> bool) (l : list T) :
  (forall x, In x l -> f x = false) -> filter f l = [].
Proof.
  induction l as [|a l IH]; intros H; [reflexivity|].
  simpl. rewrite (H a (or_introl eq_refl)). apply IH.
  intros x Hx. apply H. now right.
Qed.

End WithArith.

(** ** The claims *)

(** C10. With a band index outside [0, 4] the getters do not fail: in
    every equalizer state [getBandGain] returns 0.0, [getBandFrequency]
    returns 1000.0 and [getBandQ] returns [DEFAULT_Q], the double 0.707. *)
Theorem getters_default_out_of_range (p : EQProcessor) (band : Z) :
  band < 0 \/ NUM_BANDS <= band ->
  getBandGain p band = d_0 /\
  getBandFrequency p band = d_1000 /\
  getBandQ p band = DEFAULT_Q.
Proof.
  intros H. unfold getBandGain, getBandFrequency, getBandQ.
  rewrite (in_range_false _ H). auto.
Qed.

Lemma getters_default_out_of_range_witness :
  (7 < 0 \/ NUM_BANDS <= 7) /\
  getBandGain init 7 = d_0 /\
  getBandFrequency init 7 = d_1000 /\
  getBandQ init 7 = DEFAULT_Q.
Proof.
  split.
  - right. unfold NUM_BANDS. lia.
  - apply (getters_default_out_of_range init 7).
    right. unfold NUM_BANDS. lia.
Defined.

(** C4. With a band index outside [0, 4] the three setters leave the
    whole equalizer state as it is.  With a band index in [0, 4] and any
    value, the value stored afterwards is the input clamped to its domain
    (gain to [-12, 12], frequency to [20, 20000], Q to [0.1, 10]), and
    calling the setter a second time with the same value gives the state
    the first call gave. *)
Theorem setters_validate_clamp_idempotent {A : Arith}
    (p : EQProcessor) (band : Z) (v : double) :
  (band < 0 \/ NUM_BANDS <= band ->
   setBandGain p band v = p /\
   setBandFrequency p band v = p /\
   setBandQ p band v = p)
  /\
  (0 <= band < NUM_BANDS ->
   clamped MIN_GAIN MAX_GAIN v (getBandGain (setBandGain p band v) band) /\
   clamped MIN_FREQ MAX_FREQ v
           (getBandFrequency (setBandFrequency p band v) band) /\
   clamped MIN_Q MAX_Q v (getBandQ (setBandQ p band v) band) /\
   setBandGain (setBandGain p band v) band v = setBandGain p band v /\
   setBandFrequency (setBandFrequency p band v) band v
   = setBandFrequency p band v /\
   setBandQ (setBandQ p band v) band v = setBandQ p band v).
Proof.
  split; intros H.
  - unfold setBandGain, setBandFrequency, setBandQ.
    rewrite (in_range_false _ H). auto.
  - rewrite setBandGain_stored, setBandFrequency_stored, setBandQ_stored
      by assumption.
    split; [apply gain_clamped|].
    split; [apply freq_clamped|].
    split; [apply q_clamped|].
    split; [now apply setBandGain_twice|].
    split; [now apply setBandFrequency_twice | now apply setBandQ_twice].
Qed.

(** C5. With bypass set, [process] leaves both samples as they are and
    [processMono] returns its input, and neither call changes the
    processor: the delay memory x1, x2, y1, y2 of every band and channel
    is what it was. *)
Theorem bypass_leaves_samples_and_filters {A : Arith}
    (p : EQProcessor) (l r x : float) :
  bypass_ p = true ->
  process p l r = (l, r, p) /\
  processMono p x = (x, p) /\
  all_delay_state (snd (process p l r)) = all_delay_state p /\
  all_delay_state (snd (processMono p x)) = all_delay_state p.
Proof.
  intros H. unfold process, processMono. rewrite H. auto.
Qed.

(** C6. Without bypass, [processMono] and [process] run the sample
    through the filters of exactly the bands with [|gain| > 0.01], in
    band order; when every band has [|gain| <= 0.01], [processMono]
    returns its input and the processor, delay memory included, is
    unchanged. *)
Theorem process_runs_active_bands {A : Arith}
    (p : EQProcessor) (l r x : float) :
  bypass_ p = false ->
  processMono p x = cascade_mono (filter (band_active p) bands) (x, p) /\
  process p l r = cascade_stereo (filter (band_active p) bands) (l, r, p) /\
  ((forall i, 0 <= i < NUM_BANDS ->
              le (fabs (at5 (gains_ p) i)) d_0_01 = true) ->
   processMono p x = (x, p) /\
   all_delay_state (snd (processMono p x)) = all_delay_state p).
Proof.
  intros H. unfold process, processMono. rewrite H.
  assert (Hm : fold_left processMono_band bands (x, p)
               = cascade_mono (filter (band_active p) bands) (x, p))
    by now apply mono_loop_is_cascade.
  split; [exact Hm|].
  split; [now apply stereo_loop_is_cascade|].
  intros Hflat.
  assert (Hnone : filter (band_active p) bands = []).
  { apply filter_none. intros i Hi. apply In_bands in Hi.
    unfold band_active. now apply le_not_lt, Hflat. }
  rewrite Hm, Hnone. split; reflexivity.
Qed.

End EQ_facts.

(* ================================================================== *)
(** * Running the equalizer on concrete inputs *)
(* ================================================================== *)

Module EQ_examples.
Import IEEE IEEE_facts EQ EQ_facts.
Local Open Scope Z_scope.

Definition sample_a : float := mkFloat 0x3f000000 eq_refl.   (* 0.5f *)
Definition sample_b : float := mkFloat 0xbe800000 eq_refl.   (* -0.25f *)
Definition d_100 : double := mkDouble 0x4059000000000000 eq_refl.
Definition d_5 : double := mkDouble 0x4014000000000000 eq_refl.

(** The rational a finite pattern stands for. *)
Definition value (d : double) : QArith_base.Q :=
  let e := exponent d in
  let m := mantissa d in
  let significand := if (e =? 0)%N then m else (m + 0x10000000000000)%N in
  let ex := if (e =? 0)%N then 1%N else e in
  let s := if sign d then (- Z.of_N significand) else Z.of_N significand in
  QArith_base.Qmult (QArith_base.inject_Z s)
                    (QArith_base.Qpower (QArith_base.inject_Z 2)
                                        (Z.of_N ex - 1075)).

Example MIN_GAIN_value : QArith_base.Qeq (value MIN_GAIN) (QArith_base.inject_Z (-12)).
Proof. reflexivity. Qed.
Example MAX_GAIN_value : QArith_base.Qeq (value MAX_GAIN) (QArith_base.inject_Z 12).
Proof. reflexivity. Qed.
Example MIN_FREQ_value : QArith_base.Qeq (value MIN_FREQ) (QArith_base.inject_Z 20).
Proof. reflexivity. Qed.
Example MAX_FREQ_value : QArith_base.Qeq (value MAX_FREQ) (QArith_base.inject_Z 20000).
Proof. reflexivity. Qed.
Example MAX_Q_value : QArith_base.Qeq (value MAX_Q) (QArith_base.inject_Z 10).
Proof. reflexivity. Qed.
Example d_1000_value : QArith_base.Qeq (value d_1000) (QArith_base.inject_Z 1000).
Proof. reflexivity. Qed.
Example d_0_value : QArith_base.Qeq (value d_0) (QArith_base.inject_Z 0).
Proof. reflexivity. Qed.

(** [0.1], [0.707] and [0.01] are not binary fractions: the literal is
    the double within half a unit in the last place of the decimal. *)
Definition nearest (d : double) (num den : Z) (ulp_exp : Z) : Prop :=
  QArith_base.Qle
    (Qabs.Qabs (QArith_base.Qminus (value d)
                  (QArith_base.Qmake num (Z.to_pos den))))
    (QArith_base.Qpower (QArith_base.inject_Z 2) (ulp_exp - 1)).

Example MIN_Q_value : nearest MIN_Q 1 10 (-56).
Proof. vm_compute. discriminate. Qed.
Example DEFAULT_Q_value : nearest DEFAULT_Q 707 1000 (-53).
Proof. vm_compute. discriminate. Qed.
Example d_0_01_value : nearest d_0_01 1 100 (-59).
Proof. vm_compute. discriminate. Qed.

(** Gain 100 on band 2 stores 12, a second call changes nothing. *)
Example gain_100_stores_12 :
  getBandGain (setBandGain (A := first_operand) init 2 d_100) 2 = MAX_GAIN /\
  setBandGain (A := first_operand)
    (setBandGain (A := first_operand) init 2 d_100) 2 d_100
  = setBandGain (A := first_operand) init 2 d_100.
Proof. split; reflexivity. Qed.

Lemma setters_validate_clamp_idempotent_witness :
  ((5 < 0 \/ NUM_BANDS <= 5) /\
   setBandGain (A := first_operand) init 5 d_100 = init) /\
  (0 <= 2 < NUM_BANDS /\
   clamped MIN_GAIN MAX_GAIN d_100
     (getBandGain (setBandGain (A := first_operand) init 2 d_100) 2)).
Proof.
  pose proof (setters_validate_clamp_idempotent (A := first_operand)
                init 5 d_100) as [H5 _].
  pose proof (setters_validate_clamp_idempotent (A := first_operand)
                init 2 d_100) as [_ H2].
  assert (R5 : 5 < 0 \/ NUM_BANDS <= 5) by (right; unfold NUM_BANDS; lia).
  assert (R2 : 0 <= 2 < NUM_BANDS) by (unfold NUM_BANDS; lia).
  split.
  - split; [exact R5 | exact (proj1 (H5 R5))].
  - split; [exact R2 | exact (proj1 (H2 R2))].
Defined.

Lemma bypass_leaves_samples_and_filters_witness :
  bypass_ (setBypass init true) = true /\
  (process (A := first_operand) (setBypass init true) sample_a sample_b
   = (sample_a, sample_b, setBypass init true) /\
   processMono (A := first_operand) (setBypass init true) sample_a
   = (sample_a, setBypass init true) /\
   all_delay_state
     (snd (process (A := first_operand) (setBypass init true)
                   sample_a sample_b))
   = all_delay_state (setBypass init true) /\
   all_delay_state
     (snd (processMono (A := first_operand) (setBypass init true) sample_a))
   = all_delay_state (setBypass init true)).
Proof.
  split.
  - reflexivity.
  - apply (bypass_leaves_samples_and_filters (A := first_operand)).
    reflexivity.
Defined.

(** Band 1 at +5 dB, the others flat: only band 1 runs. *)
Definition one_band_up : EQProcessor :=
  setBandGain (A := first_operand) init 1 d_5.

Example one_band_up_active : filter (band_active one_band_up) bands = [1].
Proof. reflexivity. Qed.

Lemma process_runs_active_bands_witness :
  bypass_ one_band_up = false /\
  processMono (A := first_operand) one_band_up sample_a
  = cascade_mono (A := first_operand)
      (filter (band_active one_band_up) bands) (sample_a, one_band_up).
Proof.
  split.
  - reflexivity.
  - apply (process_runs_active_bands (A := first_operand)
             one_band_up sample_a sample_b sample_a).
    reflexivity.
Defined.

End EQ_examples.

(* ================================================================== *)
(** * Properties of the persisted state *)
(* ================================================================== *)

Module SpectrumEQ_facts.
Import IEEE IEEE_facts EQ EQ_facts SpectrumEQ.
Local Open Scope N_scope.

(** ** Little-endian bytes *)

Lemma to_N_byte_of (n : N) : Byte.to_N (byte_of n) = n mod 256.
Proof.
  unfold byte_of.
  destruct (Byte.of_N (n mod 256)) as [b|] eqn:E.
  - now apply Byte.to_of_N.
  - apply Byte.of_N_None_iff in E.
    pose proof (N.mod_lt n 256). lia.
Qed.

Lemma length_le_bytes (n : nat) (v : N) : length (le_bytes n v) = n.
Proof.
  revert v. induction n as [|n IH]; intros v; simpl; [reflexivity|].
  now rewrite IH.
Qed.

Lemma le_value_le_bytes (n : nat) (v : N) :
  le_value (le_bytes n v) = v mod 256 ^ N.of_nat n.
Proof.
  revert v. induction n as [|n IH]; intros v.
  - simpl. now rewrite N.mod_1_r.
  - cbn [le_bytes le_value]. rewrite to_N_byte_of, IH.
    rewrite Nat2N.inj_succ, N.pow_succ_r'.
    now rewrite N.Div0.mod_mul_r.
Qed.

Lemma le_value_double (d : double) : le_value (le_bytes 8 (dbits d)) = dbits d.
Proof.
  rewrite le_value_le_bytes. apply N.mod_small.
  exact (dbits_bound d).
Qed.

(** ** Reading back what was written *)

Lemma readRaw_app (n : nat) (bs rest : list byte) :
  length bs = n -> readRaw n (bs ++ rest) = Some (bs, rest).
Proof.
  intros H. unfold readRaw.
  assert (E : (length (bs ++ rest) <? n)%nat = false).
  { apply Nat.ltb_ge. rewrite length_app. lia. }
  rewrite E. subst n.
  rewrite firstn_app, skipn_app, Nat.sub_diag, firstn_all, skipn_all.
  simpl. now rewrite app_nil_r.
Qed.

Lemma readDouble_written (d : double) (rest : IBStream) :
  readDouble (le_bytes 8 (dbits d) ++ rest) = Some (d, rest).
Proof.
  unfold readDouble. rewrite readRaw_app by apply length_le_bytes.
  now rewrite le_value_double, of_bits_dbits.
Qed.

Lemma readInt32_written (v : Z) (rest : IBStream) :
  (-2147483648 <= v < 2147483648)%Z ->
  readInt32 (le_bytes 4 (bits_of_int32 v) ++ rest) = Some (v, rest).
Proof.
  intros Hv. unfold readInt32.
  rewrite readRaw_app by apply length_le_bytes.
  rewrite le_value_le_bytes. do 2 f_equal.
  change (256 ^ N.of_nat 4) with 4294967296.
  unfold bits_of_int32, int32_of_bits.
  assert (Hm : (0 <= v mod 4294967296 < 4294967296)%Z)
    by (apply Z.mod_pos_bound; lia).
  rewrite N.mod_small by lia.
  destruct (Z.to_N (v mod 4294967296) <? 2147483648) eqn:E.
  - apply N.ltb_lt in E. rewrite Z2N.id by lia.
    destruct (Z_lt_le_dec v 0) as [Hneg|Hpos].
    + rewrite <- (Z.mod_add v 1 4294967296) in E by lia.
      rewrite Z.mod_small in E by lia. lia.
    + apply Z.mod_small. lia.
  - apply N.ltb_ge in E. rewrite Z2N.id by lia.
    destruct (Z_lt_le_dec v 0) as [Hneg|Hpos].
    + rewrite <- (Z.mod_add v 1 4294967296) by lia.
      rewrite Z.mod_small by lia. lia.
    + rewrite Z.mod_small in E by lia. lia.
Qed.

Lemma readRaw_short (n : nat) (s : IBStream) :
  (length s < n)%nat -> readRaw n s = None.
Proof.
  intros H. unfold readRaw. apply Nat.ltb_lt in H. now rewrite H.
Qed.

Lemma readRaw_long (n : nat) (s : IBStream) :
  (n <= length s)%nat -> readRaw n s = Some (firstn n s, skipn n s).
Proof.
  intros H. unfold readRaw. apply Nat.ltb_ge in H. now rewrite H.
Qed.

(** The field of eight bytes at offset [off], as a double. *)
Definition dfield (s : list byte) (off : nat) : double :=
  of_bits (le_value (firstn 8 (skipn off s))).

Lemma readDouble_long (s : IBStream) :
  (8 <= length s)%nat -> readDouble s = Some (dfield s 0, skipn 8 s).
Proof.
  intros H. unfold readDouble. now rewrite readRaw_long.
Qed.

Lemma readDouble_short (s : IBStream) :
  (length s < 8)%nat -> readDouble s = None.
Proof.
  intros H. unfold readDouble. now rewrite readRaw_short.
Qed.

Lemma dfield_skipn (s : list byte) (k off : nat) :
  dfield (skipn k s) off = dfield s (k + off).
Proof.
  unfold dfield. rewrite skipn_skipn. now rewrite (Nat.add_comm off k).
Qed.

Definition clampG (v : double) : double := max MIN_GAIN (min MAX_GAIN v).
Definition clampF (v : double) : double := max MIN_FREQ (min MAX_FREQ v).
Definition clampQ (v : double) : double := max MIN_Q (min MAX_Q v).

(** Every band holds values of its domain. *)
Definition in_domain (p : EQProcessor) : Prop :=
  forall band, (0 <= band < NUM_BANDS)%Z ->
    (le MIN_GAIN (at5 (gains_ p) band) = true /\
     le (at5 (gains_ p) band) MAX_GAIN = true) /\
    (le MIN_FREQ (at5 (frequencies_ p) band) = true /\
     le (at5 (frequencies_ p) band) MAX_FREQ = true) /\
    (le MIN_Q (at5 (qFactors_ p) band) = true /\
     le (at5 (qFactors_ p) band) MAX_Q = true).

Lemma in_domain_init : in_domain init.
Proof.
  intros band H. each_band H; vm_compute; auto.
Qed.

Lemma array5_ext {T} (a b : array5 T) :
  (forall i, (0 <= i < NUM_BANDS)%Z -> at5 a i = at5 b i) -> a = b.
Proof.
  intros H. destruct a, b.
  pose proof (H 0%Z) as H0. pose proof (H 1%Z) as H1.
  pose proof (H 2%Z) as H2. pose proof (H 3%Z) as H3.
  pose proof (H 4%Z) as H4. unfold NUM_BANDS in *. simpl in *.
  f_equal; [apply H0 | apply H1 | apply H2 | apply H3 | apply H4]; lia.
Qed.

Section WithArith.
Context {A : Arith}.

(** The three calls [setState] makes for a band. *)
Definition apply_band (q : EQProcessor) (band : Z) (gain freq qf : double)
  : EQProcessor :=
  setBandQ (setBandFrequency (setBandGain q band gain) band freq) band qf.

Lemma apply_band_fields (q : EQProcessor) (band : Z) (gain freq qf : double) :
  (0 <= band < NUM_BANDS)%Z ->
  gains_ (apply_band q band gain freq qf)
  = put5 (gains_ q) band (clampG gain) /\
  frequencies_ (apply_band q band gain freq qf)
  = put5 (frequencies_ q) band (clampF freq) /\
  qFactors_ (apply_band q band gain freq qf)
  = put5 (qFactors_ q) band (clampQ qf) /\
  bypass_ (apply_band q band gain freq qf) = bypass_ q.
Proof.
  intros H. unfold apply_band, setBandQ, setBandFrequency, setBandGain.
  rewrite (in_range_true _ H). simpl. auto.
Qed.

Lemma read_band_short (l : list Z) (band : Z) (q : EQProcessor)
    (s : IBStream) :
  (length s < 24)%nat -> setState_bands (band :: l) q s = (q, None).
Proof.
  intros H. cbn [setState_bands].
  destruct (Nat.lt_ge_cases (length s) 8) as [H1|H1].
  { now rewrite readDouble_short. }
  rewrite readDouble_long by assumption.
  destruct (Nat.lt_ge_cases (length (skipn 8 s)) 8) as [H2|H2].
  { now rewrite readDouble_short. }
  rewrite readDouble_long by assumption.
  rewrite readDouble_short; [reflexivity|].
  rewrite !length_skipn in *. lia.
Qed.

Lemma read_band_long (l : list Z) (band : Z) (q : EQProcessor)
    (s : IBStream) :
  (24 <= length s)%nat ->
  setState_bands (band :: l) q s
  = setState_bands l
      (apply_band q band (dfield s 0) (dfield s 8) (dfield s 16))
      (skipn 24 s).
Proof.
  intros H. cbn [setState_bands].
  rewrite readDouble_long by lia.
  rewrite readDouble_long by (rewrite length_skipn; lia).
  rewrite readDouble_long by (rewrite !length_skipn; lia).
  rewrite !dfield_skipn, !skipn_skipn. reflexivity.
Qed.

(** The band loop of [setState] over the bands [base, base + n): bands
    whose three fields are all in the stream are written, the others and
    the bypass flag are not touched. *)
Lemma setState_bands_spec (n : nat) :
  forall (base : nat) (q : EQProcessor) (s : IBStream),
    (base + n <= 5)%nat ->
    let r := setState_bands (map Z.of_nat (seq base n)) q s in
    ((length s < 24 * n)%nat -> snd r = None) /\
    ((24 * n <= length s)%nat -> snd r = Some (skipn (24 * n) s)) /\
    bypass_ (fst r) = bypass_ q /\
    sampleRate_ (fst r) = sampleRate_ q /\
    ((length s < 24)%nat -> fst r = q) /\
    forall band : nat, (band < 5)%nat ->
      ((base <= band < base + n)%nat ->
       (24 * (band - base) + 24 <= length s)%nat ->
       at5 (gains_ (fst r)) (Z.of_nat band)
       = clampG (dfield s (24 * (band - base))) /\
       at5 (frequencies_ (fst r)) (Z.of_nat band)
       = clampF (dfield s (24 * (band - base) + 8)) /\
       at5 (qFactors_ (fst r)) (Z.of_nat band)
       = clampQ (dfield s (24 * (band - base) + 16))) /\
      ((band < base \/ base + n <= band \/
        length s < 24 * (band - base) + 24)%nat ->
       at5 (gains_ (fst r)) (Z.of_nat band)
       = at5 (gains_ q) (Z.of_nat band) /\
       at5 (frequencies_ (fst r)) (Z.of_nat band)
       = at5 (frequencies_ q) (Z.of_nat band) /\
       at5 (qFactors_ (fst r)) (Z.of_nat band)
       = at5 (qFactors_ q) (Z.of_nat band)).
Proof.
  induction n as [|n IH]; intros base q s Hn r.
  - subst r. simpl.
    split; [lia|]. split; [reflexivity|]. split; [reflexivity|].
    split; [reflexivity|]. split; [reflexivity|].
    intros band Hb. split; [lia | auto].
  - subst r. cbn [seq map].
    destruct (Nat.lt_ge_cases (length s) 24) as [Hs|Hs].
    + rewrite read_band_short by assumption. simpl.
      split; [reflexivity|]. split; [lia|]. split; [reflexivity|].
      split; [reflexivity|]. split; [reflexivity|].
      intros band Hb. split; [lia | auto].
    + rewrite read_band_long by assumption.
      set (q1 := apply_band q (Z.of_nat base) (dfield s 0) (dfield s 8)
                            (dfield s 16)).
      assert (Hbase : (0 <= Z.of_nat base < NUM_BANDS)%Z)
        by (unfold NUM_BANDS; lia).
      destruct (apply_band_fields q (Z.of_nat base) (dfield s 0)
                  (dfield s 8) (dfield s 16) Hbase) as (Eg & Ef & Eq & Eb).
      fold q1 in Eg, Ef, Eq, Eb.
      assert (Esr : sampleRate_ q1 = sampleRate_ q).
      { subst q1. unfold apply_band, setBandQ, setBandFrequency, setBandGain.
        rewrite (in_range_true _ Hbase). reflexivity. }
      specialize (IH (S base) q1 (skipn 24 s) ltac:(lia)).
      cbv zeta in IH.
      destruct IH as (I1 & I2 & I3 & I3' & _ & I4).
      rewrite length_skipn in I1, I2.
      split; [intros; apply I1; lia|].
      split.
      { intros H. rewrite I2 by lia. rewrite skipn_skipn.
        do 2 f_equal. lia. }
      split; [now rewrite I3|].
      split; [now rewrite I3'|].
      split; [lia|].
      intros band Hb.
      specialize (I4 band Hb). destruct I4 as [I4a I4b].
      rewrite length_skipn in I4a, I4b.
      assert (Hband : (0 <= Z.of_nat band < NUM_BANDS)%Z)
        by (unfold NUM_BANDS; lia).
      split.
      * intros Hin Hlen.
        destruct (Nat.eq_dec band base) as [->|Hne].
        -- destruct I4b as (G & F & Q); [lia|].
           rewrite G, F, Q, Eg, Ef, Eq, !at5_put5_same by assumption.
           rewrite Nat.sub_diag. simpl. auto.
        -- destruct I4a as (G & F & Q); [lia | lia |].
           rewrite G, F, Q, !dfield_skipn.
           replace (24 + 24 * (band - S base))%nat
             with (24 * (band - base))%nat by lia.
           replace (24 + (24 * (band - S base) + 8))%nat
             with (24 * (band - base) + 8)%nat by lia.
           replace (24 + (24 * (band - S base) + 16))%nat
             with (24 * (band - base) + 16)%nat by lia.
           auto.
      * intros Hout.
        assert (Hne : Z.of_nat base <> Z.of_nat band) by lia.
        destruct I4b as (G & F & Q); [lia|].
        rewrite G, F, Q, Eg, Ef, Eq.
        rewrite !at5_put5_other by assumption. auto.
Qed.

End WithArith.

Section Claims.
Context {A : Arith}.

Lemma bands_seq : bands = map Z.of_nat (seq 0 5).
Proof. reflexivity. Qed.

(** A stream that ends before the 128 bytes of the layout: [setState]
    fails, with the processor as the band loop left it. *)
Lemma setState_truncated_eq (q : EQProcessor) (s : IBStream) :
  (4 <= length s < 128)%nat ->
  setState q (Some s)
  = (kResultFalse, fst (setState_bands bands q (skipn 4 s))).
Proof.
  intros [H4 H128]. unfold setState, readInt32.
  rewrite readRaw_long by assumption.
  pose proof (setState_bands_spec 5 0 q (skipn 4 s) ltac:(lia)) as S.
  cbv zeta in S. rewrite <- bands_seq in S.
  destruct S as (S1 & S2 & _).
  rewrite length_skipn in S1, S2.
  destruct (setState_bands bands q (skipn 4 s)) as [q1 res].
  cbn [fst snd] in S1, S2.
  destruct (Nat.lt_ge_cases (length s - 4) (24 * 5)) as [Hl|Hl].
  - rewrite (S1 Hl). reflexivity.
  - rewrite (S2 Hl).
    rewrite readRaw_short; [reflexivity|].
    rewrite !length_skipn. lia.
Qed.

(** What [getState] writes is the 17-field layout. *)
Lemma getState_layout (p : EQProcessor) (s : IBStream) :
  getState p (Some s) = (kResultOk, Some (s ++ layout17 p)).
Proof.
  unfold getState, getState_bands, layout17, bands, band_fields.
  cbn [fold_left map concat].
  unfold writeDouble, writeInt32, getBandGain, getBandFrequency, getBandQ,
    isBypassed.
  cbn [Z.geb Z.ltb Z.compare andb NUM_BANDS Pos.compare Pos.compare_cont].
  rewrite app_nil_r, <- !app_assoc.
  do 3 f_equal. f_equal.
  destruct (bypass_ p); reflexivity.
Qed.

(** The band loop of [setState] on the bytes of an in-domain processor. *)
Lemma setState_bands_written (p : EQProcessor) (l : list Z) :
  forall (q : EQProcessor) (rest : IBStream),
    setState_bands l q
      (concat (map (fun band =>
                      band_fields (at5 (gains_ p) band)
                                  (at5 (frequencies_ p) band)
                                  (at5 (qFactors_ p) band)) l) ++ rest)
    = (fold_left (fun q band =>
                    apply_band q band (at5 (gains_ p) band)
                               (at5 (frequencies_ p) band)
                               (at5 (qFactors_ p) band)) l q,
       Some rest).
Proof.
  induction l as [|band l IH]; intros q rest; [reflexivity|].
  cbn [map concat fold_left setState_bands]. unfold band_fields.
  rewrite <- !app_assoc.
  rewrite !readDouble_written. apply IH.
Qed.

Lemma clamp_stored (p : EQProcessor) (band : Z) :
  in_domain p -> (0 <= band < NUM_BANDS)%Z ->
  clampG (at5 (gains_ p) band) = at5 (gains_ p) band /\
  clampF (at5 (frequencies_ p) band) = at5 (frequencies_ p) band /\
  clampQ (at5 (qFactors_ p) band) = at5 (qFactors_ p) band.
Proof.
  intros Hd Hb. destruct (Hd band Hb) as ((G1 & G2) & (F1 & F2) & (Q1 & Q2)).
  split; [|split].
  - apply (gain_clamped (at5 (gains_ p) band)); assumption.
  - apply (freq_clamped (at5 (frequencies_ p) band)); assumption.
  - apply (q_clamped (at5 (qFactors_ p) band)); assumption.
Qed.

(** The setters keep every band in its domain: with [in_domain_init],
    every state the processor can reach is in domain. *)
Lemma setBandGain_in_domain (p : EQProcessor) (band : Z) (v : double) :
  in_domain p -> in_domain (setBandGain p band v).
Proof.
  intros Hd. unfold setBandGain.
  destruct ((band >=? 0)%Z && (band <? NUM_BANDS)%Z) eqn:E; [|exact Hd].
  assert (Hb : (0 <= band < NUM_BANDS)%Z).
  { apply andb_true_iff in E as [E1 E2].
    apply Z.geb_le in E1. apply Z.ltb_lt in E2. lia. }
  intros b' Hb'. cbn [updateFilter gains_ frequencies_ qFactors_].
  split; [|exact (proj2 (Hd b' Hb'))].
  destruct (Z.eq_dec band b') as [<-|Hne].
  - rewrite at5_put5_same by assumption.
    destruct (gain_clamped v) as (H1 & H2 & _). now split.
  - rewrite at5_put5_other by assumption. exact (proj1 (Hd b' Hb')).
Qed.

Lemma setBandFrequency_in_domain (p : EQProcessor) (band : Z) (v : double) :
  in_domain p -> in_domain (setBandFrequency p band v).
Proof.
  intros Hd. unfold setBandFrequency.
  destruct ((band >=? 0)%Z && (band <? NUM_BANDS)%Z) eqn:E; [|exact Hd].
  assert (Hb : (0 <= band < NUM_BANDS)%Z).
  { apply andb_true_iff in E as [E1 E2].
    apply Z.geb_le in E1. apply Z.ltb_lt in E2. lia. }
  intros b' Hb'. cbn [updateFilter gains_ frequencies_ qFactors_].
  destruct (Hd b' Hb') as (Hg & Hf & Hq).
  split; [exact Hg|]. split; [|exact Hq].
  destruct (Z.eq_dec band b') as [<-|Hne].
  - rewrite at5_put5_same by assumption.
    destruct (freq_clamped v) as (H1 & H2 & _). now split.
  - rewrite at5_put5_other by assumption. exact Hf.
Qed.

Lemma setBandQ_in_domain (p : EQProcessor) (band : Z) (v : double) :
  in_domain p -> in_domain (setBandQ p band v).
Proof.
  intros Hd. unfold setBandQ.
  destruct ((band >=? 0)%Z && (band <? NUM_BANDS)%Z) eqn:E; [|exact Hd].
  assert (Hb : (0 <= band < NUM_BANDS)%Z).
  { apply andb_true_iff in E as [E1 E2].
    apply Z.geb_le in E1. apply Z.ltb_lt in E2. lia. }
  intros b' Hb'. cbn [updateFilter gains_ frequencies_ qFactors_].
  destruct (Hd b' Hb') as (Hg & Hf & Hq).
  split; [exact Hg|]. split; [exact Hf|].
  destruct (Z.eq_dec band b') as [<-|Hne].
  - rewrite at5_put5_same by assumption.
    destruct (q_clamped v) as (H1 & H2 & _). now split.
  - rewrite at5_put5_other by assumption. exact Hq.
Qed.

(** Applying the stored values of [p] band after band gives [p]'s bands. *)
Lemma apply_all_bands (p q : EQProcessor) :
  in_domain p ->
  let q' := fold_left (fun q band =>
                         apply_band q band (at5 (gains_ p) band)
                                    (at5 (frequencies_ p) band)
                                    (at5 (qFactors_ p) band)) bands q in
  gains_ q' = gains_ p /\ frequencies_ q' = frequencies_ p /\
  qFactors_ q' = qFactors_ p /\ bypass_ q' = bypass_ q.
Proof.
  intros Hd q'. subst q'. unfold bands. cbn [fold_left].
  assert (R : forall b, In b bands -> (0 <= b < NUM_BANDS)%Z)
    by (intros b Hb; now apply In_bands).
  unfold bands in R. simpl in R.
  assert (G : forall q b g f x, (0 <= b < NUM_BANDS)%Z ->
              gains_ (apply_band q b g f x) = put5 (gains_ q) b (clampG g))
    by (intros; now apply apply_band_fields).
  assert (F : forall q b g f x, (0 <= b < NUM_BANDS)%Z ->
              frequencies_ (apply_band q b g f x)
              = put5 (frequencies_ q) b (clampF f))
    by (intros; now apply apply_band_fields).
  assert (Q : forall q b g f x, (0 <= b < NUM_BANDS)%Z ->
              qFactors_ (apply_band q b g f x)
              = put5 (qFactors_ q) b (clampQ x))
    by (intros; now apply apply_band_fields).
  assert (B : forall q b g f x, (0 <= b < NUM_BANDS)%Z ->
              bypass_ (apply_band q b g f x) = bypass_ q)
    by (intros; now apply apply_band_fields).
  rewrite !G, !F, !Q, !B by (apply R; tauto).
  destruct (clamp_stored p 0 Hd ltac:(apply R; tauto)) as (-> & -> & ->).
  destruct (clamp_stored p 1 Hd ltac:(apply R; tauto)) as (-> & -> & ->).
  destruct (clamp_stored p 2 Hd ltac:(apply R; tauto)) as (-> & -> & ->).
  destruct (clamp_stored p 3 Hd ltac:(apply R; tauto)) as (-> & -> & ->).
  destruct (clamp_stored p 4 Hd ltac:(apply R; tauto)) as (-> & -> & ->).
  destruct (gains_ p), (frequencies_ p), (qFactors_ p). simpl. auto.
Qed.

(** C2. An equalizer state whose bands hold in-domain values is written
    by [getState] as the 17-field little-endian layout (128 bytes), and
    [setState] on those bytes, applied to any processor, succeeds and
    leaves the gain, frequency and Q of every band and the bypass flag
    identical, bit for bit, to the ones that were written. *)
Theorem state_round_trip (p q : EQProcessor) :
  in_domain p ->
  getState p (Some []) = (kResultOk, Some (layout17 p)) /\
  length (layout17 p) = 128%nat /\
  fst (setState q (Some (layout17 p))) = kResultOk /\
  gains_ (snd (setState q (Some (layout17 p)))) = gains_ p /\
  frequencies_ (snd (setState q (Some (layout17 p)))) = frequencies_ p /\
  qFactors_ (snd (setState q (Some (layout17 p)))) = qFactors_ p /\
  isBypassed (snd (setState q (Some (layout17 p)))) = isBypassed p.
Proof.
  intros Hd.
  split; [apply (getState_layout p [])|].
  split.
  { unfold layout17, bands, band_fields. cbn [map concat].
    rewrite !length_app, !length_le_bytes. reflexivity. }
  unfold setState, layout17.
  change (le_bytes 4 1) with (le_bytes 4 (bits_of_int32 1)).
  rewrite readInt32_written by lia.
  rewrite setState_bands_written.
  destruct (apply_all_bands p q Hd) as (G & F & Q & B).
  set (q' := fold_left _ bands q) in *.
  replace (le_bytes 4 (if bypass_ p then 1 else 0))
    with (le_bytes 4 (bits_of_int32 (if bypass_ p then 1 else 0)%Z) ++ [])
    by (rewrite app_nil_r; destruct (bypass_ p); reflexivity).
  rewrite readInt32_written by (destruct (bypass_ p); lia).
  unfold isBypassed. simpl.
  split; [reflexivity|]. split; [exact G|]. split; [exact F|].
  split; [exact Q|]. destruct (bypass_ p); reflexivity.
Qed.

(** C3, as the code has it. [setState] returns failure for a null
    stream, leaving the processor as it was, and for every stream that
    ends before the 128 bytes of the layout.  On such a stream the bypass
    flag is unchanged; a band whose three values were read before the
    read that failed (the stream holds at least [28 + 24 * band] bytes)
    has them stored, clamped, and every other band keeps the values it
    had; a stream of fewer than 28 bytes leaves the whole processor as it
    was. *)
Theorem setState_truncated_applies_complete_bands
    (q : EQProcessor) (s : IBStream) :
  (length s < 128)%nat ->
  setState q None = (kResultFalse, q) /\
  fst (setState q (Some s)) = kResultFalse /\
  bypass_ (snd (setState q (Some s))) = bypass_ q /\
  ((length s < 28)%nat -> snd (setState q (Some s)) = q) /\
  forall band : nat, (band < 5)%nat ->
    ((28 + 24 * band <= length s)%nat ->
     getBandGain (snd (setState q (Some s))) (Z.of_nat band)
     = clampG (dfield s (4 + 24 * band)) /\
     getBandFrequency (snd (setState q (Some s))) (Z.of_nat band)
     = clampF (dfield s (4 + 24 * band + 8)) /\
     getBandQ (snd (setState q (Some s))) (Z.of_nat band)
     = clampQ (dfield s (4 + 24 * band + 16))) /\
    ((length s < 28 + 24 * band)%nat ->
     getBandGain (snd (setState q (Some s))) (Z.of_nat band)
     = getBandGain q (Z.of_nat band) /\
     getBandFrequency (snd (setState q (Some s))) (Z.of_nat band)
     = getBandFrequency q (Z.of_nat band) /\
     getBandQ (snd (setState q (Some s))) (Z.of_nat band)
     = getBandQ q (Z.of_nat band)).
Proof.
  intros H128. split; [reflexivity|].
  destruct (Nat.lt_ge_cases (length s) 4) as [H4|H4].
  - assert (E : setState q (Some s) = (kResultFalse, q)).
    { unfold setState, readInt32. now rewrite readRaw_short. }
    rewrite E. simpl.
    split; [reflexivity|]. split; [reflexivity|]. split; [reflexivity|].
    intros band Hb. split; [lia | auto].
  - rewrite setState_truncated_eq by lia. cbn [fst snd].
    pose proof (setState_bands_spec 5 0 q (skipn 4 s) ltac:(lia)) as S.
    cbv zeta in S. rewrite <- bands_seq in S.
    destruct S as (_ & _ & Sb & _ & Sq & Sband).
    rewrite length_skipn in Sq.
    split; [reflexivity|]. split; [exact Sb|].
    split; [intros; apply Sq; lia|].
    intros band Hb. destruct (Sband band Hb) as [S1 S2].
    rewrite length_skipn in S1, S2.
    assert (Hr : (0 <= Z.of_nat band < NUM_BANDS)%Z)
      by (unfold NUM_BANDS; lia).
    unfold getBandGain, getBandFrequency, getBandQ.
    rewrite (in_range_true _ Hr).
    split.
    + intros Hl. destruct S1 as (G & F & Q); [lia | lia |].
      rewrite G, F, Q, !dfield_skipn, Nat.sub_0_r.
      now rewrite !Nat.add_assoc.
    + intros Hl. apply S2. lia.
Qed.

End Claims.

End SpectrumEQ_facts.

(* ================================================================== *)
(** * Running the persistence on concrete streams *)
(* ================================================================== *)

Module SpectrumEQ_examples.
Import IEEE IEEE_facts EQ EQ_facts EQ_examples SpectrumEQ SpectrumEQ_facts.

(** The version field and the three values of band 0, nothing after. *)
Definition truncated_stream : IBStream :=
  le_bytes 4 1 ++ band_fields d_5 d_100 d_2.

Example truncated_stream_bytes :
  truncated_stream
  = [x01; x00; x00; x00;
     x00; x00; x00; x00; x00; x00; x14; x40;
     x00; x00; x00; x00; x00; x00; x59; x40;
     x00; x00; x00; x00; x00; x00; x00; x40].
Proof. reflexivity. Qed.

(** C3 as stated fails: the stream ends after band 0, [setState] reports
    failure, and band 0 of the processor has already been overwritten
    (gain 5 where it was 0). *)
Lemma setState_truncated_counterexample :
  (length truncated_stream < 128)%nat /\
  fst (setState (A := first_operand) init (Some truncated_stream))
  = kResultFalse /\
  dbits (getBandGain init 0) = 0%N /\
  dbits (getBandGain
           (snd (setState (A := first_operand) init (Some truncated_stream)))
           0)
  = 0x4014000000000000%N /\
  snd (setState (A := first_operand) init (Some truncated_stream)) <> init.
Proof.
  split; [vm_compute; lia|].
  split; [reflexivity|].
  split; [reflexivity|].
  split; [reflexivity|].
  intros H.
  apply (f_equal (fun p => dbits (getBandGain p 0))) in H.
  vm_compute in H. discriminate.
Qed.

Lemma state_round_trip_witness :
  in_domain init /\
  fst (setState (A := first_operand) one_band_up (Some (layout17 init)))
  = kResultOk /\
  gains_ (snd (setState (A := first_operand) one_band_up
                        (Some (layout17 init))))
  = gains_ init.
Proof.
  split; [exact in_domain_init|].
  pose proof (state_round_trip (A := first_operand) init one_band_up
                in_domain_init) as (_ & _ & H1 & H2 & _).
  split; [exact H1 | exact H2].
Defined.

Lemma setState_truncated_applies_complete_bands_witness :
  (length truncated_stream < 128)%nat /\
  fst (setState (A := first_operand) init (Some truncated_stream))
  = kResultFalse /\
  bypass_ (snd (setState (A := first_operand) init (Some truncated_stream)))
  = bypass_ init.
Proof.
  assert (H : (length truncated_stream < 128)%nat) by (vm_compute; lia).
  split; [exact H|].
  pose proof (setState_truncated_applies_complete_bands
                (A := first_operand) init truncated_stream H)
    as (_ & H1 & H2 & _).
  split; [exact H1 | exact H2].
Defined.

End SpectrumEQ_examples.

(* ================================================================== *)
(** * Properties of the spectrum analyzer *)
(* ================================================================== *)

Module audio_facts.
Import IEEE IEEE_facts audio.
Local Open Scope N_scope.

(** ** The band table *)

Lemma mantissa_bound (d : double) : mantissa d < 0x10000000000000.
Proof.
  unfold mantissa. change 0xfffffffffffff with (N.ones 52).
  rewrite N.land_ones. apply N.mod_lt. discriminate.
Qed.

(** A double converted to [size_t] is never [SIZE_MAX]: above [2^53] the
    doubles are even integers. *)
Lemma to_size_below_max (d : double) (n : N) :
  to_size d = Some n -> n + 1 < two64.
Proof.
  unfold to_size.
  destruct (exponent d =? 0x7ff); [discriminate|].
  set (sg := if exponent d =? 0 then mantissa d
             else mantissa d + 0x10000000000000).
  set (ex := if exponent d =? 0 then 1 else exponent d).
  assert (Hsg : sg < 0x20000000000000).
  { subst sg. pose proof (mantissa_bound d).
    destruct (exponent d =? 0); lia. }
  set (t := if 1075 <=? ex then N.shiftl sg (ex - 1075)
            else N.shiftr sg (1075 - ex)).
  assert (Ht : t < two64 -> t + 1 < two64).
  { subst t. unfold two64. destruct (1075 <=? ex) eqn:E.
    - rewrite N.shiftl_mul_pow2.
      destruct (N.eq_dec (ex - 1075) 0) as [->|Hk].
      + rewrite N.pow_0_r. lia.
      + replace (ex - 1075) with (N.succ (N.pred (ex - 1075)))
          by (apply N.succ_pred; assumption).
        rewrite N.pow_succ_r'.
        generalize (2 ^ N.pred (ex - 1075)). intros m. lia.
    - rewrite N.shiftr_div_pow2.
      assert (sg / 2 ^ (1075 - ex) <= sg)
        by (apply N.Div0.div_le_upper_bound;
            pose proof (N.pow_nonzero 2 (1075 - ex) ltac:(discriminate));
            nia).
      lia. }
  destruct (t =? 0) eqn:E0.
  - intros [= <-]. reflexivity.
  - destruct (sign d); [discriminate|].
    destruct (t <? two64) eqn:E1; [|discriminate].
    intros [= <-]. apply Ht. now apply N.ltb_lt.
Qed.

Section WithArith.
Context {A : Arith}.

Lemma bin_range_nonempty (freqLow freqHigh binWidth : double)
    (binLow binHigh : N) :
  bin_range freqLow freqHigh binWidth = Some (binLow, binHigh) ->
  binLow + 1 <= binHigh.
Proof.
  unfold bin_range.
  destruct (to_size (div freqLow binWidth)) as [lo|] eqn:Elo; [|discriminate].
  destruct (to_size (div freqHigh binWidth)) as [hi|]; [|discriminate].
  intros [= <- <-].
  destruct (hi <=? lo) eqn:E.
  - unfold FFT.wadd. rewrite N.mod_small; [lia|].
    exact (to_size_below_max _ _ Elo).
  - apply N.leb_gt in E. lia.
Qed.

(** The entries of the band loop: one per turn, each with a bin. *)
Lemma band_loop_entries (band : N -> option (double * (N * N))) :
  (forall i entry, band i = Some entry ->
                   fst (snd entry) + 1 <= snd (snd entry)) ->
  forall (cnt : nat) (i : N) (table : list (double * (N * N))),
    band_loop band cnt i = Some table ->
    length table = cnt /\
    Forall (fun bins => fst bins + 1 <= snd bins) (map snd table).
Proof.
  intros Hband. induction cnt as [|cnt IH]; intros i table.
  - intros [= <-]. split; [reflexivity | constructor].
  - cbn [band_loop].
    destruct (band i) as [entry|] eqn:E; [|discriminate].
    destruct (band_loop band cnt (FFT.wadd i 1)) as [rest|] eqn:R;
      [|discriminate].
    intros [= <-]. destruct (IH _ _ R) as [Hl Hf].
    split; [simpl; now rewrite Hl|].
    simpl. constructor; [now apply (Hband i) | exact Hf].
Qed.

Lemma log_band_nonempty (logMin logStep binWidth : double) (i : N)
    (entry : double * (N * N)) :
  log_band logMin logStep binWidth i = Some entry ->
  fst (snd entry) + 1 <= snd (snd entry).
Proof.
  unfold log_band.
  destruct (bin_range _ _ binWidth) as [[lo hi]|] eqn:E; [|discriminate].
  intros [= <-]. simpl. exact (bin_range_nonempty _ _ _ _ _ E).
Qed.


End WithArith.

(** The rebuild returns a table as soon as every quotient it converts
    is in the range of [size_t]. *)
Lemma updateBands_returns {A : Arith} (sampleRate : N)
    (config : AnalyzerConfig) :
  (forall a b, to_size (div a b) <> None) ->
  updateBands sampleRate config <> None.
Proof.
  intros Hdef.
  assert (Hrange : forall lo hi w, bin_range lo hi w <> None).
  { intros lo hi w. unfold bin_range.
    destruct (to_size (div lo w)) eqn:E1; [|now apply Hdef in E1].
    destruct (to_size (div hi w)) eqn:E2; [|now apply Hdef in E2].
    discriminate. }
  assert (Hloop : forall band,
             (forall i, band i <> None) ->
             forall cnt i, band_loop band cnt i <> None).
  { intros band Hband. induction cnt as [|cnt IH]; intros i; cbn [band_loop].
    - discriminate.
    - specialize (Hband i). destruct (band i); [|contradiction].
      specialize (IH (FFT.wadd i 1)).
      destruct (band_loop band cnt (FFT.wadd i 1)); [discriminate|].
      contradiction. }
  unfold updateBands.
  destruct (useLogScale config).
  - match goal with
    | |- context [band_loop ?f ?c ?i] =>
        specialize (Hloop f); destruct (band_loop f c i) eqn:E
    end; [discriminate|].
    exfalso. revert E. apply Hloop. intros i. unfold log_band.
    match goal with
    | |- context [bin_range ?a ?b ?c] =>
        specialize (Hrange a b c); destruct (bin_range a b c)
    end; [discriminate | contradiction].
  - match goal with
    | |- context [band_loop ?f ?c ?i] =>
        specialize (Hloop f); destruct (band_loop f c i) eqn:E
    end; [discriminate|].
    exfalso. revert E. apply Hloop. intros i. unfold linear_band.
    match goal with
    | |- context [bin_range ?a ?b ?c] =>
        specialize (Hrange a b c); destruct (bin_range a b c)
    end; [discriminate | contradiction].
Qed.








(** ** The peak search *)

Section Peak.
Variable magnitudes : list double.

Definition mag (bin : N) : double := FFT.get d_0 magnitudes bin.

(** What the search knows after looking at the bins of [seen]: no bin
    seen is above [maxMag], and either [maxMag] is above zero and
    [peakBin] is a seen bin holding it, or both still have their initial
    values, [maxMag] zero and [peakBin] 0. *)
Definition peak_inv (seen : N -> Prop) (maxMag : double) (peakBin : N) : Prop :=
  is_nan maxMag = false /\
  (forall bin, seen bin -> lt maxMag (mag bin) = false) /\
  ((seen peakBin /\ mag peakBin = maxMag /\ lt d_0 maxMag = true) \/
   (peakBin = 0 /\ maxMag = d_0)).

Lemma lt_left_ordered (a b : double) : lt a b = true -> is_nan b = false.
Proof.
  unfold lt. intros H.
  apply andb_true_iff in H as [H _]. apply andb_true_iff in H as [_ H].
  now apply negb_true_iff in H.
Qed.

Lemma peak_inv_weaken (seen seen' : N -> Prop) (m : double) (b : N) :
  (forall bin, seen' bin <-> seen bin) ->
  peak_inv seen m b -> peak_inv seen' m b.
Proof.
  intros E (H1 & H2 & H3). split; [exact H1|]. split.
  - intros bin Hb. apply H2. now apply E.
  - destruct H3 as [[H3 H4]|H3]; [left | now right].
    split; [now apply E | exact H4].
Qed.

(** With the search in the state [peak_inv] describes: a bin seen above
    zero makes [peakBin] a seen bin that holds [maxMag]; no bin seen
    above zero leaves [peakBin] at 0. *)
Lemma peak_inv_cases (seen : N -> Prop) (m : double) (b : N) :
  peak_inv seen m b ->
  ((exists bin, seen bin /\ lt d_0 (mag bin) = true) ->
   seen b /\ mag b = m /\ lt d_0 m = true) /\
  ((forall bin, seen bin -> lt d_0 (mag bin) = false) -> b = 0 /\ m = d_0).
Proof.
  intros (_ & H2 & H3). split.
  - intros (bin & Hs & Hp).
    destruct H3 as [H3|[_ ->]]; [exact H3|].
    rewrite (H2 bin Hs) in Hp. discriminate.
  - intros Hz. destruct H3 as [(Hs & Hm & Hp)|H3]; [|exact H3].
    rewrite <- Hm, (Hz b Hs) in Hp. discriminate.
Qed.

Lemma bin_loop_inv (cnt : nat) :
  forall (bin : N) (seen : N -> Prop) (bandMax maxMag : double) (peakBin : N),
    bin + N.of_nat cnt < FFT.two64 ->
    peak_inv seen maxMag peakBin ->
    peak_inv (fun b => seen b \/ (bin <= b /\ b < bin + N.of_nat cnt))
             (snd (fst (bin_loop magnitudes cnt bin
                                 (bandMax, maxMag, peakBin))))
             (snd (bin_loop magnitudes cnt bin (bandMax, maxMag, peakBin))).
Proof.
  induction cnt as [|cnt IH]; intros bin seen bandMax maxMag peakBin Hw Hinv.
  - simpl. revert Hinv. apply peak_inv_weaken. intros b. split; [|tauto].
    intros [H|H]; [exact H | lia].
  - cbn [bin_loop]. fold (mag bin).
    assert (Hnext : FFT.wadd bin 1 = bin + 1)
      by (unfold FFT.wadd, FFT.two64 in *; apply N.mod_small; lia).
    rewrite Hnext.
    set (bandMax' := if lt bandMax (mag bin) then mag bin else bandMax).
    destruct Hinv as (H1 & H2 & H3).
    destruct (lt maxMag (mag bin)) eqn:E.
    + eapply peak_inv_weaken;
        [|apply (IH (bin + 1)
                    (fun b => seen b \/ b = bin) bandMax' (mag bin) bin);
          [lia|] ].
      * intros b. split; intros [H|H]; try tauto.
        -- destruct (N.eq_dec b bin); [tauto | right; lia].
        -- destruct H as [H|H]; [tauto | right; lia].
        -- right. lia.
      * split; [exact (lt_left_ordered _ _ E)|]. split.
        -- intros b [Hb| ->]; [|apply lt_irrefl].
           destruct (lt (mag bin) (mag b)) eqn:E2; [|reflexivity].
           rewrite <- (H2 b Hb). symmetry.
           exact (lt_trans _ _ _ E E2).
        -- left. split; [now right|]. split; [reflexivity|].
           destruct H3 as [(_ & _ & H3)|[_ H3]].
           ++ exact (lt_trans _ _ _ H3 E).
           ++ now rewrite <- H3.
    + eapply peak_inv_weaken;
        [|apply (IH (bin + 1)
                    (fun b => seen b \/ b = bin) bandMax' maxMag peakBin);
          [lia|] ].
      * intros b. split; intros [H|H]; try tauto.
        -- destruct (N.eq_dec b bin); [tauto | right; lia].
        -- destruct H as [H|H]; [tauto | right; lia].
        -- right. lia.
      * split; [exact H1|]. split.
        -- intros b [Hb| ->]; [now apply H2 | exact E].
        -- destruct H3 as [[H3 H4]|H3]; [left | now right].
           split; [now left | exact H4].
Qed.

Context {A : Arith}.

Lemma scan_band_inv (halfSize : N) (smoothing : double) (st : scan)
    (band : N) (bins : N * N) (seen : N -> Prop) :
  halfSize < FFT.two64 ->
  peak_inv seen (maxMag st) (peakBin st) ->
  peak_inv (fun b => seen b \/ scanned halfSize [bins] b)
           (maxMag (scan_band magnitudes halfSize smoothing st band bins))
           (peakBin (scan_band magnitudes halfSize smoothing st band bins)).
Proof.
  intros Hh Hinv. destruct bins as [startBin endBin]. unfold scan_band.
  destruct (halfSize <=? startBin) eqn:E.
  - apply N.leb_le in E. simpl. revert Hinv. apply peak_inv_weaken.
    intros b. split; [|tauto]. intros [H|H]; [exact H|].
    destruct H as (s & e & [[= <- <-]|[]] & H1 & _). lia.
  - apply N.leb_gt in E.
    assert (Hsub : FFT.wsub halfSize 1 = halfSize - 1).
    { unfold FFT.wsub.
      replace (halfSize + FFT.two64 - 1) with (halfSize - 1 + 1 * FFT.two64)
        by lia.
      rewrite N.Div0.mod_add. apply N.mod_small. lia. }
    rewrite Hsub.
    set (endBin' := N.min endBin (halfSize - 1)).
    pose proof (bin_loop_inv (bin_count startBin endBin') startBin seen d_0
                             (maxMag st) (peakBin st)) as L.
    destruct (bin_loop magnitudes (bin_count startBin endBin') startBin
                       (d_0, maxMag st, peakBin st)) as [[bm mm] pb].
    simpl in *.
    assert (Hc : startBin + N.of_nat (bin_count startBin endBin')
                 < FFT.two64).
    { unfold bin_count. unfold FFT.two64 in *.
      destruct (startBin <=? endBin') eqn:E2; [|lia].
      apply N.leb_le in E2. rewrite N2Nat.id. subst endBin'. lia. }
    specialize (L Hc Hinv). revert L. apply peak_inv_weaken.
    intros b. split; intros [H|H]; try tauto; right.
    + destruct H as (s & e & [[= <- <-]|[]] & H1 & H2 & H3).
      fold endBin' in H3. unfold bin_count.
      assert (E2 : (startBin <=? endBin') = true) by (apply N.leb_le; lia).
      rewrite E2, N2Nat.id. lia.
    + exists startBin, endBin. split; [now left|]. split; [exact E|].
      fold endBin'. unfold bin_count in H.
      destruct (startBin <=? endBin') eqn:E2.
      * rewrite N2Nat.id in H. apply N.leb_le in E2. lia.
      * simpl in H. lia.
Qed.

Lemma scanned_cons (halfSize : N) (bins : N * N) (rest : list (N * N))
    (b : N) :
  scanned halfSize (bins :: rest) b
  <-> scanned halfSize [bins] b \/ scanned halfSize rest b.
Proof.
  unfold scanned. split.
  - intros (s & e & [H|H] & H').
    + left. exists s, e. split; [now left | exact H'].
    + right. exists s, e. split; [exact H | exact H'].
  - intros [(s & e & [H|[]] & H')|(s & e & H & H')].
    + exists s, e. split; [now left | exact H'].
    + exists s, e. split; [now right | exact H'].
Qed.

Lemma scan_bands_inv (halfSize : N) (smoothing : double)
    (bandBins : list (N * N)) :
  halfSize < FFT.two64 ->
  forall (band : N) (st : scan) (seen : N -> Prop),
    peak_inv seen (maxMag st) (peakBin st) ->
    peak_inv (fun b => seen b \/ scanned halfSize bandBins b)
      (maxMag (scan_bands magnitudes halfSize smoothing bandBins band st))
      (peakBin (scan_bands magnitudes halfSize smoothing bandBins band st)).
Proof.
  intros Hh. induction bandBins as [|bins rest IH]; intros band st seen Hinv.
  - simpl. revert Hinv. apply peak_inv_weaken. intros b.
    split; [|tauto]. intros [H|(s & e & [] & _)]. exact H.
  - cbn [scan_bands].
    eapply peak_inv_weaken; [|apply IH, scan_band_inv; eassumption].
    intros b. rewrite scanned_cons. tauto.
Qed.

End Peak.

(** C9, as the code has it.  On every analysis tick the reported peak
    frequency is [peakBin * (sampleRate / fftSize)], where [peakBin] is
    chosen among the bins the band loop looks at, the bins
    [startBin .. min(endBin, fftSize/2 - 1)] of the bands with
    [startBin < fftSize/2]: none of them has a magnitude above [maxMag];
    when one of them has a magnitude above zero, [peakBin] is one of
    them, holds [maxMag], and [maxMag] is above zero; when none of them
    has, [peakBin] is 0 and [maxMag] is zero. *)
Theorem peak_is_largest_scanned_bin {A : Arith} (sampleRate : N)
    (config : AnalyzerConfig) (bandBins : list (N * N))
    (smoothed spectrum magnitudes : list double) :
  fftSize config < FFT.two64 ->
  let result :=
    computeSpectrum sampleRate config bandBins smoothed spectrum magnitudes in
  let scanned := scanned (fftSize config / 2) bandBins in
  snd result
  = mul (of_size (peakBin (fst result)))
        (div (of_size sampleRate) (of_size (fftSize config))) /\
  peak_inv magnitudes scanned (maxMag (fst result)) (peakBin (fst result)) /\
  (forall bin, scanned bin ->
     lt (maxMag (fst result)) (mag magnitudes bin) = false) /\
  ((exists bin, scanned bin /\ lt d_0 (mag magnitudes bin) = true) ->
   scanned (peakBin (fst result)) /\
   mag magnitudes (peakBin (fst result)) = maxMag (fst result) /\
   lt d_0 (maxMag (fst result)) = true) /\
  ((forall bin, scanned bin -> lt d_0 (mag magnitudes bin) = false) ->
   peakBin (fst result) = 0 /\ maxMag (fst result) = d_0).
Proof.
  intros Hf result sc. split; [reflexivity|].
  assert (Hinv : peak_inv magnitudes sc (maxMag (fst result))
                          (peakBin (fst result))).
  { subst result sc. unfold computeSpectrum. cbn [fst].
    eapply peak_inv_weaken;
      [|apply (scan_bands_inv magnitudes (fftSize config / 2)
                 (smoothingFactor config) bandBins)
          with (seen := fun _ => False)].
    - intros b. tauto.
    - pose proof (N.Div0.div_le_upper_bound (fftSize config) 2
                                            (fftSize config)).
      unfold FFT.two64 in *. lia.
    - split; [reflexivity|]. split; [intros b []|].
      right. split; reflexivity. }
  split; [exact Hinv|].
  split; [exact (proj1 (proj2 Hinv))|].
  exact (peak_inv_cases magnitudes sc _ _ Hinv).
Qed.

End audio_facts.

(* ================================================================== *)
(** * Running the analyzer on concrete inputs *)
(* ================================================================== *)

Module audio_examples.
Import IEEE IEEE_facts audio audio_facts.
Local Open Scope N_scope.

(** Conversions to [size_t]: 3.99 gives 3, -0.5 gives 0; -1.0, 2^64 and
    NaN are undefined; 1e19 still fits. *)
Example to_size_3_99 :
  to_size (mkDouble 0x400feb851eb851ec eq_refl) = Some 3.
Proof. reflexivity. Qed.
Example to_size_minus_half :
  to_size (mkDouble 0xbfe0000000000000 eq_refl) = Some 0.
Proof. reflexivity. Qed.
Example to_size_minus_one :
  to_size (mkDouble 0xbff0000000000000 eq_refl) = None.
Proof. reflexivity. Qed.
Example to_size_two64 :
  to_size (mkDouble 0x43f0000000000000 eq_refl) = None.
Proof. reflexivity. Qed.
Example to_size_nan :
  to_size (mkDouble 0x7ff8000000000000 eq_refl) = None.
Proof. reflexivity. Qed.
Example to_size_1e19 :
  to_size (mkDouble 0x43e158e460913d00 eq_refl) = Some 10000000000000000000.
Proof. reflexivity. Qed.

(** Three logarithmic bands. *)
Definition three_bands : AnalyzerConfig :=
  mkConfig 4096 1024 (mkDouble 0x3fe6666666666666 eq_refl)
           d_20 EQ.MAX_FREQ 3 true.

(** An 8-point frame at 44100 Hz (5512.5 Hz per bin) shown from 6000 Hz
    to 20000 Hz in two linear bands.  The band edges 6000, 13000 and
    20000 Hz divided by the bin width are 1.088..., 2.358... and
    3.628..., so the bands hold the bins 1..2 and 2..3: bin 0 is in no
    band. *)
Definition two_bands : AnalyzerConfig :=
  mkConfig 8 4 d_0
           (mkDouble 0x40b7700000000000 eq_refl)       (* 6000.0 *)
           EQ.MAX_FREQ 2 false.

Example two_bands_bins :
  to_size (mkDouble 0x3ff16a3b35fc845b eq_refl) = Some 1 /\
  to_size (mkDouble 0x4002ddc02526e4b7 eq_refl) = Some 2 /\
  to_size (mkDouble 0x400d0662af4f8742 eq_refl) = Some 3.
Proof. repeat split. Qed.

Definition two_bands_table : list (N * N) := [(1, 2); (2, 3)].

(** The magnitudes of a frame with a strong constant offset: 5.0 in bin
    0, then 1.0, 2.0, 1.0. *)
Definition offset_magnitudes : list double :=
  [mkDouble 0x4014000000000000 eq_refl; d_1; d_2; d_1; d_0; d_0; d_0; d_0].

(** C9 as stated fails: bin 0 has the largest magnitude of the
    positive-frequency half (bins 0..3), and the peak bin reported is
    bin 2. *)
Lemma peak_bin_counterexample :
  peakBin (fst (computeSpectrum (A := first_operand) 44100 two_bands
                  two_bands_table [d_0; d_0] [d_0; d_0] offset_magnitudes))
  = 2 /\
  0 < fftSize two_bands / 2 /\
  lt (mag offset_magnitudes 2) (mag offset_magnitudes 0) = true.
Proof. repeat split. Qed.

Lemma peak_is_largest_scanned_bin_witness :
  fftSize two_bands < FFT.two64 /\
  peak_inv offset_magnitudes (scanned (fftSize two_bands / 2) two_bands_table)
    (maxMag (fst (computeSpectrum (A := first_operand) 44100 two_bands
                    two_bands_table [d_0; d_0] [d_0; d_0] offset_magnitudes)))
    (peakBin (fst (computeSpectrum (A := first_operand) 44100 two_bands
                     two_bands_table [d_0; d_0] [d_0; d_0]
                     offset_magnitudes))).
Proof.
  assert (H : fftSize two_bands < FFT.two64) by reflexivity.
  split; [exact H|].
  exact (proj1 (proj2 (peak_is_largest_scanned_bin (A := first_operand)
                         44100 two_bands two_bands_table [d_0; d_0]
                         [d_0; d_0] offset_magnitudes H))).
Defined.

End audio_examples.

(* ================================================================== *)
(** * Properties of the transform engine *)
(* ================================================================== *)

Module FFT_facts.
Import FFT.
Local Open Scope N_scope.

(** [lia] with quotients and remainders by a constant. *)
Ltac elia := zify; Z.to_euclidean_division_equations; lia.

(** Indices inside a vector cut into blocks of [L] cells. *)
Lemma block_end (n L p : N) :
  0 < L -> n mod L = 0 -> p < n -> L * (p / L) + L <= n.
Proof.
  intros HL Hn Hp.
  pose proof (N.Div0.div_mod n L) as Hdn.
  pose proof (N.Div0.div_mod p L) as Hdp.
  pose proof (N.mod_lt p L ltac:(lia)) as Hm.
  rewrite Hn in Hdn.
  revert Hdn Hdp Hm. generalize (n / L) (p / L) (p mod L).
  intros Q q j Hdn Hdp Hm.
  assert (q < Q) by nia. nia.
Qed.

Lemma block_offset (L q j : N) : j < L -> (L * q + j) mod L = j.
Proof.
  intros H. rewrite N.add_comm, N.mul_comm, N.Div0.mod_add.
  now apply N.mod_small.
Qed.

Lemma block_start (L i : N) : i mod L = 0 -> i = L * (i / L).
Proof.
  intros H. pose proof (N.Div0.div_mod i L) as Hd.
  rewrite H in Hd. now rewrite N.add_0_r in Hd.
Qed.

(** ** Arithmetic without wrap-around *)

Lemma wadd_small (a b : N) : a + b < two64 -> wadd a b = a + b.
Proof. intros H. unfold wadd. now apply N.mod_small. Qed.

Lemma wsub_small (a b : N) : b <= a -> a < two64 -> wsub a b = a - b.
Proof.
  intros H1 H2. unfold wsub.
  replace (a + two64 - b) with (a - b + 1 * two64) by lia.
  rewrite N.Div0.mod_add. apply N.mod_small. lia.
Qed.

Lemma shl1_small (a : N) : 2 * a < two64 -> shl1 a = 2 * a.
Proof. intros H. unfold shl1. now apply N.mod_small. Qed.

Lemma p2_0 : p2 0 = 1.
Proof. reflexivity. Qed.

Lemma p2_S (b : nat) : p2 (S b) = 2 * p2 b.
Proof. unfold p2. now rewrite Nat2N.inj_succ, N.pow_succ_r'. Qed.

Lemma p2_pos (b : nat) : 0 < p2 b.
Proof.
  unfold p2. apply N.neq_0_lt_0, N.pow_nonzero. discriminate.
Qed.

Lemma p2_add (a b : nat) : p2 (a + b) = p2 a * p2 b.
Proof. unfold p2. now rewrite Nat2N.inj_add, N.pow_add_r. Qed.

Lemma p2_le (a b : nat) : (a <= b)%nat -> p2 a <= p2 b.
Proof.
  intros H. unfold p2. apply N.pow_le_mono_r; [discriminate | lia].
Qed.

Lemma p2_64 : p2 64 = two64.
Proof. reflexivity. Qed.

Lemma p2_lt_two64 (b : nat) : (b <= 63)%nat -> 2 * p2 b <= two64.
Proof.
  intros H. rewrite <- p2_S, <- p2_64. apply p2_le. lia.
Qed.

Lemma p2_half (b : nat) : p2 (S b) / 2 = p2 b.
Proof.
  rewrite p2_S, N.mul_comm. apply N.div_mul. discriminate.
Qed.

Lemma shiftr1 (k : N) : N.shiftr k 1 = k / 2.
Proof. rewrite N.shiftr_div_pow2. reflexivity. Qed.

(** ** [isPowerOf2] and [nextPowerOf2] *)

Lemma isPowerOf2_p2 (b : nat) : (b <= 63)%nat -> isPowerOf2 (p2 b) = true.
Proof.
  intros H. unfold isPowerOf2.
  pose proof (p2_pos b) as Hp. pose proof (p2_lt_two64 b H) as Hlt.
  apply andb_true_iff. split; [now apply N.ltb_lt|].
  rewrite wsub_small by lia.
  apply N.eqb_eq. unfold p2 in *.
  rewrite N.sub_1_r, <- N.ones_equiv, N.land_ones.
  apply N.Div0.mod_same.
Qed.

(** One smearing step [n |= n >> w] doubles the window of bits of [m]
    that each bit of [n] collects. *)
Lemma smear_step (m x w : N) :
  (forall i, N.testbit x i = true <->
             exists d, d < w /\ N.testbit m (i + d) = true) ->
  forall i, N.testbit (N.lor x (N.shiftr x w)) i = true <->
            exists d, d < 2 * w /\ N.testbit m (i + d) = true.
Proof.
  intros H i. rewrite N.lor_spec, N.shiftr_spec by apply N.le_0_l.
  rewrite orb_true_iff, !H. split.
  - intros [(d & Hd & Hb)|(d & Hd & Hb)].
    + exists d. split; [lia | exact Hb].
    + exists (w + d). split; [lia|]. now rewrite N.add_assoc.
  - intros (d & Hd & Hb).
    destruct (N.lt_ge_cases d w) as [Hlt|Hge].
    + left. exists d. now split.
    + right. exists (d - w). split; [lia|].
      now replace (i + w + (d - w)) with (i + d) by lia.
Qed.

(** The six steps together set every bit below the top bit of [m]. *)
Lemma smear_ones (m : N) :
  m <> 0 -> m < two64 ->
  let n := m in
  let n := N.lor n (N.shiftr n 1) in
  let n := N.lor n (N.shiftr n 2) in
  let n := N.lor n (N.shiftr n 4) in
  let n := N.lor n (N.shiftr n 8) in
  let n := N.lor n (N.shiftr n 16) in
  let n := N.lor n (N.shiftr n 32) in
  n = N.ones (N.succ (N.log2 m)).
Proof.
  intros Hm Hlt. cbv zeta.
  assert (H0 : forall i, N.testbit m i = true <->
                         exists d, d < 1 /\ N.testbit m (i + d) = true).
  { intros i. split.
    - intros H. exists 0. split; [lia|]. now rewrite N.add_0_r.
    - intros (d & Hd & H). now replace (i + d) with i in H by lia. }
  pose proof (smear_step m _ 1 H0) as H1.
  pose proof (smear_step m _ _ H1) as H2.
  pose proof (smear_step m _ _ H2) as H3.
  pose proof (smear_step m _ _ H3) as H4.
  pose proof (smear_step m _ _ H4) as H5.
  pose proof (smear_step m _ _ H5) as H6.
  change (2 * 1) with 2 in *. change (2 * 2) with 4 in *.
  change (2 * 4) with 8 in *. change (2 * 8) with 16 in *.
  change (2 * 16) with 32 in *. change (2 * 32) with 64 in *.
  clear H0 H1 H2 H3 H4 H5.
  assert (Hlog : N.log2 m < 64).
  { apply N.log2_lt_pow2; [lia|]. exact Hlt. }
  apply N.bits_inj. intros i.
  destruct (N.lt_ge_cases i (N.succ (N.log2 m))) as [Hi|Hi].
  - rewrite N.ones_spec_low by assumption. apply H6.
    exists (N.log2 m - i). split; [lia|].
    replace (i + (N.log2 m - i)) with (N.log2 m) by lia.
    apply N.bit_log2. exact Hm.
  - rewrite N.ones_spec_high by assumption.
    apply not_true_is_false. intros H. apply H6 in H.
    destruct H as (d & _ & Hb).
    rewrite N.bits_above_log2 in Hb by lia. discriminate.
Qed.

(** For a size up to [2^63] the result is the least power of two that is
    not below it. *)
Lemma nextPowerOf2_spec (n : N) :
  n <= p2 63 ->
  exists b : nat, (b <= 63)%nat /\ nextPowerOf2 n = p2 b /\ n <= p2 b /\
                  (forall c : nat, n <= p2 c -> (b <= c)%nat).
Proof.
  intros Hn. unfold nextPowerOf2.
  assert (H63 : p2 63 = 9223372036854775808) by reflexivity.
  destruct (n =? 0) eqn:E0.
  { apply N.eqb_eq in E0. subst n. exists O. rewrite p2_0.
    split; [lia|]. split; [reflexivity|]. split; lia. }
  apply N.eqb_neq in E0.
  rewrite wsub_small by (unfold two64; lia).
  destruct (N.eq_dec (n - 1) 0) as [E1|E1].
  { rewrite E1. exists O. assert (n = 1) by lia. subst n. rewrite p2_0.
    split; [lia|]. split; [reflexivity|]. split; lia. }
  pose proof (smear_ones (n - 1) E1 ltac:(unfold two64; lia)) as S.
  cbv zeta in S. rewrite S. clear S.
  assert (Hlog : N.log2 (n - 1) < 63).
  { apply N.log2_lt_pow2; [lia|]. change (2 ^ 63) with 9223372036854775808.
    lia. }
  exists (N.to_nat (N.succ (N.log2 (n - 1)))).
  assert (Hp : p2 (N.to_nat (N.succ (N.log2 (n - 1))))
               = 2 ^ N.succ (N.log2 (n - 1)))
    by (unfold p2; now rewrite N2Nat.id).
  rewrite Hp.
  pose proof (N.log2_spec (n - 1) ltac:(lia)) as [Hlo Hhi].
  assert (Hb : 2 ^ N.succ (N.log2 (n - 1)) <= 2 ^ 63)
    by (apply N.pow_le_mono_r; [discriminate | lia]).
  change (2 ^ 63) with 9223372036854775808 in Hb.
  split; [lia|]. split.
  - rewrite N.ones_equiv. rewrite wadd_small.
    + rewrite N.add_1_r. apply N.succ_pred. apply N.pow_nonzero. discriminate.
    + unfold two64. lia.
  - split; [lia|].
    intros c Hc. unfold p2 in Hc.
    assert (N.log2 (n - 1) < N.of_nat c); [|lia].
    apply N.log2_lt_pow2; lia.
Qed.

Lemma p2_inj_le (a b : nat) : p2 a <= p2 b -> (a <= b)%nat.
Proof.
  unfold p2. intros H.
  apply N.pow_le_mono_r_iff in H; [lia | reflexivity].
Qed.

Lemma nextPowerOf2_p2 (b : nat) : (b <= 63)%nat -> nextPowerOf2 (p2 b) = p2 b.
Proof.
  intros H.
  destruct (nextPowerOf2_spec (p2 b) (p2_le _ _ H)) as (c & Hc & E & Hle & Hmin).
  rewrite E. f_equal. apply Nat.le_antisymm.
  - apply Hmin. lia.
  - now apply p2_inj_le.
Qed.

(** ** Vectors *)

Section Vectors.
Context {T : Type}.
Implicit Types (v : list T) (i j : N) (x d : T).

Lemma length_set_nth v (k : nat) x : length (set_nth v k x) = length v.
Proof.
  revert k. induction v as [|h t IH]; intros [|k]; simpl; auto.
Qed.

Lemma size_set v i x : size (set v i x) = size v.
Proof. unfold size, set. now rewrite length_set_nth. Qed.

Lemma nth_set_nth_same v (k : nat) x d :
  (k < length v)%nat -> nth k (set_nth v k x) d = x.
Proof.
  revert k. induction v as [|h t IH]; intros [|k] H; simpl in *;
    try lia; auto. apply IH. lia.
Qed.

Lemma nth_set_nth_other v (k l : nat) x d :
  k <> l -> nth l (set_nth v k x) d = nth l v d.
Proof.
  revert k l. induction v as [|h t IH]; intros [|k] [|l] H; simpl;
    try congruence; auto.
Qed.

Lemma get_set_same v i x d : i < size v -> get d (set v i x) i = x.
Proof.
  unfold size, get, set. intros H. apply nth_set_nth_same. lia.
Qed.

Lemma get_set_other v i j x d : i <> j -> get d (set v i x) j = get d v j.
Proof.
  unfold get, set. intros H. apply nth_set_nth_other. lia.
Qed.

Lemma get_set v i j x d :
  i < size v ->
  get d (set v i x) j = if j =? i then x else get d v j.
Proof.
  intros H. destruct (j =? i) eqn:E.
  - apply N.eqb_eq in E. subst. now apply get_set_same.
  - apply N.eqb_neq in E. apply get_set_other. congruence.
Qed.

Lemma vec_ext v w d :
  size v = size w ->
  (forall i, i < size v -> get d v i = get d w i) -> v = w.
Proof.
  unfold size, get. intros Hs H.
  apply (nth_ext v w d d); [lia|].
  intros k Hk. specialize (H (N.of_nat k)).
  rewrite Nat2N.id in H. apply H. lia.
Qed.

Lemma get_repeat x d (n : nat) i :
  i < N.of_nat n -> get d (repeat x n) i = x.
Proof.
  unfold get. intros H. apply nth_repeat_lt. lia.
Qed.

Lemma size_repeat x (n : nat) : size (repeat x n) = N.of_nat n.
Proof. unfold size. now rewrite repeat_length. Qed.

End Vectors.

Lemma get_map {T U} (f : T -> U) (v : list T) (d : T) (d' : U) (i : N) :
  i < size v -> get d' (map f v) i = f (get d v i).
Proof.
  unfold size, get. intros H.
  rewrite (nth_indep _ d' (f d)) by (rewrite length_map; lia).
  apply map_nth.
Qed.

Lemma size_map {T U} (f : T -> U) (v : list T) : size (map f v) = size v.
Proof. unfold size. now rewrite length_map. Qed.

(** ** Bit reversal *)

(** The [b]-bit reversal of [i]. *)
Fixpoint rev (b : nat) (i : N) : N :=
  match b with
  | O => 0
  | S b' => (i mod 2) * p2 b' + rev b' (i / 2)
  end.

Lemma rev_lt (b : nat) : forall i, rev b i < p2 b.
Proof.
  induction b as [|b IH]; intros i; cbn [rev]; [reflexivity|].
  rewrite p2_S. specialize (IH (i / 2)).
  pose proof (N.mod_lt i 2 ltac:(discriminate)).
  assert (i mod 2 = 0 \/ i mod 2 = 1) as [-> | ->] by elia; lia.
Qed.

(** The reversal read from the other end. *)
Lemma rev_high (b : nat) :
  forall i, rev (S b) i = 2 * rev b (i mod p2 b) + (i / p2 b) mod 2.
Proof.
  induction b as [|b IH]; intros i.
  - cbn [rev]. rewrite p2_0, N.div_1_r. elia.
  - change (rev (S (S b)) i)
      with ((i mod 2) * p2 (S b) + rev (S b) (i / 2)).
    rewrite IH.
    change (rev (S b) (i mod p2 (S b)))
      with (((i mod p2 (S b)) mod 2) * p2 b + rev b ((i mod p2 (S b)) / 2)).
    pose proof (p2_pos b) as Hp.
    assert (E1 : (i mod p2 (S b)) mod 2 = i mod 2).
    { rewrite p2_S, N.Div0.mod_mul_r.
      generalize ((i / 2) mod p2 b). intros x. elia. }
    assert (E2 : (i mod p2 (S b)) / 2 = (i / 2) mod p2 b).
    { rewrite p2_S, N.Div0.mod_mul_r.
      generalize ((i / 2) mod p2 b). intros x. elia. }
    assert (E3 : i / 2 / p2 b = i / p2 (S b)).
    { rewrite p2_S. now rewrite N.Div0.div_div. }
    rewrite E1, E2, E3, p2_S. elia.
Qed.

Lemma rev_involutive (b : nat) : forall i, i < p2 b -> rev b (rev b i) = i.
Proof.
  induction b as [|b IH]; intros i Hi.
  - cbn [rev]. rewrite p2_0 in Hi. elia.
  - rewrite rev_high.
    change (rev (S b) i) with ((i mod 2) * p2 b + rev b (i / 2)).
    pose proof (rev_lt b (i / 2)) as Hr.
    pose proof (p2_pos b) as Hp.
    assert (Hm : i mod 2 < 2) by (apply N.mod_lt; discriminate).
    assert (E1 : ((i mod 2) * p2 b + rev b (i / 2)) mod p2 b = rev b (i / 2)).
    { rewrite N.add_comm, N.Div0.mod_add. now apply N.mod_small. }
    assert (E2 : ((i mod 2) * p2 b + rev b (i / 2)) / p2 b = i mod 2).
    { rewrite N.add_comm, N.div_add by elia.
      rewrite N.div_small by assumption. reflexivity. }
    rewrite E1, E2, IH.
    + rewrite N.Div0.mod_mod.
      pose proof (N.Div0.div_mod i 2). elia.
    + rewrite p2_S in Hi.
      apply N.Div0.div_lt_upper_bound. elia.
Qed.

Section BitReversal.
Context {D : Type} {S_ : Scalar D}.

(** The inner [while]: from the reversal of [i] it leaves [j] and [k]
    with [j + k] the reversal of [i + 1]. *)
Lemma bitrev_while_spec (b : nat) :
  forall (fuel : nat) (i : N),
    (b <= fuel)%nat -> (b <= 64)%nat -> i + 1 < p2 b ->
    exists j k, bitrev_while fuel (rev b i) (p2 b / 2) = Some (j, k) /\
                j + k = rev b (i + 1).
Proof.
  induction b as [|b IH]; intros fuel i Hf Hb Hi.
  - rewrite p2_0 in Hi. elia.
  - destruct fuel as [|fuel]; [elia|].
    rewrite p2_half. cbn [bitrev_while].
    change (rev (S b) i) with ((i mod 2) * p2 b + rev b (i / 2)).
    change (rev (S b) (i + 1))
      with (((i + 1) mod 2) * p2 b + rev b ((i + 1) / 2)).
    pose proof (rev_lt b (i / 2)) as Hr.
    pose proof (N.Div0.div_mod i 2) as Hdm.
    assert (Hm : i mod 2 < 2) by (apply N.mod_lt; discriminate).
    assert (Hcase : i mod 2 = 0 \/ i mod 2 = 1) by elia.
    destruct Hcase as [E|E]; rewrite E.
    + (* i even: the test fails at once *)
      assert (En : (p2 b <=? 0 * p2 b + rev b (i / 2)) = false)
        by (apply N.leb_gt; elia).
      rewrite En. eexists _, _. split; [reflexivity|].
      assert (E1 : (i + 1) mod 2 = 1).
      { replace (i + 1) with (1 + (i / 2) * 2) by elia.
        now rewrite N.Div0.mod_add. }
      assert (E2 : (i + 1) / 2 = i / 2).
      { replace (i + 1) with (1 + (i / 2) * 2) at 1 by elia.
        now rewrite N.div_add by discriminate. }
      rewrite E1, E2. elia.
    + (* i odd: the top bit is cleared and the loop goes on *)
      assert (En : (p2 b <=? 1 * p2 b + rev b (i / 2)) = true)
        by (apply N.leb_le; elia).
      rewrite En.
      assert (Hlt : 2 * p2 b <= two64).
      { rewrite <- p2_S, <- p2_64. apply p2_le. elia. }
      rewrite wsub_small by elia.
      replace (1 * p2 b + rev b (i / 2) - p2 b) with (rev b (i / 2)) by elia.
      rewrite shiftr1.
      assert (E1 : (i + 1) mod 2 = 0).
      { replace (i + 1) with (0 + (i / 2 + 1) * 2) by elia.
        now rewrite N.Div0.mod_add. }
      assert (E2 : (i + 1) / 2 = i / 2 + 1).
      { replace (i + 1) with (0 + (i / 2 + 1) * 2) at 1 by elia.
        now rewrite N.div_add by discriminate. }
      rewrite E1, E2, N.mul_0_l, N.add_0_l.
      apply IH; [elia | elia|].
      rewrite p2_S in Hi. elia.
Qed.

(** The state of the permutation loop before turn [m]: the cells of the
    index pairs already visited are exchanged, the others untouched. *)
Definition permuted_to (b : nat) (orig cur : ComplexVector) (m : N) : Prop :=
  size cur = size orig /\
  forall p, p < p2 b ->
    cget cur p = if N.min p (rev b p) <? m then cget orig (rev b p)
                 else cget orig p.

Lemma size_swap (data : ComplexVector) (i j : N) :
  size (swap data i j) = size data.
Proof. unfold swap. now rewrite !size_set. Qed.

Lemma cget_swap (data : ComplexVector) (i j p : N) :
  i < size data -> j < size data ->
  cget (swap data i j) p
  = if p =? j then cget data i
    else if p =? i then cget data j else cget data p.
Proof.
  intros Hi Hj. unfold swap, cget.
  rewrite get_set by (now rewrite size_set).
  destruct (p =? j); [reflexivity|]. now apply get_set.
Qed.

Lemma bitrev_for_spec (b : nat) (orig : ComplexVector) :
  (1 <= b <= 63)%nat -> size orig = p2 b ->
  forall (cnt : nat) (m : N) (cur : ComplexVector),
    m + N.of_nat cnt = p2 b - 1 ->
    permuted_to b orig cur m ->
    exists out, bitrev_for cnt (p2 b) m (rev b m) cur = Done out /\
                permuted_to b orig out (p2 b - 1).
Proof.
  intros Hb Hsize. induction cnt as [|cnt IH]; intros m cur Hm Hinv.
  - exists cur. split; [reflexivity|].
    now replace (p2 b - 1) with m by lia.
  - cbn [bitrev_for].
    assert (Hm1 : m + 1 < p2 b) by lia.
    destruct (bitrev_while_spec b 65 m ltac:(lia) ltac:(lia) Hm1)
      as (j & k & Hw & Hjk).
    rewrite shiftr1, Hw.
    pose proof (p2_lt_two64 b ltac:(lia)) as H64.
    pose proof (p2_pos b) as Hpos.
    pose proof (rev_lt b (m + 1)) as Hr1.
    rewrite !wadd_small by lia. rewrite Hjk.
    apply IH; [lia|].
    destruct Hinv as [Hs Hinv].
    pose proof (rev_lt b m) as Hrm.
    destruct (m <? rev b m) eqn:E.
    + apply N.ltb_lt in E. split; [now rewrite size_swap|].
      intros p Hp.
      rewrite cget_swap by (rewrite Hs, Hsize; lia).
      rewrite !Hinv by lia.
      rewrite rev_involutive by lia.
      assert (E1 : (N.min m (rev b m) <? m) = false)
        by (apply N.ltb_ge; lia).
      assert (E2 : (N.min (rev b m) m <? m) = false)
        by (apply N.ltb_ge; lia).
      rewrite E1, E2.
      destruct (p =? rev b m) eqn:Ep.
      * apply N.eqb_eq in Ep. subst p.
        rewrite rev_involutive by lia.
        assert (E3 : (N.min (rev b m) m <? m + 1) = true)
          by (apply N.ltb_lt; lia).
        now rewrite E3.
      * apply N.eqb_neq in Ep.
        destruct (p =? m) eqn:Ep'.
        -- apply N.eqb_eq in Ep'. subst p.
           assert (E3 : (N.min m (rev b m) <? m + 1) = true)
             by (apply N.ltb_lt; lia).
           now rewrite E3.
        -- apply N.eqb_neq in Ep'.
           assert (Hne : rev b p <> m).
           { intros Hc. apply Ep. rewrite <- Hc.
             now rewrite rev_involutive. }
           assert (E3 : (N.min p (rev b p) <? m + 1)
                        = (N.min p (rev b p) <? m)).
           { destruct (N.min p (rev b p) <? m) eqn:E4.
             - apply N.ltb_lt in E4. apply N.ltb_lt. lia.
             - apply N.ltb_ge in E4. apply N.ltb_ge. lia. }
           now rewrite E3.
    + apply N.ltb_ge in E. split; [exact Hs|].
      intros p Hp. rewrite Hinv by assumption.
      destruct (N.eq_dec p m) as [->|Hpm].
      * assert (E3 : (N.min m (rev b m) <? m + 1) = true)
          by (apply N.ltb_lt; lia).
        rewrite E3.
        destruct (N.min m (rev b m) <? m) eqn:E4; [reflexivity|].
        apply N.ltb_ge in E4. f_equal. lia.
      * destruct (N.eq_dec (rev b p) m) as [Hrp|Hrp].
        -- assert (Hpr : p = rev b m)
             by (rewrite <- Hrp; now rewrite rev_involutive).
           assert (E3 : (N.min p (rev b p) <? m + 1) = true)
             by (apply N.ltb_lt; lia).
           assert (E4 : (N.min p (rev b p) <? m) = true)
             by (apply N.ltb_lt; lia).
           now rewrite E3, E4.
        -- assert (E3 : (N.min p (rev b p) <? m + 1)
                        = (N.min p (rev b p) <? m)).
           { destruct (N.min p (rev b p) <? m) eqn:E4.
             - apply N.ltb_lt in E4. apply N.ltb_lt. lia.
             - apply N.ltb_ge in E4. apply N.ltb_ge. lia. }
           now rewrite E3.
Qed.

(** [bitReversePermute] on a vector of [2^b] cells returns, and cell [p]
    of the result is cell [rev b p] of the argument. *)
Lemma bitReversePermute_spec (b : nat) (data : ComplexVector) :
  (1 <= b <= 63)%nat -> size data = p2 b ->
  exists out, bitReversePermute data = Done out /\
              size out = p2 b /\
              forall p, p < p2 b -> cget out p = cget data (rev b p).
Proof.
  intros Hb Hs. unfold bitReversePermute. rewrite Hs.
  pose proof (p2_lt_two64 b ltac:(lia)) as H64.
  pose proof (p2_pos b) as Hpos.
  rewrite wsub_small by lia.
  assert (H0 : rev b 0 = 0).
  { clear. induction b as [|b IH]; cbn [rev]; [reflexivity|].
    change (0 / 2) with 0. rewrite IH. reflexivity. }
  destruct (bitrev_for_spec b data Hb Hs (N.to_nat (p2 b - 1)) 0 data)
    as (out & Hout & Hsz & Hperm).
  - rewrite N2Nat.id. lia.
  - split; [reflexivity|]. intros p Hp.
    assert (E : (N.min p (rev b p) <? 0) = false) by (apply N.ltb_ge; lia).
    now rewrite E.
  - rewrite H0 in Hout.
    exists out. split; [exact Hout|]. split; [now rewrite Hsz|].
    intros p Hp. rewrite Hperm by assumption.
    pose proof (rev_lt b p) as Hr.
    destruct (N.min p (rev b p) <? p2 b - 1) eqn:E; [reflexivity|].
    apply N.ltb_ge in E. f_equal. lia.
Qed.

End BitReversal.

(** ** One butterfly pass *)

Section Passes.
Context {D : Type} {S_ : Scalar D}.

(** [w] after [e] turns of [w *= wlen]. *)
Fixpoint cpow (z : Complex) (e : nat) : Complex :=
  match e with
  | O => cone
  | S e' => cmul (cpow z e') z
  end.

Definition cpowN (z : Complex) (e : N) : Complex := cpow z (N.to_nat e).

Lemma cpowN_succ (z : Complex) (e : N) :
  cpowN z (e + 1) = cmul (cpowN z e) z.
Proof.
  unfold cpowN. replace (N.to_nat (e + 1)) with (S (N.to_nat e)) by lia.
  reflexivity.
Qed.

(** The twiddle factor of the stage of length [len]. *)
Definition twiddle (len : N) : Complex :=
  let angle := div (mul minus_two PI) (of_size len) in
  (cos angle, sin angle).

(** Cell [p] after the pass of half-length [h] over the cells [f]. *)
Definition pass_at (wlen : Complex) (h : N) (f : N -> Complex) (p : N)
  : Complex :=
  let j := p mod (2 * h) in
  if j <? h then cadd (f p) (cmul (cpowN wlen j) (f (p + h)))
  else csub (f (p - h)) (cmul (cpowN wlen (j - h)) (f p)).

Lemma pass_at_ext (wlen : Complex) (h n : N) (f g : N -> Complex) (p : N) :
  0 < h -> n mod (2 * h) = 0 -> p < n ->
  (forall q, q < n -> f q = g q) ->
  pass_at wlen h f p = pass_at wlen h g p.
Proof.
  intros Hh Hn Hp Hfg. unfold pass_at.
  destruct (p mod (2 * h) <? h) eqn:E.
  - apply N.ltb_lt in E. rewrite !Hfg; [reflexivity | | assumption].
    pose proof (block_end n (2 * h) p ltac:(lia) Hn Hp) as He.
    pose proof (N.Div0.div_mod p (2 * h)) as Hd.
    revert He Hd E. generalize (p / (2 * h)) (p mod (2 * h)). intros. nia.
  - apply N.ltb_ge in E. rewrite !Hfg; [reflexivity | assumption |].
    lia.
Qed.

(** The cells a pass has already written when block [i] is at its
    butterfly [c]. *)
Definition written (h i c p : N) : Prop :=
  p < i \/ (i <= p /\ p < i + c) \/ (i + h <= p /\ p < i + h + c).

Definition pass_state (wlen : Complex) (h : N) (orig cur : ComplexVector)
    (i c : N) : Prop :=
  size cur = size orig /\
  forall p, p < size orig ->
    (written h i c p -> cget cur p = pass_at wlen h (cget orig) p) /\
    (~ written h i c p -> cget cur p = cget orig p).

Lemma butterflies_spec (wlen : Complex) (h i : N) (orig : ComplexVector) :
  0 < h -> i mod (2 * h) = 0 -> i + 2 * h <= size orig ->
  size orig < two64 ->
  forall (cnt : nat) (j : N) (cur : ComplexVector),
    j + N.of_nat cnt = h ->
    pass_state wlen h orig cur i j ->
    pass_state wlen h orig
      (butterflies cnt i j h (cpowN wlen j) wlen cur) i h.
Proof.
  intros Hh Hi Hn H64.
  induction cnt as [|cnt IH]; intros j cur Hj Hst.
  - cbn [butterflies]. assert (E : j = h) by lia. now subst j.
  - cbn [butterflies].
    rewrite !wadd_small by lia.
    rewrite <- cpowN_succ. apply IH; [lia|].
    destruct Hst as [Hs Hst].
    split; [now rewrite !size_set|].
    intros p Hp.
    destruct (Hst (i + j) ltac:(lia)) as [_ Hu].
    destruct (Hst (i + j + h) ltac:(lia)) as [_ Ht].
    rewrite Hu by (unfold written; lia).
    rewrite Ht by (unfold written; lia).
    destruct (Hst p Hp) as [Hw Hnw].
    unfold cget in *.
    rewrite get_set by (rewrite size_set, Hs; lia).
    rewrite get_set by (rewrite Hs; lia).
    pose proof (block_start _ _ Hi) as Hq.
    destruct (p =? i + j + h) eqn:E1.
    { apply N.eqb_eq in E1. subst p. split; [|unfold written; lia].
      intros _. unfold pass_at.
      assert (Em : (i + j + h) mod (2 * h) = j + h).
      { rewrite Hq, <- N.add_assoc. apply block_offset. lia. }
      rewrite Em.
      assert (El : (j + h <? h) = false) by (apply N.ltb_ge; lia).
      rewrite El.
      replace (j + h - h) with j by lia.
      replace (i + j + h - h) with (i + j) by lia. reflexivity. }
    apply N.eqb_neq in E1.
    destruct (p =? i + j) eqn:E2.
    { apply N.eqb_eq in E2. subst p. split; [|unfold written; lia].
      intros _. unfold pass_at.
      assert (Em : (i + j) mod (2 * h) = j).
      { rewrite Hq. apply block_offset. lia. }
      rewrite Em.
      assert (El : (j <? h) = true) by (apply N.ltb_lt; lia).
      rewrite El. reflexivity. }
    apply N.eqb_neq in E2.
    split.
    + intros H. apply Hw. unfold written in *. lia.
    + intros H. apply Hnw. unfold written in *. lia.
Qed.

Lemma cpowN_0 (z : Complex) : cpowN z 0 = cone.
Proof. reflexivity. Qed.

Lemma blocks_spec (wlen : Complex) (h : N) (orig : ComplexVector) :
  0 < h -> size orig mod (2 * h) = 0 -> size orig + 2 * h < two64 ->
  forall (r fuel : nat) (i : N) (cur : ComplexVector),
    (r < fuel)%nat ->
    i + N.of_nat r * (2 * h) = size orig ->
    pass_state wlen h orig cur i 0 ->
    exists out,
      blocks fuel (size orig) (2 * h) i wlen cur = Done out /\
      pass_state wlen h orig out (size orig) 0.
Proof.
  intros Hh Hn H64.
  induction r as [|r IH]; intros fuel i cur Hf Hi Hst.
  - destruct fuel as [|fuel]; [lia|]. cbn [blocks].
    assert (E : (i <? size orig) = false) by (apply N.ltb_ge; lia).
    rewrite E. exists cur. split; [reflexivity|].
    assert (Ei : i = size orig) by lia. now rewrite <- Ei.
  - destruct fuel as [|fuel]; [lia|]. cbn [blocks].
    assert (E : (i <? size orig) = true) by (apply N.ltb_lt; nia).
    rewrite E.
    assert (Eh : 2 * h / 2 = h)
      by (rewrite N.mul_comm; apply N.div_mul; discriminate).
    rewrite Eh.
    assert (Hi0 : i mod (2 * h) = 0).
    { pose proof (block_start _ _ Hn) as Hd.
      revert Hd. generalize (size orig / (2 * h)). intros Q Hd.
      assert (Hi' : i = (Q - N.of_nat (S r)) * (2 * h)) by nia.
      rewrite Hi'. apply N.Div0.mod_mul. }
    rewrite wadd_small by nia.
    apply IH; [lia | nia |].
    rewrite <- (cpowN_0 wlen).
    pose proof (butterflies_spec wlen h i orig Hh Hi0 ltac:(nia) ltac:(lia)
                  (N.to_nat h) 0 cur ltac:(lia) Hst) as [Hs Hb].
    split; [exact Hs|].
    intros p Hp. destruct (Hb p Hp) as [Hw Hnw].
    split.
    + intros H. apply Hw. unfold written in *. lia.
    + intros H. apply Hnw. unfold written in *. lia.
Qed.

(** A whole pass: the loop over the blocks returns, and cell [p] of the
    result is [pass_at] of the cells before. *)
Lemma pass_spec (wlen : Complex) (h : N) (data : ComplexVector) :
  0 < h -> size data mod (2 * h) = 0 -> size data + 2 * h < two64 ->
  exists out,
    blocks (S (N.to_nat (size data))) (size data) (2 * h) 0 wlen data
    = Done out /\
    size out = size data /\
    forall p, p < size data -> cget out p = pass_at wlen h (cget data) p.
Proof.
  intros Hh Hn H64.
  pose proof (block_start _ _ Hn) as Hd.
  destruct (blocks_spec wlen h data Hh Hn H64
              (N.to_nat (size data / (2 * h))) (S (N.to_nat (size data)))
              0 data) as (out & Hout & Hs & Hst).
  - revert Hd. generalize (size data / (2 * h)). intros Q Hd.
    assert (Q <= size data) by nia. lia.
  - rewrite N2Nat.id. revert Hd. generalize (size data / (2 * h)).
    intros Q Hd. lia.
  - split; [reflexivity|]. intros p Hp. split; [|reflexivity].
    unfold written. lia.
  - exists out. split; [exact Hout|]. split; [exact Hs|].
    intros p Hp. apply Hst; [assumption|]. unfold written. lia.
Qed.

(** ** All the passes *)

(** The cells after the first [s] passes over the cells [f]. *)
Fixpoint fft_fn (s : nat) (f : N -> Complex) : N -> Complex :=
  match s with
  | O => f
  | S s' => pass_at (twiddle (p2 s)) (p2 s') (fft_fn s' f)
  end.

Lemma stages_spec (b : nat) (f0 : N -> Complex) :
  (b <= 62)%nat ->
  forall (r s fuel : nat) (data : ComplexVector),
    (s + r = b)%nat -> (r < fuel)%nat ->
    size data = p2 b ->
    (forall p, p < p2 b -> cget data p = fft_fn s f0 p) ->
    exists out,
      stages fuel (p2 b) (p2 (S s)) data = Done out /\
      size out = p2 b /\
      forall p, p < p2 b -> cget out p = fft_fn b f0 p.
Proof.
  intros Hb.
  assert (H64 : 4 * p2 b <= two64).
  { rewrite <- p2_64. replace (4 * p2 b) with (p2 (S (S b)))
      by (rewrite !p2_S; lia). apply p2_le. lia. }
  induction r as [|r IH]; intros s fuel data Hsr Hf Hs Hd.
  - destruct fuel as [|fuel]; [lia|]. cbn [stages].
    replace s with b in * by lia.
    assert (E : (p2 (S b) <=? p2 b) = false).
    { apply N.leb_gt. rewrite p2_S. pose proof (p2_pos b). lia. }
    rewrite E. exists data. auto.
  - destruct fuel as [|fuel]; [lia|]. cbn [stages].
    assert (Hle : p2 (S s) <= p2 b) by (apply p2_le; lia).
    assert (E : (p2 (S s) <=? p2 b) = true) by now apply N.leb_le.
    rewrite E. fold (twiddle (p2 (S s))).
    pose proof (p2_pos s) as Hps. pose proof (p2_pos b) as Hpb.
    assert (Hmod : size data mod (2 * p2 s) = 0).
    { rewrite Hs, <- p2_S.
      replace b with (r + S s)%nat by lia.
      rewrite p2_add. apply N.Div0.mod_mul. }
    destruct (pass_spec (twiddle (p2 (S s))) (p2 s) data Hps Hmod)
      as (out & Hout & Hso & Hpo).
    { rewrite Hs, <- p2_S. lia. }
    rewrite Hs, <- p2_S in Hout. rewrite Hout.
    rewrite shl1_small by lia.
    rewrite <- p2_S.
    apply IH; [lia | lia | congruence |].
    intros p Hp. rewrite Hpo by (rewrite Hs; exact Hp).
    cbn [fft_fn].
    apply (pass_at_ext _ _ (p2 b)); try assumption.
    now rewrite <- Hs.
Qed.

(** [transformInPlace] on [2^b] cells returns: the bit-reversal
    permutation followed by the [b] passes. *)
Lemma transformInPlace_spec (b : nat) (data : ComplexVector) :
  (b <= 62)%nat -> size data = p2 b ->
  exists out,
    transformInPlace data = Done out /\
    size out = p2 b /\
    forall p, p < p2 b ->
      cget out p = fft_fn b (fun q => cget data (rev b q)) p.
Proof.
  intros Hb Hs. unfold transformInPlace.
  rewrite Hs, isPowerOf2_p2 by lia. cbn [negb].
  destruct b as [|b].
  - rewrite p2_0. change (1 <=? 1) with true. cbv iota.
    exists data. split; [reflexivity|]. split; [now rewrite Hs|].
    intros p Hp. replace p with 0 by lia. reflexivity.
  - assert (E : (p2 (S b) <=? 1) = false).
    { apply N.leb_gt. rewrite p2_S. pose proof (p2_pos b). lia. }
    rewrite E.
    destruct (bitReversePermute_spec (S b) data ltac:(lia) Hs)
      as (d0 & Hd0 & Hs0 & Hp0).
    rewrite Hd0.
    change 2 with (p2 1).
    apply (stages_spec (S b) (fun q => cget data (rev (S b) q)) Hb
             (S b) 0 65 d0); [lia | lia | exact Hs0 | exact Hp0].
Qed.

End Passes.

(** ** [transform] *)

Section Padding.
Context {D : Type} {S_ : Scalar D}.

(** The signal as complex numbers, followed by zeros up to the next
    power of two. *)
Definition padded (signal : list D) : ComplexVector :=
  map (fun x => (x, zero)) signal
  ++ repeat czero (N.to_nat (nextPowerOf2 (size signal) - size signal)).

Lemma size_copy_signal (signal : list D) :
  forall (i : N) (data : ComplexVector),
    size (copy_signal signal i data) = size data.
Proof.
  induction signal as [|x rest IH]; intros i data; cbn [copy_signal];
    [reflexivity|].
  now rewrite IH, size_set.
Qed.

Lemma size_cons {T} (x : T) (l : list T) : size (x :: l) = size l + 1.
Proof. unfold size. cbn [length]. lia. Qed.

Lemma cget_copy_signal (signal : list D) :
  forall (i : N) (data : ComplexVector) (p : N),
    i + size signal <= size data -> size data < two64 ->
    cget (copy_signal signal i data) p
    = if (i <=? p) && (p <? i + size signal)
      then (get zero signal (p - i), zero)
      else cget data p.
Proof.
  induction signal as [|x rest IH]; intros i data p Hi H64.
  - cbn [copy_signal]. change (size (@nil D)) with 0.
    assert (E : (i <=? p) && (p <? i + 0) = false).
    { destruct (i <=? p) eqn:E1; [|reflexivity].
      apply N.leb_le in E1. apply N.ltb_ge. lia. }
    now rewrite E.
  - cbn [copy_signal]. rewrite size_cons in *.
    rewrite wadd_small by lia.
    rewrite IH by (rewrite size_set; lia).
    unfold cget. rewrite get_set by lia.
    destruct (N.eq_dec p i) as [->|Hne].
    + assert (E1 : (i + 1 <=? i) && (i <? i + 1 + size rest) = false).
      { apply andb_false_iff. left. apply N.leb_gt. lia. }
      assert (E2 : (i <=? i) && (i <? i + (size rest + 1)) = true).
      { apply andb_true_iff. split; [apply N.leb_le | apply N.ltb_lt]; lia. }
      rewrite E1, E2, N.eqb_refl, N.sub_diag. reflexivity.
    + assert (E0 : (p =? i) = false) by now apply N.eqb_neq.
      rewrite E0.
      destruct ((i + 1 <=? p) && (p <? i + 1 + size rest)) eqn:E1.
      * apply andb_true_iff in E1 as [Ea Eb].
        apply N.leb_le in Ea. apply N.ltb_lt in Eb.
        assert (E2 : (i <=? p) && (p <? i + (size rest + 1)) = true).
        { apply andb_true_iff.
          split; [apply N.leb_le | apply N.ltb_lt]; lia. }
        rewrite E2. unfold get.
        replace (N.to_nat (p - i)) with (S (N.to_nat (p - (i + 1)))) by lia.
        reflexivity.
      * assert (E2 : (i <=? p) && (p <? i + (size rest + 1)) = false).
        { apply andb_false_iff. apply andb_false_iff in E1 as [Ea|Eb].
          - apply N.leb_gt in Ea. left. apply N.leb_gt. lia.
          - apply N.ltb_ge in Eb. right. apply N.ltb_ge. lia. }
        now rewrite E2.
Qed.

Lemma size_app {T} (a b : list T) : size (a ++ b) = size a + size b.
Proof. unfold size. rewrite length_app. lia. Qed.

Lemma get_app {T} (d : T) (a b : list T) (p : N) :
  get d (a ++ b) p = if p <? size a then get d a p else get d b (p - size a).
Proof.
  unfold get, size. destruct (p <? N.of_nat (length a)) eqn:E.
  - apply N.ltb_lt in E. apply app_nth1. lia.
  - apply N.ltb_ge in E. rewrite app_nth2 by lia. f_equal. lia.
Qed.

(** The vector [transform] hands to [transformInPlace] is the padded
    signal. *)
Lemma copy_signal_padded (signal : list D) :
  size signal <= nextPowerOf2 (size signal) ->
  nextPowerOf2 (size signal) < two64 ->
  copy_signal signal 0 (repeat czero (N.to_nat (nextPowerOf2 (size signal))))
  = padded signal.
Proof.
  intros Hle H64.
  apply (vec_ext _ _ czero).
  - rewrite size_copy_signal, size_repeat. unfold padded.
    rewrite size_app, size_map, size_repeat, !N2Nat.id. lia.
  - intros p Hp. rewrite size_copy_signal, size_repeat, N2Nat.id in Hp.
    fold (cget (copy_signal signal 0
                  (repeat czero (N.to_nat (nextPowerOf2 (size signal))))) p).
    rewrite cget_copy_signal
      by (rewrite size_repeat, N2Nat.id; lia).
    unfold padded. rewrite get_app, size_map, N.add_0_l, N.sub_0_r.
    assert (E0 : (0 <=? p) = true) by (apply N.leb_le; lia).
    rewrite E0. cbn [andb].
    destruct (p <? size signal) eqn:E.
    + apply N.ltb_lt in E. now rewrite (get_map _ _ zero).
    + apply N.ltb_ge in E. unfold cget.
      rewrite !get_repeat by lia. reflexivity.
Qed.

Lemma size_padded (signal : list D) :
  size signal <= nextPowerOf2 (size signal) ->
  size (padded signal) = nextPowerOf2 (size signal).
Proof.
  intros H. unfold padded.
  rewrite size_app, size_map, size_repeat, N2Nat.id. lia.
Qed.

End Padding.

Lemma transform_returns {D : Type} {S_ : Scalar D} (signal : list D) :
  size signal <= p2 62 ->
  transform signal = transformInPlace (padded signal) /\
  exists (b : nat) (out : ComplexVector),
    (b <= 62)%nat /\ nextPowerOf2 (size signal) = p2 b /\
    transform signal = Done out /\ size out = p2 b.
Proof.
  intros Hn.
  assert (H63 : size signal <= p2 63).
  { etransitivity; [exact Hn|]. apply p2_le. lia. }
  destruct (nextPowerOf2_spec (size signal) H63) as (b & Hb & E & Hle & Hmin).
  assert (Hb62 : (b <= 62)%nat) by (apply Hmin; exact Hn).
  assert (H64 : nextPowerOf2 (size signal) < two64).
  { rewrite E. pose proof (p2_lt_two64 b Hb). pose proof (p2_pos b). lia. }
  assert (Ht : transform signal = transformInPlace (padded signal)).
  { unfold transform. rewrite copy_signal_padded; [reflexivity | |exact H64].
    now rewrite E. }
  split; [exact Ht|].
  destruct (transformInPlace_spec b (padded signal) Hb62)
    as (out & Hout & Hs & _).
  { rewrite size_padded; [exact E | now rewrite E]. }
  exists b, out. rewrite Ht. auto.
Qed.

(** C7. Whatever its length, [transform] pads the signal with zeros to
    the next power of two before it processes it, so the rejection of
    [transformInPlace] is never reached: the call returns, and the
    output has [nextPowerOf2] of the input length, a power of two.
    (Lengths are those of a vector in memory, at most [2^62].) *)
Theorem transform_pads_and_never_rejects {D : Type} {S_ : Scalar D}
    (signal : list D) :
  size signal <= p2 62 ->
  transform signal = transformInPlace (padded signal) /\
  exists out,
    transform signal = Done out /\
    size out = nextPowerOf2 (size signal) /\
    isPowerOf2 (size out) = true.
Proof.
  intros Hn.
  destruct (transform_returns signal Hn) as (Ht & b & out & Hb & E & Hout & Hs).
  split; [exact Ht|].
  exists out. rewrite Hs, E. split; [exact Hout|].
  split; [reflexivity | apply isPowerOf2_p2; lia].
Qed.

End FFT_facts.

(* ================================================================== *)
(** * The transform over the reals *)
(* ================================================================== *)

(** The transform run on the exact scalars: the reals, with the constant
    [PI] of the source read as the number pi. *)
Module FFT_exact.
Import FFT FFT_facts.
Local Open Scope R_scope.

Definition C : Type := @Complex R.

(** ** The field of complex numbers *)

Ltac cunfold :=
  unfold cadd, csub, cmul, conj, cscale_inv, cone, czero, C, Complex in *;
  cbn [fst snd add sub mul div opp zero one exact] in *.

(** Equations of the complex ring, component by component. *)
Ltac cring :=
  intros;
  repeat match goal with z : C |- _ => destruct z end;
  repeat match goal with z : Complex |- _ => destruct z end;
  repeat match goal with z : (R * R)%type |- _ => destruct z end;
  cunfold; f_equal; ring.

Lemma cadd_comm (a b : C) : cadd a b = cadd b a.
Proof. cring. Qed.
Lemma cadd_assoc (a b c : C) : cadd a (cadd b c) = cadd (cadd a b) c.
Proof. cring. Qed.
Lemma cadd_0_l (a : C) : cadd czero a = a.
Proof. cring. Qed.
Lemma cadd_0_r (a : C) : cadd a czero = a.
Proof. cring. Qed.
Lemma cmul_comm (a b : C) : cmul a b = cmul b a.
Proof. cring. Qed.
Lemma cmul_assoc (a b c : C) : cmul a (cmul b c) = cmul (cmul a b) c.
Proof. cring. Qed.
Lemma cmul_1_l (a : C) : cmul cone a = a.
Proof. cring. Qed.
Lemma cmul_1_r (a : C) : cmul a cone = a.
Proof. cring. Qed.
Lemma cmul_0_l (a : C) : cmul czero a = czero.
Proof. cring. Qed.
Lemma cmul_0_r (a : C) : cmul a czero = czero.
Proof. cring. Qed.
Lemma cmul_add_r (a b c : C) : cmul a (cadd b c) = cadd (cmul a b) (cmul a c).
Proof. cring. Qed.
Lemma cmul_add_l (a b c : C) : cmul (cadd a b) c = cadd (cmul a c) (cmul b c).
Proof. cring. Qed.
Lemma conj_add (a b : C) : conj (cadd a b) = cadd (conj a) (conj b).
Proof. cring. Qed.
Lemma conj_mul (a b : C) : conj (cmul a b) = cmul (conj a) (conj b).
Proof. cring. Qed.
Lemma conj_conj (a : C) : conj (conj a) = a.
Proof. cring. Qed.

(** ** Finite sums *)

Fixpoint csum (n : nat) (f : nat -> C) : C :=
  match n with
  | O => czero
  | S k => cadd (csum k f) (f k)
  end.

(** The sum of [f j] over [j < n]. *)
Definition csumN (n : N) (f : N -> C) : C :=
  csum (N.to_nat n) (fun k => f (N.of_nat k)).

Lemma csumN_0 (f : N -> C) : csumN 0 f = czero.
Proof. reflexivity. Qed.

Lemma csumN_succ (n : N) (f : N -> C) :
  csumN (n + 1) f = cadd (csumN n f) (f n).
Proof.
  unfold csumN. replace (N.to_nat (n + 1)) with (S (N.to_nat n)) by lia.
  cbn [csum]. now rewrite N2Nat.id.
Qed.

(** Induction on the number of terms. *)
Lemma N_rect_plus (P : N -> Prop) :
  P 0%N -> (forall n, P n -> P (n + 1)%N) -> forall n, P n.
Proof.
  intros H0 HS n. induction n as [|n IH] using N.peano_ind; [exact H0|].
  rewrite <- N.add_1_r. now apply HS.
Qed.

Lemma csumN_ext (n : N) (f g : N -> C) :
  (forall j, (j < n)%N -> f j = g j) -> csumN n f = csumN n g.
Proof.
  revert n. induction n as [|n IH] using N_rect_plus; intros H.
  - reflexivity.
  - rewrite !csumN_succ, IH, H; [reflexivity | lia |].
    intros j Hj. apply H. lia.
Qed.

Lemma csumN_zero (n : N) : csumN n (fun _ => czero) = czero.
Proof.
  induction n as [|n IH] using N_rect_plus; [reflexivity|].
  rewrite csumN_succ, IH. apply cadd_0_l.
Qed.

Lemma csumN_add (n : N) (f g : N -> C) :
  csumN n (fun j => cadd (f j) (g j)) = cadd (csumN n f) (csumN n g).
Proof.
  induction n as [|n IH] using N_rect_plus.
  - rewrite !csumN_0. now rewrite cadd_0_l.
  - rewrite !csumN_succ, IH.
    generalize (csumN n f) (csumN n g) (f n) (g n). cring.
Qed.

Lemma csumN_mul_l (n : N) (c : C) (f : N -> C) :
  csumN n (fun j => cmul c (f j)) = cmul c (csumN n f).
Proof.
  induction n as [|n IH] using N_rect_plus.
  - rewrite !csumN_0. now rewrite cmul_0_r.
  - rewrite !csumN_succ, IH. now rewrite cmul_add_r.
Qed.

Lemma csumN_mul_r (n : N) (c : C) (f : N -> C) :
  csumN n (fun j => cmul (f j) c) = cmul (csumN n f) c.
Proof.
  rewrite (cmul_comm _ c), <- csumN_mul_l.
  apply csumN_ext. intros j _. apply cmul_comm.
Qed.

Lemma conj_csumN (n : N) (f : N -> C) :
  conj (csumN n f) = csumN n (fun j => conj (f j)).
Proof.
  induction n as [|n IH] using N_rect_plus.
  - rewrite !csumN_0. cring.
  - rewrite !csumN_succ, conj_add, IH. reflexivity.
Qed.

(** A sum of [2 m] terms, even and odd terms apart. *)
Lemma csumN_even_odd (m : N) (f : N -> C) :
  csumN (2 * m) f
  = cadd (csumN m (fun j => f (2 * j)%N))
         (csumN m (fun j => f (2 * j + 1)%N)).
Proof.
  induction m as [|m IH] using N_rect_plus.
  - rewrite !csumN_0. now rewrite cadd_0_l.
  - replace (2 * (m + 1))%N with (2 * m + 1 + 1)%N by lia.
    rewrite !csumN_succ, IH.
    generalize (csumN m (fun j => f (2 * j)%N))
               (csumN m (fun j => f (2 * j + 1)%N))
               (f (2 * m)%N) (f (2 * m + 1)%N).
    cring.
Qed.

Lemma csumN_swap (n m : N) (f : N -> N -> C) :
  csumN n (fun j => csumN m (fun k => f j k))
  = csumN m (fun k => csumN n (fun j => f j k)).
Proof.
  induction n as [|n IH] using N_rect_plus.
  - rewrite csumN_0. symmetry. apply csumN_zero.
  - rewrite csumN_succ, IH, <- csumN_add.
    apply csumN_ext. intros k _. now rewrite csumN_succ.
Qed.

(** A sum whose only non-zero term is the one at [m]. *)
Lemma csumN_single (n m : N) (f : N -> C) :
  (m < n)%N ->
  (forall j, (j < n)%N -> j <> m -> f j = czero) ->
  csumN n f = f m.
Proof.
  revert n. induction n as [|n IH] using N_rect_plus; intros Hm Hz.
  - lia.
  - rewrite csumN_succ.
    destruct (N.eq_dec m n) as [->|Hne].
    + rewrite (csumN_ext n f (fun _ => czero)).
      * rewrite csumN_zero. apply cadd_0_l.
      * intros j Hj. apply Hz; lia.
    + rewrite IH, (Hz n); [apply cadd_0_r | lia | congruence | lia |].
      intros j Hj Hjm. apply Hz; [lia | assumption].
Qed.

(** ** Roots of unity *)

(** A size as a real number. *)
Definition nR (e : N) : R := INR (N.to_nat e).

Lemma nR_0 : nR 0 = 0.
Proof. reflexivity. Qed.

Lemma nR_1 : nR 1 = 1.
Proof. reflexivity. Qed.

Lemma nR_add (a b : N) : nR (a + b) = nR a + nR b.
Proof. unfold nR. now rewrite N2Nat.inj_add, plus_INR. Qed.

Lemma nR_mul (a b : N) : nR (a * b) = nR a * nR b.
Proof. unfold nR. now rewrite N2Nat.inj_mul, mult_INR. Qed.

Lemma nR_pos (a : N) : (0 < a)%N -> 0 < nR a.
Proof. intros H. unfold nR. apply lt_0_INR. lia. Qed.

Lemma nR_lt (a b : N) : (a < b)%N -> nR a < nR b.
Proof. intros H. unfold nR. apply lt_INR. lia. Qed.

Lemma nR_2 : nR 2 = 2.
Proof. unfold nR. change (N.to_nat 2) with 2%nat. simpl. ring. Qed.

(** [root n e] is the [e]-th power of the principal [n]-th root of unity
    [(cos(-2 pi/n), sin(-2 pi/n))]. *)
Definition root (n : N) (e : R) : C :=
  (Rtrigo_def.cos (e * (-2 * Rtrigo1.PI / nR n)),
   Rtrigo_def.sin (e * (-2 * Rtrigo1.PI / nR n))).

Lemma twiddle_root (n : N) : twiddle n = root n 1.
Proof.
  unfold twiddle, root. cbn [div mul minus_two PI of_size cos sin exact].
  fold (nR n). now rewrite Rmult_1_l.
Qed.

Lemma root_add (n : N) (a b : R) :
  cmul (root n a) (root n b) = root n (a + b).
Proof.
  unfold root. cunfold.
  rewrite Rmult_plus_distr_r, cos_plus, sin_plus. f_equal; ring.
Qed.

Lemma root_0 (n : N) : root n 0 = cone.
Proof.
  unfold root. rewrite Rmult_0_l, cos_0, sin_0. reflexivity.
Qed.

Lemma conj_root (n : N) (a : R) : conj (root n a) = root n (- a).
Proof.
  unfold root. cunfold.
  replace (- a * (-2 * Rtrigo1.PI / nR n))
    with (- (a * (-2 * Rtrigo1.PI / nR n))) by ring.
  now rewrite cos_neg, sin_neg.
Qed.

Lemma cpowN_root (n : N) (a : R) (e : N) :
  cpowN (root n a) e = root n (nR e * a).
Proof.
  induction e as [|e IH] using N_rect_plus.
  - rewrite cpowN_0, nR_0, Rmult_0_l. symmetry. apply root_0.
  - rewrite cpowN_succ, IH, root_add, nR_add, nR_1. f_equal. ring.
Qed.

Lemma cos_2kPI (k : N) : Rtrigo_def.cos (2 * nR k * Rtrigo1.PI) = 1.
Proof.
  rewrite <- (Rplus_0_l (2 * nR k * Rtrigo1.PI)). unfold nR.
  rewrite cos_period. apply cos_0.
Qed.

Lemma sin_2kPI (k : N) : Rtrigo_def.sin (2 * nR k * Rtrigo1.PI) = 0.
Proof.
  rewrite <- (Rplus_0_l (2 * nR k * Rtrigo1.PI)). unfold nR.
  rewrite sin_period. apply sin_0.
Qed.

(** Whole turns. *)
Lemma root_full (n k : N) : (0 < n)%N -> root n (nR k * nR n) = cone.
Proof.
  intros Hn. pose proof (nR_pos n Hn) as Hp. unfold root.
  replace (nR k * nR n * (-2 * Rtrigo1.PI / nR n))
    with (- (2 * nR k * Rtrigo1.PI)) by (field; lra).
  rewrite cos_neg, sin_neg, cos_2kPI, sin_2kPI.
  unfold cone. cbn [one zero exact]. f_equal. ring.
Qed.

(** Half a turn. *)
Lemma root_half (h : N) : (0 < h)%N -> root (2 * h) (nR h) = (-1, 0).
Proof.
  intros Hh. pose proof (nR_pos h Hh) as Hp. unfold root.
  rewrite nR_mul, nR_2.
  replace (nR h * (-2 * Rtrigo1.PI / (2 * nR h))) with (- Rtrigo1.PI)
    by (field; lra).
  rewrite cos_neg, sin_neg, cos_PI, sin_PI. f_equal. ring.
Qed.

Lemma root_double (h : N) (a : R) :
  (0 < h)%N -> root (2 * h) (2 * a) = root h a.
Proof.
  intros Hh. pose proof (nR_pos h Hh) as Hp. unfold root.
  rewrite nR_mul, nR_2.
  replace (2 * a * (-2 * Rtrigo1.PI / (2 * nR h)))
    with (a * (-2 * Rtrigo1.PI / nR h)) by (field; lra).
  reflexivity.
Qed.

(** Strictly inside a turn the root is not 1. *)
Lemma root_not_1 (n : N) (d : R) : 0 < d < nR n -> root n d <> cone.
Proof.
  intros [Hd Hn] H. unfold root, cone in H. cbn [one zero exact] in H.
  injection H as Hc _.
  set (x := d * Rtrigo1.PI / nR n).
  assert (Hx : 0 < x < Rtrigo1.PI).
  { subst x. pose proof PI_RGT_0 as Hpi. split.
    - apply Rdiv_lt_0_compat; [|lra]. apply Rmult_lt_0_compat; lra.
    - apply (Rmult_lt_reg_r (nR n)); [lra|].
      replace (d * Rtrigo1.PI / nR n * nR n) with (d * Rtrigo1.PI)
        by (field; lra).
      rewrite (Rmult_comm Rtrigo1.PI). apply Rmult_lt_compat_r; lra. }
  replace (d * (-2 * Rtrigo1.PI / nR n)) with (- (2 * x)) in Hc
    by (subst x; field; lra).
  rewrite cos_neg, cos_2a_sin in Hc.
  pose proof (sin_gt_0 x (proj1 Hx) (proj2 Hx)) as Hs.
  assert (Rtrigo_def.sin x * Rtrigo_def.sin x > 0)
    by (apply Rmult_lt_0_compat; lra).
  lra.
Qed.

(** ** Geometric sums *)

Lemma cmul_integral (a b : C) : cmul a b = czero -> a <> czero -> b = czero.
Proof.
  destruct a as [x y], b as [u v]. cunfold. intros H Ha.
  injection H as H1 H2.
  assert (Hn : x * x + y * y <> 0).
  { intros Hc. apply Ha.
    assert (x = 0) by nra. assert (y = 0) by nra. now subst. }
  assert (Hu : (x * x + y * y) * u = 0).
  { replace ((x * x + y * y) * u)
      with (x * (x * u - y * v) + y * (x * v + y * u)) by ring.
    rewrite H1, H2. ring. }
  assert (Hv : (x * x + y * y) * v = 0).
  { replace ((x * x + y * y) * v)
      with (x * (x * v + y * u) - y * (x * u - y * v)) by ring.
    rewrite H1, H2. ring. }
  apply Rmult_integral in Hu, Hv.
  destruct Hu as [Hu|Hu]; [contradiction|].
  destruct Hv as [Hv|Hv]; [contradiction|].
  now subst.
Qed.

Lemma geometric_sum (z : C) (n : N) :
  cmul (csub z cone) (csumN n (fun k => cpowN z k)) = csub (cpowN z n) cone.
Proof.
  induction n as [|n IH] using N_rect_plus.
  - rewrite csumN_0, cpowN_0. cring.
  - rewrite csumN_succ, cmul_add_r, IH, cpowN_succ.
    generalize (cpowN z n). cring.
Qed.

Lemma geometric_sum_root (z : C) (n : N) :
  z <> cone -> cpowN z n = cone -> csumN n (fun k => cpowN z k) = czero.
Proof.
  intros Hz Hn. apply (cmul_integral (csub z cone)).
  - rewrite geometric_sum, Hn. cring.
  - intros H. apply Hz. destruct z as [x y]. cunfold.
    injection H as H1 H2. f_equal; lra.
Qed.

Lemma csumN_const (n : N) (c : C) :
  csumN n (fun _ => c) = cmul (nR n, 0) c.
Proof.
  induction n as [|n IH] using N_rect_plus.
  - rewrite csumN_0, nR_0. cring.
  - rewrite csumN_succ, IH, nR_add, nR_1. generalize (nR n). cring.
Qed.

(** The rows of the transform are orthogonal. *)
Lemma root_orthogonal (n j m : N) :
  (j < n)%N -> (m < n)%N ->
  csumN n (fun k => cmul (root n (nR (j * k))) (conj (root n (nR (k * m)))))
  = if (j =? m)%N then (nR n, 0) else czero.
Proof.
  intros Hj Hm.
  assert (Hn : (0 < n)%N) by lia.
  rewrite (csumN_ext _ _ (fun k => cpowN (root n (nR j - nR m)) k)).
  2:{ intros k _. rewrite conj_root, root_add, cpowN_root, !nR_mul.
      f_equal. ring. }
  destruct (j =? m)%N eqn:E.
  - apply N.eqb_eq in E. subst m.
    rewrite Rminus_diag, root_0.
    rewrite (csumN_ext _ _ (fun _ => cone)).
    + rewrite csumN_const. apply cmul_1_r.
    + intros k _. rewrite <- (root_0 n), cpowN_root, Rmult_0_r.
      reflexivity.
  - apply N.eqb_neq in E. apply geometric_sum_root.
    + destruct (N.lt_ge_cases m j) as [Hlt|Hge].
      * apply root_not_1. pose proof (nR_lt _ _ Hlt).
        pose proof (nR_lt _ _ Hj). pose proof (nR_pos n Hn).
        assert (0 <= nR m) by (unfold nR; apply pos_INR). lra.
      * assert (Hlt : (j < m)%N) by lia.
        intros H. apply (f_equal conj) in H.
        rewrite conj_root in H.
        replace (conj cone) with (@cone R exact) in H by cring.
        revert H. apply root_not_1. pose proof (nR_lt _ _ Hlt).
        pose proof (nR_lt _ _ Hm). pose proof (nR_pos n Hn).
        assert (0 <= nR j) by (unfold nR; apply pos_INR). lra.
    + rewrite cpowN_root.
      replace (nR n * (nR j - nR m))
        with (nR j * nR n + - (nR m * nR n)) by ring.
      rewrite <- root_add, <- conj_root, !root_full by assumption. cring.
Qed.

(** ** The discrete Fourier transform *)

Ltac nR_norm :=
  repeat first [rewrite nR_mul | rewrite nR_add];
  rewrite ?nR_2, ?nR_1.

(** Coefficient [k] of the transform of the [n] values [x]. *)
Definition dft (n : N) (x : N -> C) (k : N) : C :=
  csumN n (fun j => cmul (x j) (root n (nR (j * k)))).

(** Danielson-Lanczos: a transform of [2 h] values from the transforms
    of its even and odd halves, for the coefficients [k] and [k + h]. *)
Lemma split_low (h k : N) (f : N -> C) :
  (0 < h)%N ->
  csumN (2 * h) (fun j => cmul (f j) (root (2 * h) (nR (j * k))))
  = cadd (csumN h (fun j => cmul (f (2 * j)%N) (root h (nR (j * k)))))
         (cmul (root (2 * h) (nR k))
               (csumN h (fun j => cmul (f (2 * j + 1)%N)
                                       (root h (nR (j * k)))))).
Proof.
  intros Hh. rewrite csumN_even_odd. f_equal.
  - apply csumN_ext. intros j _. f_equal.
    rewrite <- (root_double h) by assumption. f_equal.
    nR_norm. ring.
  - rewrite <- csumN_mul_l. apply csumN_ext. intros j _.
    rewrite <- (root_double h) by assumption.
    replace (nR ((2 * j + 1) * k)) with (2 * nR (j * k) + nR k)
      by (nR_norm; ring).
    rewrite <- root_add.
    generalize (f (2 * j + 1)%N) (root (2 * h) (2 * nR (j * k)))
               (root (2 * h) (nR k)).
    cring.
Qed.

Lemma split_high (h k : N) (f : N -> C) :
  (0 < h)%N ->
  csumN (2 * h) (fun j => cmul (f j) (root (2 * h) (nR (j * (k + h)))))
  = csub (csumN h (fun j => cmul (f (2 * j)%N) (root h (nR (j * k)))))
         (cmul (root (2 * h) (nR k))
               (csumN h (fun j => cmul (f (2 * j + 1)%N)
                                       (root h (nR (j * k)))))).
Proof.
  intros Hh.
  assert (H2h : (0 < 2 * h)%N) by lia.
  assert (Eeven : forall j,
             root (2 * h) (nR (2 * j * (k + h))) = root h (nR (j * k))).
  { intros j.
    replace (nR (2 * j * (k + h))) with (2 * nR (j * k) + nR j * nR (2 * h))
      by (nR_norm; ring).
    rewrite <- root_add, root_full, root_double by assumption.
    apply cmul_1_r. }
  rewrite csumN_even_odd.
  replace (csub (csumN h (fun j => cmul (f (2 * j)%N) (root h (nR (j * k)))))
             (cmul (root (2 * h) (nR k))
                (csumN h (fun j => cmul (f (2 * j + 1)%N)
                                        (root h (nR (j * k)))))))
    with (cadd (csumN h (fun j => cmul (f (2 * j)%N) (root h (nR (j * k)))))
            (cmul (cmul (-1, 0) (root (2 * h) (nR k)))
               (csumN h (fun j => cmul (f (2 * j + 1)%N)
                                       (root h (nR (j * k)))))))
    by (generalize (csumN h (fun j => cmul (f (2 * j)%N)
                                           (root h (nR (j * k)))))
                   (root (2 * h) (nR k))
                   (csumN h (fun j => cmul (f (2 * j + 1)%N)
                                           (root h (nR (j * k)))));
        cring).
  f_equal.
  - apply csumN_ext. intros j _. f_equal. apply Eeven.
  - rewrite <- csumN_mul_l. apply csumN_ext. intros j _.
    replace (nR ((2 * j + 1) * (k + h)))
      with (nR (2 * j * (k + h)) + (nR h + nR k))
      by (nR_norm; ring).
    rewrite <- root_add, Eeven, <- root_add, root_half by assumption.
    generalize (f (2 * j + 1)%N) (root h (nR (j * k))) (root (2 * h) (nR k)).
    cring.
Qed.

Lemma rev_even (r : nat) (b : N) : rev (S r) (2 * b) = rev r b.
Proof.
  cbn [rev].
  replace ((2 * b) mod 2)%N with 0%N by elia.
  replace (2 * b / 2)%N with b by elia.
  lia.
Qed.

Lemma rev_odd (r : nat) (b : N) : rev (S r) (2 * b + 1) = (p2 r + rev r b)%N.
Proof.
  cbn [rev].
  replace ((2 * b + 1) mod 2)%N with 1%N by elia.
  replace ((2 * b + 1) / 2)%N with b by elia.
  lia.
Qed.

(** After [s] passes over the bit-reversed values, each block of [2^s]
    cells holds the transform of the [2^s] values it gathers. *)
Lemma fft_fn_blocks (B : nat) (x : N -> C) :
  forall s r : nat, (s + r = B)%nat ->
    forall b k : N, (b < p2 r)%N -> (k < p2 s)%N ->
      fft_fn s (fun q => x (rev B q)) (b * p2 s + k)
      = csumN (p2 s)
          (fun j => cmul (x (rev r b + j * p2 r)%N)
                         (root (p2 s) (nR (j * k)))).
Proof.
  induction s as [|s IH]; intros r Hr b k Hb Hk.
  - rewrite p2_0 in *. assert (k = 0%N) by lia. subst k.
    replace r with B by lia.
    cbn [fft_fn]. replace (b * 1 + 0)%N with b by lia.
    change (csumN 1) with (csumN (0 + 1)).
    rewrite csumN_succ, csumN_0, !N.mul_0_l, nR_0, root_0, N.add_0_r.
    generalize (x (rev B b)). cring.
  - cbn [fft_fn]. unfold pass_at.
    pose proof (p2_pos s) as Hs. pose proof (p2_pos r) as Hpr.
    assert (Em : ((b * p2 (S s) + k) mod (2 * p2 s) = k)%N).
    { rewrite <- p2_S, (N.mul_comm b). apply block_offset. exact Hk. }
    rewrite Em, twiddle_root, !cpowN_root, !Rmult_1_r.
    rewrite p2_S in Hk.
    assert (Hb0 : (2 * b < p2 (S r))%N) by (rewrite p2_S; lia).
    assert (Hb1 : (2 * b + 1 < p2 (S r))%N) by (rewrite p2_S; lia).
    destruct (k <? p2 s)%N eqn:E.
    + apply N.ltb_lt in E.
      replace (b * p2 (S s) + k)%N with (2 * b * p2 s + k)%N
        by (rewrite p2_S; lia).
      replace (2 * b * p2 s + k + p2 s)%N with ((2 * b + 1) * p2 s + k)%N
        by lia.
      rewrite (IH (S r) ltac:(lia) (2 * b)%N k Hb0 E).
      rewrite (IH (S r) ltac:(lia) (2 * b + 1)%N k Hb1 E).
      rewrite rev_even, rev_odd, (p2_S s), split_low by assumption.
      f_equal; [|f_equal]; apply csumN_ext; intros j _; do 2 f_equal;
        rewrite p2_S; lia.
    + apply N.ltb_ge in E.
      set (k' := (k - p2 s)%N).
      assert (Ek : k = (k' + p2 s)%N) by lia.
      clearbody k'. subst k.
      replace (b * p2 (S s) + (k' + p2 s) - p2 s)%N
        with (2 * b * p2 s + k')%N by (rewrite p2_S; lia).
      replace (b * p2 (S s) + (k' + p2 s))%N
        with ((2 * b + 1) * p2 s + k')%N by (rewrite p2_S; lia).
      rewrite (IH (S r) ltac:(lia) (2 * b)%N k' Hb0 ltac:(lia)).
      rewrite (IH (S r) ltac:(lia) (2 * b + 1)%N k' Hb1 ltac:(lia)).
      rewrite rev_even, rev_odd, (p2_S s).
      rewrite split_high by assumption.
      f_equal; [|f_equal]; apply csumN_ext; intros j _; do 2 f_equal;
        rewrite p2_S; lia.
Qed.

(** [transformInPlace] on [2^b] values returns their transform. *)
Lemma transformInPlace_dft (b : nat) (data : list C) :
  (b <= 62)%nat -> size data = p2 b ->
  exists out,
    transformInPlace data = Done out /\
    size out = p2 b /\
    forall k, (k < p2 b)%N -> cget out k = dft (p2 b) (cget data) k.
Proof.
  intros Hb Hs.
  destruct (transformInPlace_spec b data Hb Hs) as (out & Hout & Hso & Hp).
  exists out. split; [exact Hout|]. split; [exact Hso|].
  intros k Hk. rewrite (Hp k Hk).
  pose proof (fft_fn_blocks b (cget data) b 0 ltac:(lia) 0%N k) as H.
  rewrite N.mul_0_l, N.add_0_l in H.
  rewrite H by (rewrite ?p2_0; lia || assumption).
  unfold dft. apply csumN_ext. intros j _.
  cbn [rev]. rewrite p2_0, N.mul_1_r, N.add_0_l. reflexivity.
Qed.

(** ** Inversion *)

(** Conjugate, transform, conjugate, divide by [n]: the inverse of the
    transform. *)
Lemma dft_inversion (n m : N) (x : N -> C) :
  (m < n)%N ->
  cscale_inv (conj (dft n (fun k => conj (dft n x k)) m)) (nR n) = x m.
Proof.
  intros Hm. assert (Hn : (0 < n)%N) by lia.
  pose proof (nR_pos n Hn) as Hp.
  assert (E : conj (dft n (fun k => conj (dft n x k)) m)
              = cmul (x m) (nR n, 0)).
  { unfold dft. rewrite conj_csumN.
    rewrite (csumN_ext _ _
               (fun k => csumN n (fun j =>
                  cmul (x j) (cmul (root n (nR (j * k)))
                                   (conj (root n (nR (k * m)))))))).
    2:{ intros k _. rewrite conj_mul, conj_conj, <- csumN_mul_r.
        apply csumN_ext. intros j _. now rewrite cmul_assoc. }
    rewrite csumN_swap.
    rewrite (csumN_ext _ _
               (fun j => cmul (x j)
                              (if (j =? m)%N then (nR n, 0) else czero))).
    2:{ intros j Hj. rewrite csumN_mul_l. f_equal.
        now apply root_orthogonal. }
    rewrite (csumN_single n m) by
      (try assumption; intros j _ Hne;
       apply N.eqb_neq in Hne; rewrite Hne; apply cmul_0_r).
    now rewrite N.eqb_refl. }
  rewrite E. destruct (x m) as [a c]. cunfold. f_equal; field; lra.
Qed.

(** [inverse] undoes [transformInPlace] on [2^b] values. *)
Lemma inverse_transformInPlace (b : nat) (data X : list C) :
  (b <= 62)%nat -> size data = p2 b ->
  transformInPlace data = Done X ->
  inverse X = Done data.
Proof.
  intros Hb Hs HX.
  destruct (transformInPlace_dft b data Hb Hs) as (X' & HX' & HsX & HpX).
  rewrite HX in HX'. injection HX' as <-.
  unfold inverse.
  destruct (transformInPlace_dft b (map conj X) Hb) as (Y & HY & HsY & HpY).
  { now rewrite size_map. }
  rewrite HY. f_equal.
  apply (vec_ext _ _ czero).
  - rewrite size_map. etransitivity; [exact HsY | symmetry; exact Hs].
  - intros m Hm. rewrite size_map, HsY in Hm.
    rewrite (get_map _ _ czero) by (rewrite HsY; exact Hm).
    fold (cget Y m). fold (cget data m). rewrite (HpY m Hm).
    cbn [of_size exact]. fold (nR (size X)). rewrite HsX.
    rewrite <- (dft_inversion (p2 b) m (cget data) Hm).
    do 2 f_equal. unfold dft at 1 3. apply csumN_ext. intros k Hk.
    f_equal. unfold cget at 1.
    rewrite (get_map _ _ czero) by (rewrite HsX; exact Hk).
    fold (cget X k). now rewrite HpX.
Qed.

(** The real signal as the vector [transform] works on. *)
Definition complex_of (x : list R) : list C := map (fun r => (r, 0)) x.

Lemma padded_power_of_two (x : list R) (b : nat) :
  (b <= 62)%nat -> size x = p2 b -> padded x = complex_of x.
Proof.
  intros Hb Hs. unfold padded. rewrite Hs, nextPowerOf2_p2 by lia.
  rewrite N.sub_diag. cbn [N.to_nat repeat]. apply app_nil_r.
Qed.

(** C1, as the code has it.  In exact arithmetic ([double] read as the
    reals, [PI] as pi), for a real signal [x] whose length is a power of
    two, [transform x] returns a spectrum and [inverse] of that spectrum
    is [x] again, sample for sample (each sample with imaginary part 0).
    [inverse] is conjugate, forward transform, conjugate, scale by
    [1/N].  On binary64 the round trip keeps no relative error per
    sample: a sample far smaller than its neighbour is lost. *)
Theorem inverse_transform_is_identity (x : list R) (b : nat) :
  (b <= 62)%nat -> size x = p2 b ->
  exists X : list C,
    transform x = Done X /\ inverse X = Done (complex_of x).
Proof.
  intros Hb Hs.
  assert (Hle : (size x <= p2 62)%N) by (rewrite Hs; now apply p2_le).
  destruct (transform_returns x Hle) as (Ht & _ & X & _ & _ & HX & _).
  exists X. split; [exact HX|].
  rewrite Ht, (padded_power_of_two x b Hb Hs) in HX.
  apply (inverse_transformInPlace b); [exact Hb | | exact HX].
  unfold complex_of. now rewrite size_map.
Qed.

End FFT_exact.

(* ================================================================== *)
(** * Running the transform on concrete inputs *)
(* ================================================================== *)

Module FFT_examples.
Import FFT FFT_facts FFT_exact.
Local Open Scope N_scope.

Example nextPowerOf2_values :
  map nextPowerOf2 [0; 1; 2; 3; 4; 5; 8; 9; 4096; 4097]
  = [1; 1; 2; 4; 4; 8; 8; 16; 4096; 8192].
Proof. reflexivity. Qed.

(** Past [2^63] the increment wraps: the result is 0. *)
Example nextPowerOf2_wraps : nextPowerOf2 (p2 63 + 1) = 0.
Proof. reflexivity. Qed.

Example isPowerOf2_values :
  map isPowerOf2 [0; 1; 2; 3; 4; 6; 64; 4096] =
  [false; true; true; false; true; false; true; true].
Proof. reflexivity. Qed.

Example rev_3_bits : map (rev 3) [0; 1; 2; 3; 4; 5; 6; 7]
                     = [0; 4; 2; 6; 1; 5; 3; 7].
Proof. reflexivity. Qed.

(** Eight cells: the permutation exchanges 1 with 4 and 3 with 6. *)
Example bitReversePermute_8 (c0 c1 c2 c3 c4 c5 c6 c7 : C) :
  bitReversePermute [c0; c1; c2; c3; c4; c5; c6; c7]
  = Done [c0; c4; c2; c6; c1; c5; c3; c7].
Proof. reflexivity. Qed.

(** Three cells are rejected by [transformInPlace], and padded to four
    by [transform]. *)
Example transformInPlace_rejects_3 (c0 c1 c2 : C) :
  transformInPlace [c0; c1; c2] = InvalidArgument.
Proof. reflexivity. Qed.

Example padded_3 (a b c : R) :
  padded [a; b; c] = [(a, 0%R); (b, 0%R); (c, 0%R); (0%R, 0%R)].
Proof. reflexivity. Qed.

Lemma transform_pads_and_never_rejects_witness :
  size [1%R; 2%R; 3%R] <= p2 62 /\
  transform [1%R; 2%R; 3%R] = transformInPlace (padded [1%R; 2%R; 3%R]).
Proof.
  assert (H : size [1%R; 2%R; 3%R] <= p2 62)
    by (vm_compute; discriminate).
  split; [exact H|].
  exact (proj1 (transform_pads_and_never_rejects [1%R; 2%R; 3%R] H)).
Defined.

Lemma inverse_transform_is_identity_witness :
  (2 <= 62)%nat /\ size [1%R; 2%R; 3%R; 4%R] = p2 2 /\
  exists X : list C,
    transform [1%R; 2%R; 3%R; 4%R] = Done X /\
    inverse X = Done (complex_of [1%R; 2%R; 3%R; 4%R]).
Proof.
  assert (H1 : (2 <= 62)%nat) by lia.
  assert (H2 : size [1%R; 2%R; 3%R; 4%R] = p2 2) by reflexivity.
  split; [exact H1|]. split; [exact H2|].
  exact (inverse_transform_is_identity [1%R; 2%R; 3%R; 4%R] 2 H1 H2).
Defined.

End FFT_examples.

(* ================================================================== *)
(** * More on the transform engine: sizes, rejection, permutation *)
(* ================================================================== *)

Module FFT_sizes.
Import FFT FFT_facts.
Local Open Scope N_scope.

Lemma p2_two64_bound (b : nat) : p2 b < two64 -> (b <= 63)%nat.
Proof.
  intros H. destruct (Nat.le_gt_cases b 63) as [Hle|Hgt]; [exact Hle|].
  exfalso. pose proof (p2_le 64 b ltac:(lia)) as Hp.
  rewrite p2_64 in Hp. lia.
Qed.

Lemma isPowerOf2_is_power (n : N) :
  n < two64 -> isPowerOf2 n = true ->
  exists b : nat, (b <= 63)%nat /\ n = p2 b.
Proof.
  intros H64. unfold isPowerOf2. intros H.
  apply andb_true_iff in H as [Hpos Hland].
  apply N.ltb_lt in Hpos. apply N.eqb_eq in Hland.
  rewrite wsub_small in Hland by lia.
  pose proof (N.log2_spec n Hpos) as [Hlo Hhi].
  exists (N.to_nat (N.log2 n)).
  assert (Hp : p2 (N.to_nat (N.log2 n)) = 2 ^ N.log2 n)
    by (unfold p2; now rewrite N2Nat.id).
  rewrite Hp.
  destruct (N.eq_dec n (2 ^ N.log2 n)) as [E|E].
  - split; [|exact E]. apply p2_two64_bound. rewrite Hp, <- E. exact H64.
  - exfalso.
    assert (Hl : N.log2 (n - 1) = N.log2 n).
    { apply N.log2_unique; [apply N.le_0_l|].
      split; [lia|]. lia. }
    assert (Hb : N.testbit (N.land n (n - 1)) (N.log2 n) = true).
    { rewrite N.land_spec, N.bit_log2 by lia.
      rewrite <- Hl. rewrite N.bit_log2; [reflexivity|].
      pose proof (N.pow_nonzero 2 (N.log2 n) ltac:(discriminate)). lia. }
    rewrite Hland in Hb. rewrite N.bits_0 in Hb. discriminate.
Qed.

(** X1. [isPowerOf2] holds of the powers of two and of nothing else. *)
Theorem isPowerOf2_exactly_powers (n : N) :
  n < two64 ->
  (isPowerOf2 n = true <-> exists b : nat, (b <= 63)%nat /\ n = p2 b).
Proof.
  intros H64. split.
  - now apply isPowerOf2_is_power.
  - intros (b & Hb & ->). now apply isPowerOf2_p2.
Qed.

Lemma isPowerOf2_exactly_powers_witness :
  64 < two64 /\
  (isPowerOf2 64 = true <-> exists b : nat, (b <= 63)%nat /\ 64 = p2 b).
Proof.
  assert (H : 64 < two64) by reflexivity.
  split; [exact H | exact (isPowerOf2_exactly_powers 64 H)].
Defined.

Lemma nextPowerOf2_least (n : N) :
  n <= p2 63 ->
  isPowerOf2 (nextPowerOf2 n) = true /\
  n <= nextPowerOf2 n /\
  (forall b : nat, n <= p2 b -> nextPowerOf2 n <= p2 b) /\
  (0 < n -> nextPowerOf2 n < 2 * n) /\
  nextPowerOf2 (nextPowerOf2 n) = nextPowerOf2 n.
Proof.
  intros Hn.
  destruct (nextPowerOf2_spec n Hn) as (b & Hb & E & Hle & Hmin).
  rewrite E.
  split; [now apply isPowerOf2_p2|].
  split; [exact Hle|].
  split; [intros c Hc; apply p2_le; now apply Hmin|].
  split; [|now apply nextPowerOf2_p2].
  intros Hpos. destruct b as [|b]; [rewrite p2_0; lia|].
  rewrite p2_S.
  destruct (N.le_gt_cases n (p2 b)) as [Hc|Hc]; [|lia].
  specialize (Hmin b Hc). lia.
Qed.

Lemma nextPowerOf2_beyond (n : N) :
  p2 63 < n -> n < two64 -> nextPowerOf2 n = 0.
Proof.
  intros Hlo Hhi. unfold nextPowerOf2.
  assert (H63 : p2 63 = 9223372036854775808) by reflexivity.
  assert (E0 : (n =? 0) = false) by (apply N.eqb_neq; lia).
  rewrite E0, wsub_small by lia.
  pose proof (smear_ones (n - 1) ltac:(lia) ltac:(lia)) as S.
  cbv zeta in S. rewrite S. clear S.
  assert (Hl : N.log2 (n - 1) = 63).
  { apply N.log2_unique; [apply N.le_0_l|].
    change (2 ^ 63) with 9223372036854775808.
    change (2 ^ N.succ 63) with 18446744073709551616.
    unfold two64 in Hhi. lia. }
  rewrite Hl. reflexivity.
Qed.

(** X2. Up to [2^63], [nextPowerOf2 n] is the least power of two that is
    not below [n]: it is a power of two, at least [n], below [2 n] when
    [n] is not zero, and a second application changes nothing.  Past
    [2^63] there is no power of two left in 64 bits: the final increment
    wraps and [nextPowerOf2] returns 0. *)
Theorem nextPowerOf2_least_power (n : N) :
  n < two64 ->
  (n <= p2 63 ->
   isPowerOf2 (nextPowerOf2 n) = true /\
   n <= nextPowerOf2 n /\
   (forall b : nat, n <= p2 b -> nextPowerOf2 n <= p2 b) /\
   (0 < n -> nextPowerOf2 n < 2 * n) /\
   nextPowerOf2 (nextPowerOf2 n) = nextPowerOf2 n) /\
  (p2 63 < n -> nextPowerOf2 n = 0).
Proof.
  intros H64. split.
  - apply nextPowerOf2_least.
  - intros H. now apply nextPowerOf2_beyond.
Qed.

Lemma nextPowerOf2_least_power_witness :
  1000 < two64 /\ 1000 <= p2 63 /\ nextPowerOf2 1000 = 1024 /\
  isPowerOf2 (nextPowerOf2 1000) = true /\
  p2 63 < p2 63 + 5 /\ p2 63 + 5 < two64 /\ nextPowerOf2 (p2 63 + 5) = 0.
Proof.
  assert (H0 : 1000 < two64) by reflexivity.
  assert (H1 : 1000 <= p2 63) by (vm_compute; discriminate).
  assert (H2 : p2 63 < p2 63 + 5) by reflexivity.
  assert (H3 : p2 63 + 5 < two64) by reflexivity.
  split; [exact H0|]. split; [exact H1|]. split; [reflexivity|].
  split; [exact (proj1 (proj1 (nextPowerOf2_least_power 1000 H0) H1))|].
  split; [exact H2|]. split; [exact H3|].
  exact (proj2 (nextPowerOf2_least_power (p2 63 + 5) H3) H2).
Defined.

Section Generic.
Context {D : Type} {S_ : Scalar D}.

(** X3. On [2^b] cells [bitReversePermute] returns, cell [p] of the result
    is cell [rev b p] of the argument, and permuting the result again gives
    the argument back. *)
Theorem bitReversePermute_involution (b : nat) (data : ComplexVector) :
  (b <= 63)%nat -> size data = p2 b ->
  exists out,
    bitReversePermute data = Done out /\
    size out = size data /\
    (forall p, p < p2 b -> cget out p = cget data (rev b p)) /\
    bitReversePermute out = Done data.
Proof.
  intros Hb Hs. destruct b as [|b].
  - exists data. unfold bitReversePermute. rewrite Hs, p2_0.
    change (N.to_nat (wsub 1 1)) with O. cbn [bitrev_for].
    split; [reflexivity|]. split; [reflexivity|].
    split; [|reflexivity].
    intros p Hp. replace p with 0 by lia. reflexivity.
  - destruct (bitReversePermute_spec (S b) data ltac:(lia) Hs)
      as (out & Hout & Hso & Hp).
    destruct (bitReversePermute_spec (S b) out ltac:(lia) Hso)
      as (back & Hback & Hsb & Hpb).
    exists out. split; [exact Hout|]. split; [congruence|].
    split; [exact Hp|].
    rewrite Hback. f_equal. apply (vec_ext _ _ czero); [congruence|].
    intros p Hlt. rewrite Hsb in Hlt.
    fold (cget back p). fold (cget data p).
    rewrite Hpb by assumption.
    rewrite Hp by apply rev_lt.
    now rewrite rev_involutive.
Qed.

(** X4. [transformInPlace] returns on every vector of [2^b] cells, with as
    many cells, and rejects every other vector, the empty one included;
    [inverse] rejects the same vectors.  (Sizes are those of a vector in
    memory, at most [2^62].) *)
Theorem transformInPlace_rejects_other_sizes (data : ComplexVector) :
  size data <= p2 62 ->
  ((exists b : nat, size data = p2 b) ->
   exists out, transformInPlace data = Done out /\ size out = size data) /\
  ((forall b : nat, size data <> p2 b) ->
   transformInPlace data = InvalidArgument /\
   inverse data = InvalidArgument).
Proof.
  intros Hn. split.
  - intros (b & Hs).
    assert (Hb : (b <= 62)%nat) by (apply p2_inj_le; now rewrite <- Hs).
    destruct (transformInPlace_spec b data Hb Hs) as (out & Hout & Hso & _).
    exists out. split; [exact Hout | congruence].
  - intros Hnp.
    assert (H64 : size data < two64).
    { pose proof (p2_lt_two64 62 ltac:(lia)). pose proof (p2_pos 62). lia. }
    assert (E : isPowerOf2 (size data) = false).
    { destruct (isPowerOf2 (size data)) eqn:E; [|reflexivity].
      apply isPowerOf2_is_power in E; [|exact H64].
      destruct E as (b & _ & E). now apply Hnp in E. }
    unfold inverse, transformInPlace. rewrite size_map, E. auto.
Qed.

End Generic.

Lemma bitReversePermute_involution_witness :
  (2 <= 63)%nat /\
  size [(1, 0); (2, 0); (3, 0); (4, 0)]%R = p2 2 /\
  exists out,
    bitReversePermute [(1, 0); (2, 0); (3, 0); (4, 0)]%R = Done out /\
    bitReversePermute out = Done [(1, 0); (2, 0); (3, 0); (4, 0)]%R.
Proof.
  assert (H1 : (2 <= 63)%nat) by lia.
  assert (H2 : size [(1, 0); (2, 0); (3, 0); (4, 0)]%R = p2 2)
    by reflexivity.
  split; [exact H1|]. split; [exact H2|].
  destruct (bitReversePermute_involution 2
              [(1, 0); (2, 0); (3, 0); (4, 0)]%R H1 H2)
    as (out & Ha & _ & _ & Hb).
  exists out. split; [exact Ha | exact Hb].
Defined.

Lemma transformInPlace_rejects_other_sizes_witness :
  size [(1, 0); (2, 0); (3, 0)]%R <= p2 62 /\
  transformInPlace [(1, 0); (2, 0); (3, 0)]%R = InvalidArgument /\
  transformInPlace (@nil (R * R)) = InvalidArgument.
Proof.
  assert (H : size [(1, 0); (2, 0); (3, 0)]%R <= p2 62)
    by (vm_compute; discriminate).
  split; [exact H|]. split; [|reflexivity].
  apply (transformInPlace_rejects_other_sizes [(1, 0); (2, 0); (3, 0)]%R H).
  intros b Hb. change (3 = p2 b) in Hb.
  destruct b as [|[|b]]; [discriminate | discriminate|].
  rewrite !p2_S in Hb. pose proof (p2_pos b). lia.
Defined.

End FFT_sizes.

(* ================================================================== *)
(** * The spectrum [transform] computes, in exact arithmetic *)
(* ================================================================== *)

Module FFT_spectrum.
Import FFT FFT_facts FFT_exact.
Local Open Scope R_scope.

(** [std::abs] of a complex number. *)
Definition cabs (c : C) : R := sqrt (fst c * fst c + snd c * snd c).

(** [magnitude]: the absolute value of every cell. *)
Definition magnitude (spectrum : list C) : list R := map cabs spectrum.

Lemma csumN_zero_tail (n m : N) (f : N -> C) :
  (n <= m)%N ->
  (forall j, (n <= j)%N -> (j < m)%N -> f j = czero) ->
  csumN m f = csumN n f.
Proof.
  induction m as [|m IH] using N_rect_plus; intros Hle Hz.
  - now replace n with 0%N by lia.
  - destruct (N.eq_dec n (m + 1)) as [->|Hne]; [reflexivity|].
    rewrite csumN_succ, IH, Hz, cadd_0_r by (try intros; (lia || apply Hz; lia)).
    reflexivity.
Qed.

Lemma cget_padded (x : list R) (j : N) :
  cget (padded x) j = (get 0 x j, 0).
Proof.
  unfold padded, cget. rewrite get_app, size_map.
  destruct (j <? size x)%N eqn:E.
  - apply N.ltb_lt in E. now rewrite (get_map _ _ 0) by exact E.
  - apply N.ltb_ge in E.
    assert (Hx : get 0 x j = 0).
    { unfold get. apply nth_overflow. unfold size in E. lia. }
    rewrite Hx. unfold get.
    destruct (Nat.lt_ge_cases (N.to_nat (j - size x))
                (N.to_nat (nextPowerOf2 (size x) - size x))) as [Hl|Hg].
    + now rewrite nth_repeat_lt.
    + rewrite nth_overflow; [reflexivity|]. now rewrite repeat_length.
Qed.

(** The bins of [transform x]: sums over the samples of [x] alone. *)
Lemma transform_bins (x : list R) :
  (size x <= p2 62)%N ->
  exists (b : nat) (X : list C),
    (b <= 62)%nat /\ nextPowerOf2 (size x) = p2 b /\
    (size x <= p2 b)%N /\
    transform x = Done X /\ size X = p2 b /\
    forall k, (k < p2 b)%N ->
      cget X k
      = csumN (size x)
          (fun j => cmul (get 0 x j, 0) (root (p2 b) (nR (j * k)))).
Proof.
  intros Hn.
  destruct (transform_returns x Hn) as (Ht & b & X & Hb & E & HX & HsX).
  assert (H63 : (size x <= p2 63)%N).
  { etransitivity; [exact Hn|]. apply p2_le. lia. }
  destruct (nextPowerOf2_spec (size x) H63) as (b' & _ & E' & Hle & _).
  rewrite E in E'. rewrite <- E' in Hle.
  exists b, X. split; [exact Hb|]. split; [exact E|].
  split; [exact Hle|]. split; [exact HX|]. split; [exact HsX|].
  intros k Hk.
  destruct (transformInPlace_dft b (padded x) Hb) as (X' & HX' & _ & Hp).
  { etransitivity; [apply size_padded; now rewrite E | exact E]. }
  rewrite Ht, HX' in HX. injection HX as ->.
  rewrite (Hp k Hk). unfold dft.
  rewrite (csumN_zero_tail (size x) (p2 b)); [| exact Hle |].
  - apply csumN_ext. intros j _. now rewrite cget_padded.
  - intros j Hj _. rewrite cget_padded.
    assert (Hx : get 0 x j = 0).
    { unfold get. apply nth_overflow. unfold size in Hj. lia. }
    rewrite Hx. apply cmul_0_l.
Qed.

Lemma nR_sub (a b : N) : (b <= a)%N -> nR (a - b) = nR a - nR b.
Proof.
  intros H. unfold nR. rewrite N2Nat.inj_sub, minus_INR; [reflexivity | lia].
Qed.

Lemma root_mirror (n j k : N) :
  (0 < n)%N -> (k <= n)%N ->
  root n (nR (j * (n - k))) = conj (root n (nR (j * k))).
Proof.
  intros Hn Hk. rewrite conj_root, !nR_mul, nR_sub by exact Hk.
  replace (nR j * (nR n - nR k)) with (nR j * nR n + - (nR j * nR k)) by ring.
  now rewrite <- root_add, root_full, cmul_1_l.
Qed.

Lemma cabs_conj (c : C) : cabs (conj c) = cabs c.
Proof.
  destruct c as [a b]. unfold cabs. cunfold. f_equal. ring.
Qed.

Lemma cabs_scaled_root (a : R) (n : N) (e : R) :
  cabs (cmul (a, 0) (root n e)) = Rabs a.
Proof.
  unfold cabs, root. cunfold.
  set (t := e * (-2 * Rtrigo1.PI / nR n)).
  pose proof (sin2_cos2 t) as H. unfold Rsqr in H.
  replace ((a * Rtrigo_def.cos t - 0 * Rtrigo_def.sin t)
           * (a * Rtrigo_def.cos t - 0 * Rtrigo_def.sin t)
           + (a * Rtrigo_def.sin t + 0 * Rtrigo_def.cos t)
             * (a * Rtrigo_def.sin t + 0 * Rtrigo_def.cos t))
    with (a * a * (Rtrigo_def.sin t * Rtrigo_def.sin t
                   + Rtrigo_def.cos t * Rtrigo_def.cos t)) by ring.
  rewrite H, Rmult_1_r. apply sqrt_Rsqr_abs.
Qed.

(** X5. In exact arithmetic, for a real signal of any length (at most
    [2^62]), [transform] returns the discrete Fourier transform of the
    zero-padded signal: bin [k] of the [N] returned bins is the sum over the
    samples [x_j] of [x_j * exp (-2 pi i j k / N)], [N] being [nextPowerOf2]
    of the length. *)
Theorem transform_is_dft (x : list R) :
  (size x <= p2 62)%N ->
  exists X : list C,
    transform x = Done X /\
    size X = nextPowerOf2 (size x) /\
    forall k, (k < size X)%N ->
      cget X k
      = csumN (size x)
          (fun j => cmul (get 0 x j, 0) (root (size X) (nR (j * k)))).
Proof.
  intros Hn.
  destruct (transform_bins x Hn) as (b & X & _ & E & _ & HX & HsX & Hp).
  exists X. split; [exact HX|]. split; [congruence|].
  rewrite HsX. exact Hp.
Qed.

(** X6. In exact arithmetic, the spectrum of a real signal is
    conjugate-symmetric: bin [N - k] is the conjugate of bin [k], so
    [magnitude] gives the same value for both and the upper half of the
    spectrum repeats the lower; bin 0 is the sum of the samples, with
    imaginary part 0. *)
Theorem real_signal_spectrum_mirrored (x : list R) :
  (size x <= p2 62)%N ->
  exists X : list C,
    transform x = Done X /\
    (forall k, (0 < k)%N -> (k < size X)%N ->
       cget X (size X - k) = conj (cget X k) /\
       get 0 (magnitude X) (size X - k) = get 0 (magnitude X) k) /\
    cget X 0 = csumN (size x) (fun j => (get 0 x j, 0)).
Proof.
  intros Hn.
  destruct (transform_bins x Hn) as (b & X & _ & E & _ & HX & HsX & Hp).
  exists X. split; [exact HX|]. rewrite HsX.
  pose proof (p2_pos b) as Hpos. split.
  - intros k Hk0 Hk.
    assert (Hc : cget X (p2 b - k) = conj (cget X k)).
    { rewrite !Hp by lia. rewrite conj_csumN. apply csumN_ext. intros j _.
      rewrite root_mirror, conj_mul by lia. f_equal.
      unfold conj. cbn [fst snd opp exact]. f_equal. ring. }
    split; [exact Hc|].
    unfold magnitude.
    rewrite (get_map cabs X czero 0 (p2 b - k)) by (rewrite HsX; lia).
    rewrite (get_map cabs X czero 0 k) by (rewrite HsX; lia).
    change (cabs (cget X (p2 b - k)) = cabs (cget X k)).
    now rewrite Hc, cabs_conj.
  - rewrite Hp by exact Hpos. apply csumN_ext. intros j _.
    rewrite N.mul_0_r, nR_0, root_0. apply cmul_1_r.
Qed.

(** X7. In exact arithmetic, a signal whose only non-zero sample is [a], at
    position [m], has the spectrum [a * exp (-2 pi i m k / N)]: [magnitude]
    gives [|a|] in every bin. *)
Theorem single_sample_flat_spectrum (x : list R) (m : N) :
  (size x <= p2 62)%N -> (m < size x)%N ->
  (forall j, (j < size x)%N -> j <> m -> get 0 x j = 0) ->
  exists X : list C,
    transform x = Done X /\
    forall k, (k < size X)%N ->
      cget X k = cmul (get 0 x m, 0) (root (size X) (nR (m * k))) /\
      get 0 (magnitude X) k = Rabs (get 0 x m).
Proof.
  intros Hn Hm Hz.
  destruct (transform_bins x Hn) as (b & X & _ & E & _ & HX & HsX & Hp).
  exists X. split; [exact HX|]. rewrite HsX. intros k Hk.
  assert (Hc : cget X k = cmul (get 0 x m, 0) (root (p2 b) (nR (m * k)))).
  { rewrite (Hp k Hk). rewrite (csumN_single (size x) m); [reflexivity | exact Hm |].
    intros j Hj Hne. rewrite (Hz j Hj Hne). apply cmul_0_l. }
  split; [exact Hc|].
  unfold magnitude. rewrite (get_map cabs X czero 0 k) by (rewrite HsX; exact Hk).
  change (cabs (cget X k) = Rabs (get 0 x m)).
  rewrite Hc. apply cabs_scaled_root.
Qed.

(** X8. In exact arithmetic [transform] is linear: the spectrum of [a * x +
    y], sample by sample, is [a] times the spectrum of [x] plus the spectrum
    of [y]. *)
Theorem transform_linear (a : R) (x y z : list R) :
  (size x <= p2 62)%N -> size y = size x -> size z = size x ->
  (forall j, (j < size x)%N -> get 0 z j = a * get 0 x j + get 0 y j) ->
  exists X Y Z : list C,
    transform x = Done X /\ transform y = Done Y /\ transform z = Done Z /\
    size X = size Z /\ size Y = size Z /\
    forall k, (k < size Z)%N ->
      cget Z k = cadd (cmul (a, 0) (cget X k)) (cget Y k).
Proof.
  intros Hn Hy Hz Hj.
  destruct (transform_bins x Hn) as (b & X & Hb & E & _ & HX & HsX & Hp).
  destruct (transform_bins y) as (by_ & Y & _ & Ey & _ & HY & HsY & Hpy);
    [now rewrite Hy|].
  destruct (transform_bins z) as (bz & Z & _ & Ez & _ & HZ & HsZ & Hpz);
    [now rewrite Hz|].
  rewrite Hy, E in Ey. rewrite Hz, E in Ez.
  rewrite <- Ey in HsY, Hpy. rewrite <- Ez in HsZ, Hpz.
  rewrite Hy in Hpy. rewrite Hz in Hpz.
  exists X, Y, Z. split; [exact HX|]. split; [exact HY|]. split; [exact HZ|].
  split; [congruence|]. split; [congruence|].
  rewrite HsZ. intros k Hk.
  rewrite (Hp k Hk), (Hpy k Hk), (Hpz k Hk).
  rewrite <- csumN_mul_l, <- csumN_add. apply csumN_ext. intros j Hlt.
  rewrite (Hj j Hlt).
  generalize (get 0 x j) (get 0 y j) (root (p2 b) (nR (j * k))).
  intros u v w. destruct w as [c s]. cunfold. f_equal; ring.
Qed.

(** The other order of inversion: the transform of [inverse] is the
    identity. *)
Lemma dft_of_inverse (n k : N) (x : N -> C) :
  (k < n)%N ->
  dft n (fun m => cscale_inv (conj (dft n (fun j => conj (x j)) m)) (nR n)) k
  = x k.
Proof.
  intros Hk. assert (Hn : (0 < n)%N) by lia.
  pose proof (nR_pos n Hn) as Hp.
  unfold dft.
  rewrite (csumN_ext _ _
             (fun m => csumN n (fun j =>
                cmul (cmul (x j) (/ nR n, 0))
                     (cmul (root n (nR (k * m)))
                           (conj (root n (nR (m * j)))))))).
  2:{ intros m _. rewrite conj_csumN.
      transitivity
        (cmul (csumN n (fun j => conj (cmul (conj (x j))
                                            (root n (nR (j * m))))))
              (cmul (/ nR n, 0) (root n (nR (m * k))))).
      { generalize (csumN n (fun j => conj (cmul (conj (x j))
                                                 (root n (nR (j * m))))))
                   (root n (nR (m * k))).
        intros [u v] [c s]. cunfold. f_equal; field; lra. }
      rewrite <- csumN_mul_r. apply csumN_ext. intros j _.
      rewrite conj_mul, conj_conj, (N.mul_comm j m), (N.mul_comm m k).
      generalize (conj (root n (nR (m * j)))) (x j) (root n (nR (k * m))).
      intros [c s] [u v] [c' s']. cunfold. f_equal; ring. }
  rewrite csumN_swap.
  rewrite (csumN_ext _ _
             (fun j => cmul (cmul (x j) (/ nR n, 0))
                            (if (k =? j)%N then (nR n, 0) else czero))).
  2:{ intros j Hj. rewrite csumN_mul_l. f_equal.
      now apply root_orthogonal. }
  rewrite (csumN_single n k); [| exact Hk |].
  - rewrite N.eqb_refl. destruct (x k) as [u v]. cunfold. f_equal; field; lra.
  - intros j _ Hne. assert (E : (k =? j)%N = false) by (apply N.eqb_neq; congruence).
    rewrite E. apply cmul_0_r.
Qed.

(** X9. In exact arithmetic, on [2^b] complex values [inverse] and
    [transformInPlace] undo each other, in both orders. *)
Theorem inverse_and_transformInPlace_undo_each_other
    (b : nat) (data : list C) :
  (b <= 62)%nat -> size data = p2 b ->
  (exists X, transformInPlace data = Done X /\ inverse X = Done data) /\
  (exists Y, inverse data = Done Y /\ transformInPlace Y = Done data).
Proof.
  intros Hb Hs. split.
  - destruct (transformInPlace_dft b data Hb Hs) as (X & HX & _ & _).
    exists X. split; [exact HX|].
    now apply (inverse_transformInPlace b data X).
  - unfold inverse. cbv zeta.
    destruct (transformInPlace_dft b (map conj data) Hb) as (W & HW & HsW & HpW).
    { now rewrite size_map. }
    rewrite HW.
    set (Y := map (fun c => cscale_inv (conj c) (of_size (size data))) W).
    exists Y. split; [reflexivity|].
    assert (HsY : size Y = p2 b) by (unfold Y; now rewrite size_map).
    destruct (transformInPlace_dft b Y Hb HsY) as (Z & HZ & HsZ & HpZ).
    rewrite HZ. f_equal. apply (vec_ext _ _ czero).
    + etransitivity; [exact HsZ | symmetry; exact Hs].
    + intros k Hk. rewrite HsZ in Hk.
      change (cget Z k = cget data k). rewrite (HpZ k Hk).
      rewrite <- (dft_of_inverse (p2 b) k (cget data) Hk).
      unfold dft at 1 2. apply csumN_ext. intros m Hm. f_equal.
      unfold Y, cget at 1.
      rewrite (get_map _ W czero czero m) by (rewrite HsW; exact Hm).
      change (get czero W m) with (cget W m). rewrite (HpW m Hm).
      cbn [of_size exact].
      replace (INR (N.to_nat (size data))) with (nR (p2 b))
        by (unfold nR; do 2 f_equal; symmetry; exact Hs).
      do 2 f_equal. unfold dft. apply csumN_ext. intros j Hj. f_equal.
      assert (Hlt : (j < size data)%N) by (rewrite Hs; exact Hj).
      unfold cget at 1.
      now rewrite (get_map conj data czero czero j) by exact Hlt.
Qed.

(** ** Energy *)

(** The energy of a real signal: the sum of the squares of its samples. *)
Definition energy (x : list R) : R := fold_right (fun a s => a * a + s) 0 x.

Lemma energy_app (x : list R) (a : R) : energy (x ++ [a]) = energy x + a * a.
Proof.
  induction x as [|h x IH]; [unfold energy; cbn [app fold_right]; ring|].
  change (energy ((h :: x) ++ [a])) with (h * h + energy (x ++ [a])).
  rewrite IH. change (energy (h :: x)) with (h * h + energy x). ring.
Qed.

Lemma energy_csumN (x : list R) :
  (energy x, 0) = csumN (size x) (fun j => (get 0 x j * get 0 x j, 0)).
Proof.
  induction x as [|a x IH] using rev_ind; [reflexivity|].
  rewrite energy_app, size_app.
  change (size [a]) with 1%N. rewrite csumN_succ.
  rewrite (csumN_ext _ _ (fun j => (get 0 x j * get 0 x j, 0))).
  2:{ intros j Hj. rewrite get_app.
      apply N.ltb_lt in Hj. now rewrite Hj. }
  rewrite <- IH, get_app, N.ltb_irrefl, N.sub_diag.
  cbn [get N.to_nat nth]. cunfold. f_equal; ring.
Qed.

Lemma cabs_square (c : C) : (cabs c * cabs c, 0) = cmul c (conj c).
Proof.
  destruct c as [a b]. unfold cabs. cbn [fst snd].
  rewrite sqrt_sqrt by nra. cunfold. f_equal; ring.
Qed.

Lemma csumN_product (n : N) (f g : N -> C) :
  cmul (csumN n f) (csumN n g)
  = csumN n (fun j => csumN n (fun m => cmul (f j) (g m))).
Proof.
  rewrite <- csumN_mul_r. apply csumN_ext. intros j _.
  now rewrite csumN_mul_l.
Qed.

(** Parseval's identity for the sum [dft]. *)
Lemma dft_energy (n : N) (x : N -> C) :
  csumN n (fun k => cmul (dft n x k) (conj (dft n x k)))
  = cmul (nR n, 0) (csumN n (fun j => cmul (x j) (conj (x j)))).
Proof.
  unfold dft.
  rewrite (csumN_ext _ _
             (fun k => csumN n (fun j => csumN n (fun m =>
                cmul (cmul (x j) (conj (x m)))
                     (cmul (root n (nR (j * k)))
                           (conj (root n (nR (k * m))))))))).
  2:{ intros k _. rewrite conj_csumN, csumN_product.
      apply csumN_ext. intros j _. apply csumN_ext. intros m _.
      rewrite conj_mul, (N.mul_comm m k).
      generalize (x j) (x m) (root n (nR (j * k))) (root n (nR (k * m))).
      intros [a b] [c d] [e f] [g h]. cunfold. f_equal; ring. }
  rewrite csumN_swap.
  rewrite <- csumN_mul_l. apply csumN_ext. intros j Hj.
  rewrite csumN_swap.
  rewrite (csumN_ext _ _
             (fun m => cmul (cmul (x j) (conj (x m)))
                            (if (j =? m)%N then (nR n, 0) else czero))).
  2:{ intros m Hm. rewrite csumN_mul_l. f_equal.
      now apply root_orthogonal. }
  rewrite (csumN_single n j); [| exact Hj |].
  - rewrite N.eqb_refl. generalize (x j). intros [a b].
    cunfold. f_equal; ring.
  - intros m _ Hne.
    assert (E : (j =? m)%N = false) by (apply N.eqb_neq; congruence).
    rewrite E. apply cmul_0_r.
Qed.

(** X10. In exact arithmetic, Parseval's identity: the squared magnitudes
    [magnitude] gives for the [N] bins of [transform x] add up to [N]
    times the energy of [x], the sum of its squared samples. *)
Theorem transform_conserves_energy (x : list R) :
  (size x <= p2 62)%N ->
  exists X : list C,
    transform x = Done X /\
    energy (magnitude X) = nR (size X) * energy x.
Proof.
  intros Hn.
  destruct (transform_returns x Hn) as (Ht & b & X & Hb & E & HX & HsX).
  assert (H63 : (size x <= p2 63)%N).
  { etransitivity; [exact Hn|]. apply p2_le. lia. }
  destruct (nextPowerOf2_spec (size x) H63) as (b' & _ & E' & Hle & _).
  rewrite E in E'. rewrite <- E' in Hle.
  exists X. split; [exact HX|].
  destruct (transformInPlace_dft b (padded x) Hb) as (X' & HX' & _ & Hp).
  { etransitivity; [apply size_padded; now rewrite E | exact E]. }
  rewrite Ht, HX' in HX. injection HX as ->.
  assert (G : (energy (magnitude X), 0) = (nR (size X) * energy x, 0));
    [|now injection G].
  rewrite energy_csumN. unfold magnitude. rewrite size_map.
  rewrite (csumN_ext _ _
             (fun k => cmul (dft (p2 b) (cget (padded x)) k)
                            (conj (dft (p2 b) (cget (padded x)) k)))).
  2:{ intros k Hk.
      rewrite (get_map cabs X czero 0 k) by exact Hk.
      change (get czero X k) with (cget X k).
      rewrite cabs_square, Hp; [reflexivity|].
      apply (N.lt_le_trans _ _ _ Hk). apply N.eq_le_incl. exact HsX. }
  match goal with
  | |- csumN ?s _ = (nR ?s' * _, 0) =>
    replace s with (p2 b) by (symmetry; exact HsX);
    replace s' with (p2 b) by (symmetry; exact HsX)
  end.
  rewrite dft_energy.
  rewrite (csumN_zero_tail (size x) (p2 b)); [| exact Hle |].
  - transitivity (cmul (nR (p2 b), 0) (energy x, 0));
      [|cunfold; f_equal; ring].
    f_equal. rewrite energy_csumN. apply csumN_ext. intros j _.
    rewrite cget_padded. cunfold. f_equal; ring.
  - intros j Hj _. rewrite cget_padded.
    assert (Hx : get 0 x j = 0).
    { unfold get. apply nth_overflow. unfold size in Hj. lia. }
    rewrite Hx. apply cmul_0_l.
Qed.

End FFT_spectrum.

Module FFT_spectrum_examples.
Import FFT FFT_facts FFT_exact FFT_spectrum.
Local Open Scope R_scope.

Lemma transform_is_dft_witness :
  (size [1; 2; 3] <= p2 62)%N /\
  exists X : list C, transform [1; 2; 3] = Done X /\ size X = 4%N.
Proof.
  assert (H : (size [1; 2; 3] <= p2 62)%N) by (vm_compute; discriminate).
  split; [exact H|].
  destruct (transform_is_dft [1; 2; 3] H) as (X & HX & Hs & _).
  exists X. split; [exact HX | exact Hs].
Defined.

Lemma real_signal_spectrum_mirrored_witness :
  (size [1; 2; 3; 4] <= p2 62)%N /\
  exists X : list C,
    transform [1; 2; 3; 4] = Done X /\
    cget X 0 = csumN 4 (fun j => (get 0 [1; 2; 3; 4] j, 0)).
Proof.
  assert (H : (size [1; 2; 3; 4] <= p2 62)%N) by (vm_compute; discriminate).
  split; [exact H|].
  destruct (real_signal_spectrum_mirrored [1; 2; 3; 4] H) as (X & HX & _ & H0).
  exists X. split; [exact HX | exact H0].
Defined.

Lemma single_sample_flat_spectrum_witness :
  (size [0; 5; 0; 0] <= p2 62)%N /\ (1 < size [0; 5; 0; 0])%N /\
  exists X : list C,
    transform [0; 5; 0; 0] = Done X /\
    forall k, (k < size X)%N -> get 0 (magnitude X) k = Rabs 5.
Proof.
  assert (H : (size [0; 5; 0; 0] <= p2 62)%N) by (vm_compute; discriminate).
  assert (Hm : (1 < size [0; 5; 0; 0])%N) by reflexivity.
  assert (Hz : forall j, (j < size [0; 5; 0; 0])%N -> j <> 1%N ->
                         get 0 [0; 5; 0; 0] j = 0).
  { intros j Hj Hne. change (j < 4)%N in Hj.
    assert (E : j = 0%N \/ j = 2%N \/ j = 3%N) by lia.
    destruct E as [->|[->| ->]]; reflexivity. }
  split; [exact H|]. split; [exact Hm|].
  destruct (single_sample_flat_spectrum [0; 5; 0; 0] 1 H Hm Hz) as (X & HX & Hp).
  exists X. split; [exact HX|]. intros k Hk. exact (proj2 (Hp k Hk)).
Defined.

Lemma transform_linear_witness :
  (size [1; 2] <= p2 62)%N /\
  exists X Y Z : list C,
    transform [1; 2] = Done X /\ transform [3; 4] = Done Y /\
    transform [2 * 1 + 3; 2 * 2 + 4] = Done Z /\
    forall k, (k < size Z)%N ->
      cget Z k = cadd (cmul (2, 0) (cget X k)) (cget Y k).
Proof.
  assert (H : (size [1; 2] <= p2 62)%N) by (vm_compute; discriminate).
  assert (Hj : forall j, (j < size [1; 2])%N ->
             get 0 [2 * 1 + 3; 2 * 2 + 4] j
             = 2 * get 0 [1; 2] j + get 0 [3; 4] j).
  { intros j Hj. change (j < 2)%N in Hj.
    assert (E : j = 0%N \/ j = 1%N) by lia.
    destruct E as [->| ->]; reflexivity. }
  split; [exact H|].
  destruct (transform_linear 2 [1; 2] [3; 4] [2 * 1 + 3; 2 * 2 + 4]
              H eq_refl eq_refl Hj)
    as (X & Y & Z & HX & HY & HZ & _ & _ & Hp).
  exists X, Y, Z. repeat (split; [assumption|]). exact Hp.
Defined.

Lemma inverse_and_transformInPlace_undo_each_other_witness :
  (1 <= 62)%nat /\ size [(1, 2); (3, 4)] = p2 1 /\
  exists Y : list C,
    inverse [(1, 2); (3, 4)] = Done Y /\
    transformInPlace Y = Done [(1, 2); (3, 4)].
Proof.
  assert (H1 : (1 <= 62)%nat) by lia.
  assert (H2 : size [(1, 2); (3, 4)] = p2 1) by reflexivity.
  split; [exact H1|]. split; [exact H2|].
  exact (proj2 (inverse_and_transformInPlace_undo_each_other
                  1 [(1, 2); (3, 4)] H1 H2)).
Defined.

Lemma transform_conserves_energy_witness :
  (size [3; 4; 0] <= p2 62)%N /\
  exists X : list C,
    transform [3; 4; 0] = Done X /\
    energy (magnitude X) = nR (size X) * energy [3; 4; 0].
Proof.
  assert (H : (size [3; 4; 0] <= p2 62)%N) by (vm_compute; discriminate).
  split; [exact H|].
  exact (transform_conserves_energy [3; 4; 0] H).
Defined.

End FFT_spectrum_examples.

(* ================================================================== *)
(** * The window functions, in exact arithmetic *)
(* ================================================================== *)

Module FFT_windows.
Import FFT FFT_facts FFT_exact.
Local Open Scope R_scope.

(** The loop the three window functions share:
    [result[i] = signal[i] * multiplier] for every index [i]. *)
Fixpoint window_loop (multiplier : N -> R) (signal : list R) (i : N)
  : list R :=
  match signal with
  | [] => []
  | s :: rest => s * multiplier i :: window_loop multiplier rest (i + 1)
  end.

Definition applyHannWindow (signal : list R) : list R :=
  let n := size signal in
  window_loop
    (fun i => 0.5 * (1 - Rtrigo_def.cos
                           (2 * Rtrigo1.PI * nR i / nR (wsub n 1))))
    signal 0.

Definition applyHammingWindow (signal : list R) : list R :=
  let n := size signal in
  window_loop
    (fun i => 0.54 - 0.46 * Rtrigo_def.cos
                              (2 * Rtrigo1.PI * nR i / nR (wsub n 1)))
    signal 0.

Definition applyBlackmanWindow (signal : list R) : list R :=
  let n := size signal in
  window_loop
    (fun i => 0.42
              - 0.5 * Rtrigo_def.cos (2 * Rtrigo1.PI * nR i / nR (wsub n 1))
              + 0.08 * Rtrigo_def.cos
                         (4 * Rtrigo1.PI * nR i / nR (wsub n 1)))
    signal 0.

Lemma size_window_loop (m : N -> R) (signal : list R) :
  forall i, size (window_loop m signal i) = size signal.
Proof.
  induction signal as [|s rest IH]; intros i; [reflexivity|].
  cbn [window_loop]. rewrite !size_cons. now rewrite IH.
Qed.

Lemma get_window_loop (m : N -> R) (signal : list R) :
  forall i p, (p < size signal)%N ->
    get 0 (window_loop m signal i) p = get 0 signal p * m (i + p)%N.
Proof.
  induction signal as [|s rest IH]; intros i p Hp.
  - unfold size in Hp. cbn in Hp. lia.
  - cbn [window_loop]. rewrite size_cons in Hp.
    destruct (N.eq_dec p 0) as [->|Hne].
    + rewrite N.add_0_r. reflexivity.
    + unfold get.
      replace (N.to_nat p) with (S (N.to_nat (p - 1))) by lia.
      cbn [nth]. fold (get 0 (window_loop m rest (i + 1)) (p - 1)).
      fold (get 0 rest (p - 1)).
      rewrite IH by lia. do 2 f_equal. lia.
Qed.

Lemma attenuated (s m : R) : 0 <= m <= 1 -> Rabs (s * m) <= Rabs s.
Proof.
  intros [H0 H1]. rewrite Rabs_mult, (Rabs_pos_eq m) by exact H0.
  pose proof (Rabs_pos s). nra.
Qed.

Lemma angle_last (n : N) :
  (2 <= n)%N -> 2 * Rtrigo1.PI * nR (n - 1) / nR (n - 1) = 2 * Rtrigo1.PI.
Proof.
  intros H. pose proof (nR_pos (n - 1) ltac:(lia)). field. lra.
Qed.

Lemma angle_mirror (n i : N) :
  (2 <= n)%N -> (i < n)%N ->
  2 * Rtrigo1.PI * nR (n - 1 - i) / nR (n - 1)
  = 2 * Rtrigo1.PI - 2 * Rtrigo1.PI * nR i / nR (n - 1).
Proof.
  intros H Hi. pose proof (nR_pos (n - 1) ltac:(lia)).
  unfold nR. rewrite N2Nat.inj_sub, minus_INR by lia. field.
  fold (nR (n - 1)). lra.
Qed.

Lemma cos_mirror (t : R) :
  Rtrigo_def.cos (2 * Rtrigo1.PI - t) = Rtrigo_def.cos t.
Proof. rewrite cos_minus, cos_2PI, sin_2PI. ring. Qed.

(** X11. In exact arithmetic, on a signal of two samples at least, the Hann
    window keeps the length, scales sample [i] by a factor between 0 and 1,
    the same for [i] and [n - 1 - i], and makes the first and the last
    sample zero. *)
Theorem hann_window_tapers (signal : list R) :
  (2 <= size signal)%N -> (size signal < two64)%N ->
  let n := size signal in
  let out := applyHannWindow signal in
  size out = n /\
  get 0 out 0 = 0 /\ get 0 out (n - 1) = 0 /\
  (forall i, (i < n)%N -> Rabs (get 0 out i) <= Rabs (get 0 signal i)) /\
  (forall i, (i < n)%N ->
     get 0 out i * get 0 signal (n - 1 - i)
     = get 0 out (n - 1 - i) * get 0 signal i).
Proof.
  intros H2 H64 n out. subst n out. unfold applyHannWindow. cbv zeta.
  rewrite wsub_small by lia.
  split; [apply size_window_loop|].
  split.
  { rewrite get_window_loop by lia. cbn [N.add].
    rewrite nR_0. unfold Rdiv. rewrite Rmult_0_r, Rmult_0_l, cos_0. ring. }
  split.
  { rewrite get_window_loop by lia. rewrite N.add_0_l.
    rewrite angle_last by exact H2. rewrite cos_2PI. ring. }
  split.
  - intros i Hi. rewrite get_window_loop by exact Hi. apply attenuated.
    pose proof (COS_bound (2 * Rtrigo1.PI * nR (0 + i) / nR (size signal - 1))).
    lra.
  - intros i Hi. rewrite !get_window_loop by lia. rewrite !N.add_0_l.
    rewrite angle_mirror, cos_mirror by assumption. ring.
Qed.

(** X12. In exact arithmetic, on a signal of two samples at least, the
    Hamming window multiplies sample [i] by
    [0.54 - 0.46 cos(2 pi i / (n - 1))], a factor between 0.08 and 1; the
    Blackman window multiplies it by
    [0.42 - 0.5 cos(2 pi i / (n - 1)) + 0.08 cos(4 pi i / (n - 1))], a
    factor between 0 and 1 that is 0 at the first and at the last sample,
    which it makes zero.  Both keep the length. *)
Theorem hamming_blackman_windows_bounded (signal : list R) :
  (2 <= size signal)%N -> (size signal < two64)%N ->
  let n := size signal in
  let hamming := fun i : N =>
    0.54 - 0.46 * Rtrigo_def.cos (2 * Rtrigo1.PI * nR i / nR (n - 1)) in
  let blackman := fun i : N =>
    0.42 - 0.5 * Rtrigo_def.cos (2 * Rtrigo1.PI * nR i / nR (n - 1))
    + 0.08 * Rtrigo_def.cos (4 * Rtrigo1.PI * nR i / nR (n - 1)) in
  size (applyHammingWindow signal) = n /\
  size (applyBlackmanWindow signal) = n /\
  (forall i, (i < n)%N ->
     get 0 (applyHammingWindow signal) i = get 0 signal i * hamming i /\
     0.08 <= hamming i <= 1) /\
  (forall i, (i < n)%N ->
     get 0 (applyBlackmanWindow signal) i = get 0 signal i * blackman i /\
     0 <= blackman i <= 1) /\
  blackman 0%N = 0 /\ blackman (n - 1)%N = 0 /\
  get 0 (applyBlackmanWindow signal) 0 = 0 /\
  get 0 (applyBlackmanWindow signal) (n - 1) = 0.
Proof.
  intros H2 H64 n hamming blackman. subst n hamming blackman.
  unfold applyHammingWindow, applyBlackmanWindow. cbv zeta.
  rewrite wsub_small by lia.
  split; [apply size_window_loop|].
  split; [apply size_window_loop|].
  split.
  { intros i Hi. rewrite get_window_loop by exact Hi. rewrite N.add_0_l.
    split; [reflexivity|].
    set (c := Rtrigo_def.cos _).
    assert (Hc : -1 <= c <= 1) by apply COS_bound.
    lra. }
  assert (Hd : forall i,
            4 * Rtrigo1.PI * nR i / nR (size signal - 1)
            = 2 * (2 * Rtrigo1.PI * nR i / nR (size signal - 1))).
  { intros i. pose proof (nR_pos (size signal - 1) ltac:(lia)). field. lra. }
  split.
  { intros i Hi. rewrite get_window_loop by exact Hi. rewrite N.add_0_l.
    split; [reflexivity|].
    rewrite Hd, cos_2a_cos.
    set (c := Rtrigo_def.cos _).
    assert (Hc : -1 <= c <= 1) by apply COS_bound.
    nra. }
  assert (B0 : 0.42
               - 0.5 * Rtrigo_def.cos
                         (2 * Rtrigo1.PI * nR 0 / nR (size signal - 1))
               + 0.08 * Rtrigo_def.cos
                          (4 * Rtrigo1.PI * nR 0 / nR (size signal - 1))
               = 0).
  { rewrite nR_0. unfold Rdiv. rewrite !Rmult_0_r, !Rmult_0_l, cos_0. lra. }
  assert (B1 : 0.42
               - 0.5 * Rtrigo_def.cos
                         (2 * Rtrigo1.PI * nR (size signal - 1)
                          / nR (size signal - 1))
               + 0.08 * Rtrigo_def.cos
                          (4 * Rtrigo1.PI * nR (size signal - 1)
                           / nR (size signal - 1))
               = 0).
  { rewrite Hd, angle_last by exact H2.
    rewrite (cos_2a_cos (2 * Rtrigo1.PI)), cos_2PI. lra. }
  split; [exact B0|]. split; [exact B1|].
  split.
  { rewrite get_window_loop by lia. cbn [N.add]. rewrite B0. ring. }
  rewrite get_window_loop by lia. rewrite N.add_0_l. rewrite B1. ring.
Qed.

Lemma hann_window_tapers_witness :
  (2 <= size [1; 2; 3])%N /\ (size [1; 2; 3] < two64)%N /\
  get 0 (applyHannWindow [1; 2; 3]) 0 = 0 /\
  get 0 (applyHannWindow [1; 2; 3]) 2 = 0.
Proof.
  assert (H1 : (2 <= size [1; 2; 3])%N) by (vm_compute; discriminate).
  assert (H2 : (size [1; 2; 3] < two64)%N) by reflexivity.
  split; [exact H1|]. split; [exact H2|].
  destruct (hann_window_tapers [1; 2; 3] H1 H2) as (_ & Ha & Hb & _).
  split; [exact Ha | exact Hb].
Defined.

Lemma hamming_blackman_windows_bounded_witness :
  (2 <= size [1; 2; 3])%N /\ (size [1; 2; 3] < two64)%N /\
  get 0 (applyHammingWindow [1; 2; 3]) 1
  = 2 * (0.54 - 0.46 * Rtrigo_def.cos
                         (2 * Rtrigo1.PI * nR 1 / nR (size [1; 2; 3] - 1))) /\
  get 0 (applyBlackmanWindow [1; 2; 3]) 0 = 0.
Proof.
  assert (H1 : (2 <= size [1; 2; 3])%N) by (vm_compute; discriminate).
  assert (H2 : (size [1; 2; 3] < two64)%N) by reflexivity.
  split; [exact H1|]. split; [exact H2|].
  destruct (hamming_blackman_windows_bounded [1; 2; 3] H1 H2)
    as (_ & _ & Hh & _ & _ & _ & Ha & _).
  split; [|exact Ha].
  exact (proj1 (Hh 1%N ltac:(reflexivity))).
Defined.

End FFT_windows.

(* ================================================================== *)
(** * The rest of the equalizer: block processing, response curve *)
(* ================================================================== *)

Module EQ_rest.
Import IEEE EQ.
Local Open Scope Z_scope.

(** Unary minus: flips the sign bit. *)
Definition neg (d : double) : double :=
  of_bits (N.lxor (dbits d) 0x8000000000000000).

Definition f_0 : float := mkFloat 0 eq_refl.

(** [buffer[i]] of a [float*] with as many cells as the list; the calls
    of the sources stay inside the buffer. *)
Definition buf_get (buffer : list float) (i : Z) : float :=
  FFT.get f_0 buffer (Z.to_N i).
Definition buf_set (buffer : list float) (i : Z) (v : float) : list float :=
  FFT.set buffer (Z.to_N i) v.

Section WithArith.
Context {A : Arith}.

(** [double getMagnitudeAt(double freq, double sampleRate) const] *)
Definition getMagnitudeAt (f : BiquadFilter) (freq sampleRate : double)
  : double :=
  let w := div (mul (mul d_2 M_PI) freq) sampleRate in
  let cosw := cos w in
  let cos2w := cos (mul d_2 w) in
  let sinw := sin w in
  let sin2w := sin (mul d_2 w) in
  let numReal := add (add (b0_ f) (mul (b1_ f) cosw)) (mul (b2_ f) cos2w) in
  let numImag := sub (mul (neg (b1_ f)) sinw) (mul (b2_ f) sin2w) in
  let denReal := add (add d_1 (mul (a1_ f) cosw)) (mul (a2_ f) cos2w) in
  let denImag := sub (mul (neg (a1_ f)) sinw) (mul (a2_ f) sin2w) in
  let numMag := sqrt (add (mul numReal numReal) (mul numImag numImag)) in
  let denMag := sqrt (add (mul denReal denReal) (mul denImag denImag)) in
  div numMag denMag.

(** One turn of the band loop of [getResponseAt]. *)
Definition response_band (p : EQProcessor) (freq : double)
    (totalMag : double) (i : Z) : double :=
  if band_active p i then
    mul totalMag (getMagnitudeAt (at5 (filters_ p) i) freq (sampleRate_ p))
  else totalMag.

(** [double getResponseAt(double freq) const] *)
Definition getResponseAt (p : EQProcessor) (freq : double) : double :=
  let totalMag := fold_left (response_band p freq) bands d_1 in
  mul d_20 (log10 totalMag).

(** One turn of the band loop of [processBlock], on the sample of channel
    [ch]. *)
Definition block_band (ch : Z) (st : float * EQProcessor) (band : Z)
  : float * EQProcessor :=
  let (sample, p) := st in
  if band_active p band then run_band p band sample ch else st.

(** [for (int ch = 0; ch < numChannels && ch < 2; ++ch)]: two turns at
    most, the test fails at [ch = 2]. *)
Fixpoint channel_loop (turns : nat) (ch frame numChannels : Z)
    (st : list float * EQProcessor) : list float * EQProcessor :=
  match turns with
  | O => st
  | S turns' =>
    if (ch <? numChannels) && (ch <? 2) then
      let (buffer, p) := st in
      let i := frame * numChannels + ch in
      let (sample, p') :=
        fold_left (block_band ch) bands (buf_get buffer i, p) in
      channel_loop turns' (ch + 1) frame numChannels
        (buf_set buffer i sample, p')
    else st
  end.

(** [for (int frame = 0; frame < numFrames; ++frame)], [count] turns from
    [frame] on. *)
Fixpoint frame_loop (count : nat) (frame numChannels : Z)
    (st : list float * EQProcessor) : list float * EQProcessor :=
  match count with
  | O => st
  | S count' =>
    frame_loop count' (frame + 1) numChannels
      (channel_loop 2 0 frame numChannels st)
  end.

(** [void processBlock(float* buffer, int numFrames, int numChannels)]:
    the buffer and the processor after the call. *)
Definition processBlock (p : EQProcessor) (buffer : list float)
    (numFrames numChannels : Z) : list float * EQProcessor :=
  if bypass_ p then (buffer, p)
  else frame_loop (Z.to_nat numFrames) 0 numChannels (buffer, p).

End WithArith.
End EQ_rest.

Module EQ_rest_facts.
Import IEEE IEEE_facts EQ EQ_facts EQ_rest.
Local Open Scope Z_scope.

(** The five coefficients of a section. *)
Definition coefficients (f : BiquadFilter)
  : double * double * double * double * double :=
  (b0_ f, b1_ f, b2_ f, a1_ f, a2_ f).

(** [p'] differs from [p] in the delay memory of its filters at most. *)
Definition same_design (p p' : EQProcessor) : Prop :=
  sampleRate_ p' = sampleRate_ p /\ bypass_ p' = bypass_ p /\
  frequencies_ p' = frequencies_ p /\ gains_ p' = gains_ p /\
  qFactors_ p' = qFactors_ p /\
  forall i, 0 <= i < NUM_BANDS ->
    coefficients (at5 (filters_ p') i) = coefficients (at5 (filters_ p) i).

Lemma same_design_refl (p : EQProcessor) : same_design p p.
Proof. unfold same_design. auto 10. Qed.

Lemma same_design_trans (p q r : EQProcessor) :
  same_design p q -> same_design q r -> same_design p r.
Proof.
  intros (A1 & A2 & A3 & A4 & A5 & A6) (B1 & B2 & B3 & B4 & B5 & B6).
  unfold same_design.
  split; [congruence|]. split; [congruence|]. split; [congruence|].
  split; [congruence|]. split; [congruence|].
  intros i Hi. now rewrite B6, A6.
Qed.

Section WithArith.
Context {A : Arith}.

Lemma run_band_same_design (p : EQProcessor) (i : Z) (x : float) (ch : Z) :
  0 <= i < NUM_BANDS -> same_design p (snd (run_band p i x ch)).
Proof.
  intros Hi. unfold run_band, Biquad.process. cbn [snd].
  unfold same_design.
  cbn [sampleRate_ bypass_ frequencies_ gains_ qFactors_ filters_].
  split; [reflexivity|]. split; [reflexivity|]. split; [reflexivity|].
  split; [reflexivity|]. split; [reflexivity|].
  intros j Hj. destruct (Z.eq_dec i j) as [<-|Hne].
  - now rewrite at5_put5_same.
  - now rewrite at5_put5_other.
Qed.

Lemma band_active_same_design (p p' : EQProcessor) (i : Z) :
  same_design p p' -> band_active p' i = band_active p i.
Proof.
  intros (_ & _ & _ & G & _). unfold band_active. now rewrite G.
Qed.

Lemma block_band_same_design (ch : Z) (x : float) (p : EQProcessor) (i : Z) :
  0 <= i < NUM_BANDS -> same_design p (snd (block_band ch (x, p) i)).
Proof.
  intros Hi. unfold block_band.
  destruct (band_active p i).
  - now apply run_band_same_design.
  - apply same_design_refl.
Qed.

Lemma block_bands_same_design (ch : Z) (l : list Z) :
  (forall i, In i l -> 0 <= i < NUM_BANDS) ->
  forall (x : float) (p : EQProcessor),
    same_design p (snd (fold_left (block_band ch) l (x, p))).
Proof.
  induction l as [|i l IH]; intros Hl x p.
  - apply same_design_refl.
  - cbn [fold_left].
    pose proof (block_band_same_design ch x p i (Hl i (or_introl eq_refl)))
      as H1.
    destruct (block_band ch (x, p) i) as [x1 p1]. cbn [snd] in H1.
    eapply same_design_trans; [exact H1|].
    apply IH. intros j Hj. apply Hl. now right.
Qed.

Lemma bands_in_range (i : Z) : In i bands -> 0 <= i < NUM_BANDS.
Proof. apply In_bands. Qed.

Lemma processMono_same_design (p : EQProcessor) (x : float) :
  same_design p (snd (processMono p x)).
Proof.
  unfold processMono. destruct (bypass_ p); [apply same_design_refl|].
  exact (block_bands_same_design 0 bands bands_in_range x p).
Qed.

Lemma process_band_same_design (l r : float) (p : EQProcessor) (i : Z) :
  0 <= i < NUM_BANDS -> same_design p (snd (process_band (l, r, p) i)).
Proof.
  intros Hi. unfold process_band.
  destruct (band_active p i); [|apply same_design_refl].
  pose proof (run_band_same_design p i l 0 Hi) as H1.
  destruct (run_band p i l 0) as [l' p1]. cbn [snd] in H1.
  pose proof (run_band_same_design p1 i r 1 Hi) as H2.
  destruct (run_band p1 i r 1) as [r' p2]. cbn [snd] in *.
  eapply same_design_trans; eassumption.
Qed.

Lemma process_bands_same_design (bs : list Z) :
  (forall i, In i bs -> 0 <= i < NUM_BANDS) ->
  forall (l r : float) (p : EQProcessor),
    same_design p (snd (fold_left process_band bs (l, r, p))).
Proof.
  induction bs as [|i bs IH]; intros Hl l r p.
  - apply same_design_refl.
  - cbn [fold_left].
    pose proof (process_band_same_design l r p i (Hl i (or_introl eq_refl)))
      as H1.
    destruct (process_band (l, r, p) i) as [[l1 r1] p1]. cbn [snd] in H1.
    eapply same_design_trans; [exact H1|].
    apply IH. intros j Hj. apply Hl. now right.
Qed.

Lemma process_same_design (p : EQProcessor) (l r : float) :
  same_design p (snd (process p l r)).
Proof.
  unfold process. destruct (bypass_ p); [apply same_design_refl|].
  exact (process_bands_same_design bands bands_in_range l r p).
Qed.

Lemma channel_loop_same_design (turns : nat) :
  forall (ch frame numChannels : Z) (buffer : list float) (p : EQProcessor),
    same_design p
      (snd (channel_loop turns ch frame numChannels (buffer, p))).
Proof.
  induction turns as [|turns IH]; intros ch frame n buffer p.
  - apply same_design_refl.
  - cbn [channel_loop].
    destruct ((ch <? n) && (ch <? 2)); [|apply same_design_refl].
    pose proof (block_bands_same_design ch bands bands_in_range
                  (buf_get buffer (frame * n + ch)) p) as H1.
    destruct (fold_left (block_band ch) bands
                (buf_get buffer (frame * n + ch), p)) as [s p1].
    cbn [snd] in H1.
    eapply same_design_trans; [exact H1 | apply IH].
Qed.

Lemma frame_loop_same_design (count : nat) :
  forall (frame numChannels : Z) (buffer : list float) (p : EQProcessor),
    same_design p (snd (frame_loop count frame numChannels (buffer, p))).
Proof.
  induction count as [|count IH]; intros frame n buffer p.
  - apply same_design_refl.
  - cbn [frame_loop].
    pose proof (channel_loop_same_design 2 0 frame n buffer p) as H1.
    destruct (channel_loop 2 0 frame n (buffer, p)) as [b1 p1].
    cbn [snd] in H1.
    eapply same_design_trans; [exact H1 | apply IH].
Qed.

Lemma processBlock_same_design (p : EQProcessor) (buffer : list float)
    (numFrames numChannels : Z) :
  same_design p (snd (processBlock p buffer numFrames numChannels)).
Proof.
  unfold processBlock. destruct (bypass_ p); [apply same_design_refl|].
  apply frame_loop_same_design.
Qed.

Lemma reset_same_design (p p' : EQProcessor) :
  same_design p p' -> reset p' = reset p.
Proof.
  intros (S1 & S2 & S3 & S4 & S5 & S6). unfold reset.
  rewrite S1, S2, S3, S4, S5. f_equal.
  pose proof (S6 0 ltac:(unfold NUM_BANDS; lia)) as C0.
  pose proof (S6 1 ltac:(unfold NUM_BANDS; lia)) as C1.
  pose proof (S6 2 ltac:(unfold NUM_BANDS; lia)) as C2.
  pose proof (S6 3 ltac:(unfold NUM_BANDS; lia)) as C3.
  pose proof (S6 4 ltac:(unfold NUM_BANDS; lia)) as C4.
  cbn [at5] in C0, C1, C2, C3, C4.
  unfold coefficients in *. unfold Biquad.reset.
  f_equal; congruence.
Qed.

End WithArith.

(** ** Calls and the states they reach *)

Section Calls.
Context {A : Arith}.

(** One call of a public member that can change the processor. *)
Inductive call : EQProcessor -> EQProcessor -> Prop :=
| call_setSampleRate p sr : call p (setSampleRate p sr)
| call_reset p : call p (reset p)
| call_setBandGain p band v : call p (setBandGain p band v)
| call_setBandFrequency p band v : call p (setBandFrequency p band v)
| call_setBandQ p band v : call p (setBandQ p band v)
| call_setBypass p b : call p (setBypass p b)
| call_process p l r : call p (snd (process p l r))
| call_processMono p x : call p (snd (processMono p x))
| call_processBlock p buffer numFrames numChannels :
    call p (snd (processBlock p buffer numFrames numChannels)).

(** Any sequence of calls. *)
Inductive calls : EQProcessor -> EQProcessor -> Prop :=
| calls_none p : calls p p
| calls_then p q r : calls p q -> call q r -> calls p r.

(** Every filter holds the coefficients [setPeakingEQ] computes from the
    sample rate and the three values of its band. *)
Definition designed (p : EQProcessor) : Prop :=
  forall i, 0 <= i < NUM_BANDS ->
    coefficients (at5 (filters_ p) i)
    = coefficients (Biquad.setPeakingEQ Biquad.init (sampleRate_ p)
                      (at5 (frequencies_ p) i) (at5 (gains_ p) i)
                      (at5 (qFactors_ p) i)).

(** What a setter on [band] leaves alone. *)
Definition untouched_but (band : Z) (p p' : EQProcessor) : Prop :=
  sampleRate_ p' = sampleRate_ p /\ bypass_ p' = bypass_ p /\
  all_delay_state p' = all_delay_state p /\
  forall j, 0 <= j < NUM_BANDS -> j <> band ->
    getBandGain p' j = getBandGain p j /\
    getBandFrequency p' j = getBandFrequency p j /\
    getBandQ p' j = getBandQ p j /\
    at5 (filters_ p') j = at5 (filters_ p) j.

Lemma updateFilter_fields (p : EQProcessor) (band : Z) :
  sampleRate_ (updateFilter p band) = sampleRate_ p /\
  bypass_ (updateFilter p band) = bypass_ p /\
  frequencies_ (updateFilter p band) = frequencies_ p /\
  gains_ (updateFilter p band) = gains_ p /\
  qFactors_ (updateFilter p band) = qFactors_ p.
Proof. unfold updateFilter. cbn. auto. Qed.

Lemma updateFilter_delay (p : EQProcessor) (band : Z) :
  0 <= band < NUM_BANDS ->
  all_delay_state (updateFilter p band) = all_delay_state p.
Proof.
  intros H. unfold all_delay_state, updateFilter, bands.
  cbn [map filters_]. destruct (filters_ p) as [f0 f1 f2 f3 f4].
  each_band H; reflexivity.
Qed.

Lemma updateFilter_other (p : EQProcessor) (band j : Z) :
  0 <= band < NUM_BANDS -> 0 <= j < NUM_BANDS -> j <> band ->
  at5 (filters_ (updateFilter p band)) j = at5 (filters_ p) j.
Proof.
  intros H Hj Hne. unfold updateFilter. cbn [filters_].
  apply at5_put5_other; congruence.
Qed.

Lemma updateFilter_designed_band (p : EQProcessor) (band : Z) :
  0 <= band < NUM_BANDS ->
  coefficients (at5 (filters_ (updateFilter p band)) band)
  = coefficients (Biquad.setPeakingEQ Biquad.init (sampleRate_ p)
                    (at5 (frequencies_ p) band) (at5 (gains_ p) band)
                    (at5 (qFactors_ p) band)).
Proof.
  intros H. unfold updateFilter. cbn [filters_].
  rewrite at5_put5_same by exact H. reflexivity.
Qed.

Lemma getters_in_range (p : EQProcessor) (j : Z) :
  0 <= j < NUM_BANDS ->
  getBandGain p j = at5 (gains_ p) j /\
  getBandFrequency p j = at5 (frequencies_ p) j /\
  getBandQ p j = at5 (qFactors_ p) j.
Proof.
  intros H. unfold getBandGain, getBandFrequency, getBandQ.
  rewrite (in_range_true _ H). auto.
Qed.

Lemma setBandGain_untouched (p : EQProcessor) (band : Z) (v : double) :
  0 <= band < NUM_BANDS -> untouched_but band p (setBandGain p band v).
Proof.
  intros H. unfold untouched_but, setBandGain.
  rewrite (in_range_true _ H).
  split; [reflexivity|]. split; [reflexivity|].
  split; [now rewrite updateFilter_delay|].
  intros j Hj Hne.
  rewrite !(proj1 (getters_in_range _ j Hj)).
  rewrite !(proj1 (proj2 (getters_in_range _ j Hj))).
  rewrite !(proj2 (proj2 (getters_in_range _ j Hj))).
  rewrite updateFilter_other by assumption.
  cbn [updateFilter gains_ frequencies_ qFactors_ filters_].
  rewrite at5_put5_other by (try assumption; congruence). auto.
Qed.

Lemma setBandFrequency_untouched (p : EQProcessor) (band : Z) (v : double) :
  0 <= band < NUM_BANDS -> untouched_but band p (setBandFrequency p band v).
Proof.
  intros H. unfold untouched_but, setBandFrequency.
  rewrite (in_range_true _ H).
  split; [reflexivity|]. split; [reflexivity|].
  split; [now rewrite updateFilter_delay|].
  intros j Hj Hne.
  rewrite !(proj1 (getters_in_range _ j Hj)).
  rewrite !(proj1 (proj2 (getters_in_range _ j Hj))).
  rewrite !(proj2 (proj2 (getters_in_range _ j Hj))).
  rewrite updateFilter_other by assumption.
  cbn [updateFilter gains_ frequencies_ qFactors_ filters_].
  rewrite at5_put5_other by (try assumption; congruence). auto.
Qed.

Lemma setBandQ_untouched (p : EQProcessor) (band : Z) (v : double) :
  0 <= band < NUM_BANDS -> untouched_but band p (setBandQ p band v).
Proof.
  intros H. unfold untouched_but, setBandQ.
  rewrite (in_range_true _ H).
  split; [reflexivity|]. split; [reflexivity|].
  split; [now rewrite updateFilter_delay|].
  intros j Hj Hne.
  rewrite !(proj1 (getters_in_range _ j Hj)).
  rewrite !(proj1 (proj2 (getters_in_range _ j Hj))).
  rewrite !(proj2 (proj2 (getters_in_range _ j Hj))).
  rewrite updateFilter_other by assumption.
  cbn [updateFilter gains_ frequencies_ qFactors_ filters_].
  rewrite at5_put5_other by (try assumption; congruence). auto.
Qed.

(** X13. A setter called on a band changes nothing outside that band: the
    sample rate, the bypass flag, the delay memory of every filter (that of
    its own band included), the three values and the filter of every other
    band, and the two other values of its own band are as before. *)
Theorem setters_touch_one_band (p : EQProcessor) (band : Z) (v : double) :
  0 <= band < NUM_BANDS ->
  untouched_but band p (setBandGain p band v) /\
  untouched_but band p (setBandFrequency p band v) /\
  untouched_but band p (setBandQ p band v) /\
  (getBandFrequency (setBandGain p band v) band = getBandFrequency p band /\
   getBandQ (setBandGain p band v) band = getBandQ p band) /\
  (getBandGain (setBandFrequency p band v) band = getBandGain p band /\
   getBandQ (setBandFrequency p band v) band = getBandQ p band) /\
  (getBandGain (setBandQ p band v) band = getBandGain p band /\
   getBandFrequency (setBandQ p band v) band = getBandFrequency p band).
Proof.
  intros H.
  split; [now apply setBandGain_untouched|].
  split; [now apply setBandFrequency_untouched|].
  split; [now apply setBandQ_untouched|].
  unfold getBandGain, getBandFrequency, getBandQ,
    setBandGain, setBandFrequency, setBandQ.
  rewrite (in_range_true _ H). cbn. auto 10.
Qed.

(** ** The delay memory is all a reset erases, and all that audio writes *)

(** X14. [reset] clears the delay memory of every filter and nothing else;
    and the state it produces does not depend on the audio processed before:
    resetting after [process], [processMono] or [processBlock] gives the
    state that resetting before the call gives. *)
Theorem reset_forgets_audio (p : EQProcessor) (l r x : float)
    (buffer : list float) (numFrames numChannels : Z) :
  reset (snd (process p l r)) = reset p /\
  reset (snd (processMono p x)) = reset p /\
  reset (snd (processBlock p buffer numFrames numChannels)) = reset p /\
  same_design p (reset p) /\
  all_delay_state (reset p)
  = map (fun _ => ((d_0, d_0), (d_0, d_0), (d_0, d_0), (d_0, d_0))) bands /\
  reset (reset p) = reset p.
Proof.
  split; [apply reset_same_design, process_same_design|].
  split; [apply reset_same_design, processMono_same_design|].
  split; [apply reset_same_design, processBlock_same_design|].
  split.
  { unfold same_design, reset. cbn.
    split; [reflexivity|]. split; [reflexivity|]. split; [reflexivity|].
    split; [reflexivity|]. split; [reflexivity|].
    intros i Hi. each_band Hi; reflexivity. }
  split; reflexivity.
Qed.

(** ** Invariants *)

Import SpectrumEQ_facts.

Lemma in_domain_same_fields (p p' : EQProcessor) :
  frequencies_ p' = frequencies_ p -> gains_ p' = gains_ p ->
  qFactors_ p' = qFactors_ p -> in_domain p -> in_domain p'.
Proof.
  intros F G Q H band Hb. rewrite F, G, Q. now apply H.
Qed.

Lemma in_domain_same_design (p p' : EQProcessor) :
  same_design p p' -> in_domain p -> in_domain p'.
Proof.
  intros (_ & _ & F & G & Q & _). now apply in_domain_same_fields.
Qed.

Lemma updateAllFilters_fields (p : EQProcessor) :
  sampleRate_ (updateAllFilters p) = sampleRate_ p /\
  bypass_ (updateAllFilters p) = bypass_ p /\
  frequencies_ (updateAllFilters p) = frequencies_ p /\
  gains_ (updateAllFilters p) = gains_ p /\
  qFactors_ (updateAllFilters p) = qFactors_ p.
Proof. unfold updateAllFilters, bands. cbn. auto. Qed.

Lemma call_in_domain (p p' : EQProcessor) :
  call p p' -> in_domain p -> in_domain p'.
Proof.
  intros [q sr|q|q band v|q band v|q band v|q b|q l r|q x|q buffer nf nc] H.
  - destruct (updateAllFilters_fields
                (mkEQ sr (bypass_ q) (frequencies_ q) (gains_ q)
                      (qFactors_ q) (filters_ q))) as (_ & _ & F & G & Q).
    now apply (in_domain_same_fields q).
  - now apply (in_domain_same_fields q).
  - now apply setBandGain_in_domain.
  - now apply setBandFrequency_in_domain.
  - now apply setBandQ_in_domain.
  - now apply (in_domain_same_fields q).
  - apply (in_domain_same_design q); [apply process_same_design | exact H].
  - apply (in_domain_same_design q); [apply processMono_same_design | exact H].
  - apply (in_domain_same_design q); [apply processBlock_same_design | exact H].
Qed.

(** X15. In every state the processor can reach from its construction, by
    any sequence of calls with any arguments, the gain of every band lies in
    [-12, 12], its frequency in [20, 20000] and its Q in [0.1, 10]; none of
    them is NaN. *)
Theorem reachable_states_in_domain (p : EQProcessor) :
  calls init p -> in_domain p.
Proof.
  intros H. remember init as p0 eqn:E.
  induction H as [q|q1 q2 q3 H12 IH H23].
  - subst q. exact in_domain_init.
  - eapply call_in_domain; [exact H23 | now apply IH].
Qed.

Lemma updateAllFilters_designed (p : EQProcessor) :
  designed (updateAllFilters p).
Proof.
  intros i Hi. unfold updateAllFilters, bands. cbn [fold_left].
  destruct p as [sr bp fr ga qf [f0 f1 f2 f3 f4]].
  each_band Hi; reflexivity.
Qed.

Lemma designed_same_design (p p' : EQProcessor) :
  same_design p p' -> designed p -> designed p'.
Proof.
  intros (S1 & _ & F & G & Q & C) H i Hi.
  rewrite C, S1, F, G, Q by exact Hi. now apply H.
Qed.

Lemma setter_designed (p p' : EQProcessor) (band : Z) :
  0 <= band < NUM_BANDS ->
  sampleRate_ p' = sampleRate_ p ->
  filters_ p' = filters_ p ->
  (forall j, 0 <= j < NUM_BANDS -> j <> band ->
     at5 (frequencies_ p') j = at5 (frequencies_ p) j /\
     at5 (gains_ p') j = at5 (gains_ p) j /\
     at5 (qFactors_ p') j = at5 (qFactors_ p) j) ->
  designed p -> designed (updateFilter p' band).
Proof.
  intros Hb Hs Hf Ho H i Hi.
  destruct (Z.eq_dec i band) as [->|Hne].
  - rewrite updateFilter_designed_band by exact Hb.
    destruct (updateFilter_fields p' band) as (-> & _ & -> & -> & ->).
    reflexivity.
  - rewrite updateFilter_other by assumption.
    destruct (updateFilter_fields p' band) as (-> & _ & -> & -> & ->).
    destruct (Ho i Hi Hne) as (-> & -> & ->).
    rewrite Hs, Hf. now apply H.
Qed.

Lemma call_designed (p p' : EQProcessor) :
  call p p' -> designed p -> designed p'.
Proof.
  intros [q sr|q|q band v|q band v|q band v|q b|q l r|q x|q buffer nf nc] H.
  - apply updateAllFilters_designed.
  - apply (designed_same_design q); [|exact H].
    unfold same_design, reset. cbn.
    split; [reflexivity|]. split; [reflexivity|]. split; [reflexivity|].
    split; [reflexivity|]. split; [reflexivity|].
    intros i Hi. each_band Hi; reflexivity.
  - unfold setBandGain.
    destruct ((band >=? 0) && (band <? NUM_BANDS)) eqn:E; [|exact H].
    assert (Hb : 0 <= band < NUM_BANDS).
    { apply andb_true_iff in E as [E1 E2].
      apply Z.geb_le in E1. apply Z.ltb_lt in E2. lia. }
    apply (setter_designed q); try assumption; try reflexivity.
    intros j Hj Hne. cbn [frequencies_ gains_ qFactors_].
    rewrite at5_put5_other by (try assumption; congruence). auto.
  - unfold setBandFrequency.
    destruct ((band >=? 0) && (band <? NUM_BANDS)) eqn:E; [|exact H].
    assert (Hb : 0 <= band < NUM_BANDS).
    { apply andb_true_iff in E as [E1 E2].
      apply Z.geb_le in E1. apply Z.ltb_lt in E2. lia. }
    apply (setter_designed q); try assumption; try reflexivity.
    intros j Hj Hne. cbn [frequencies_ gains_ qFactors_].
    rewrite at5_put5_other by (try assumption; congruence). auto.
  - unfold setBandQ.
    destruct ((band >=? 0) && (band <? NUM_BANDS)) eqn:E; [|exact H].
    assert (Hb : 0 <= band < NUM_BANDS).
    { apply andb_true_iff in E as [E1 E2].
      apply Z.geb_le in E1. apply Z.ltb_lt in E2. lia. }
    apply (setter_designed q); try assumption; try reflexivity.
    intros j Hj Hne. cbn [frequencies_ gains_ qFactors_].
    rewrite at5_put5_other by (try assumption; congruence). auto.
  - exact H.
  - apply (designed_same_design q); [apply process_same_design | exact H].
  - apply (designed_same_design q); [apply processMono_same_design | exact H].
  - apply (designed_same_design q); [apply processBlock_same_design | exact H].
Qed.

(** X16. Once [setSampleRate] has been called the filters never go stale:
    after any further sequence of calls, the coefficients of every band's
    filter are the ones [setPeakingEQ] computes from the current sample rate
    and the current gain, frequency and Q of the band. *)
Theorem filters_follow_parameters (p p' : EQProcessor) (sampleRate : double) :
  calls (setSampleRate p sampleRate) p' -> designed p'.
Proof.
  intros H. remember (setSampleRate p sampleRate) as p0 eqn:E.
  induction H as [q|q1 q2 q3 H12 IH H23].
  - subst q. apply updateAllFilters_designed.
  - eapply call_designed; [exact H23 | now apply IH].
Qed.

End Calls.

(** ** The response curve *)

Section Response.
Context {A : Arith}.

Lemma getMagnitudeAt_coefficients (f f' : BiquadFilter) (freq sr : double) :
  coefficients f' = coefficients f ->
  getMagnitudeAt f' freq sr = getMagnitudeAt f freq sr.
Proof.
  unfold coefficients, getMagnitudeAt. intros E.
  injection E as -> -> -> -> ->. reflexivity.
Qed.

Lemma getResponseAt_ext (p p' : EQProcessor) (freq : double) :
  sampleRate_ p' = sampleRate_ p -> gains_ p' = gains_ p ->
  (forall i, 0 <= i < NUM_BANDS ->
     coefficients (at5 (filters_ p') i) = coefficients (at5 (filters_ p) i)) ->
  getResponseAt p' freq = getResponseAt p freq.
Proof.
  intros S G C. unfold getResponseAt, bands. cbn [fold_left].
  unfold response_band, band_active. rewrite S, G.
  rewrite (getMagnitudeAt_coefficients (at5 (filters_ p) 0) (at5 (filters_ p') 0)),
    (getMagnitudeAt_coefficients (at5 (filters_ p) 1) (at5 (filters_ p') 1)),
    (getMagnitudeAt_coefficients (at5 (filters_ p) 2) (at5 (filters_ p') 2)),
    (getMagnitudeAt_coefficients (at5 (filters_ p) 3) (at5 (filters_ p') 3)),
    (getMagnitudeAt_coefficients (at5 (filters_ p) 4) (at5 (filters_ p') 4))
    by (apply C; unfold NUM_BANDS; lia).
  reflexivity.
Qed.

Lemma getResponseAt_same_design (p p' : EQProcessor) (freq : double) :
  same_design p p' -> getResponseAt p' freq = getResponseAt p freq.
Proof.
  intros (S & _ & _ & G & _ & C). now apply getResponseAt_ext.
Qed.

(** X17. The response curve is a function of the sample rate, the gains and
    the filter coefficients alone: the audio processed so far, a [reset] and
    the bypass flag do not change it; and when no band has a gain above 0.01
    dB in absolute value it is [20 * log10(1.0)] at every frequency. *)
Theorem response_curve_ignores_audio_and_bypass
    (p : EQProcessor) (freq : double) (l r x : float)
    (buffer : list float) (numFrames numChannels : Z) (b : bool) :
  getResponseAt (snd (process p l r)) freq = getResponseAt p freq /\
  getResponseAt (snd (processMono p x)) freq = getResponseAt p freq /\
  getResponseAt (snd (processBlock p buffer numFrames numChannels)) freq
  = getResponseAt p freq /\
  getResponseAt (reset p) freq = getResponseAt p freq /\
  getResponseAt (setBypass p b) freq = getResponseAt p freq /\
  ((forall i, 0 <= i < NUM_BANDS -> band_active p i = false) ->
   getResponseAt p freq = mul d_20 (log10 d_1)).
Proof.
  split; [apply getResponseAt_same_design, process_same_design|].
  split; [apply getResponseAt_same_design, processMono_same_design|].
  split; [apply getResponseAt_same_design, processBlock_same_design|].
  split.
  { apply getResponseAt_ext; [reflexivity | reflexivity |].
    intros i Hi. unfold reset. cbn [filters_]. each_band Hi; reflexivity. }
  split; [reflexivity|].
  intros H. unfold getResponseAt, bands. cbn [fold_left].
  unfold response_band.
  rewrite !H by (unfold NUM_BANDS; lia). reflexivity.
Qed.

End Response.

(** ** Block processing *)

Section Block.
Context {A : Arith}.

(** The bands of [l] applied in order to the sample of channel [ch]. *)
Definition cascade (ch : Z) (l : list Z) (st : float * EQProcessor)
  : float * EQProcessor :=
  fold_left (fun st i => run_band (snd st) i (fst st) ch) l st.

Lemma cascade_cons (ch b : Z) (l : list Z) (x : float) (p : EQProcessor) :
  cascade ch (b :: l) (x, p) = cascade ch l (run_band p b x ch).
Proof. reflexivity. Qed.

Lemma block_loop_is_cascade (g : array5 double) (ch : Z) (l : list Z) :
  forall (x : float) (p : EQProcessor),
    gains_ p = g ->
    fold_left (block_band ch) l (x, p)
    = cascade ch (filter (fun i => lt d_0_01 (fabs (at5 g i))) l) (x, p).
Proof.
  induction l as [|i l IH]; intros x p Hg; [reflexivity|].
  change (fold_left (block_band ch) (i :: l) (x, p))
    with (fold_left (block_band ch) l (block_band ch (x, p) i)).
  assert (E : block_band ch (x, p) i
              = if lt d_0_01 (fabs (at5 g i)) then run_band p i x ch
                else (x, p)).
  { unfold block_band, band_active. now rewrite Hg. }
  rewrite E. cbn [filter].
  destruct (lt d_0_01 (fabs (at5 g i))).
  - rewrite cascade_cons.
    destruct (run_band p i x ch) as [y p'] eqn:R.
    apply IH. rewrite <- Hg. exact (run_band_gains_eq _ _ _ _ _ _ R).
  - now apply IH.
Qed.

(** A filter step on channel 0 and one on channel 1 do not see each
    other. *)
Lemma run_band_commute (p : EQProcessor) (b c : Z) (x y : float) :
  0 <= b < NUM_BANDS -> 0 <= c < NUM_BANDS ->
  fst (run_band (snd (run_band p c y 1)) b x 0) = fst (run_band p b x 0) /\
  fst (run_band (snd (run_band p b x 0)) c y 1) = fst (run_band p c y 1) /\
  snd (run_band (snd (run_band p c y 1)) b x 0)
  = snd (run_band (snd (run_band p b x 0)) c y 1).
Proof.
  intros Hb Hc. destruct p as [sr bp fr ga qf [f0 f1 f2 f3 f4]].
  each_band Hb; each_band Hc;
    (split; [reflexivity | split; reflexivity]).
Qed.

Lemma right_step_through_left_pass (l : list Z) :
  (forall i, In i l -> 0 <= i < NUM_BANDS) ->
  forall (x y : float) (p : EQProcessor) (c : Z),
    0 <= c < NUM_BANDS ->
    fst (cascade 0 l (x, snd (run_band p c y 1))) = fst (cascade 0 l (x, p)) /\
    snd (cascade 0 l (x, snd (run_band p c y 1)))
    = snd (run_band (snd (cascade 0 l (x, p))) c y 1) /\
    fst (run_band (snd (cascade 0 l (x, p))) c y 1) = fst (run_band p c y 1).
Proof.
  induction l as [|b l IH]; intros Hl x y p c Hc.
  - cbn. auto.
  - assert (Hb : 0 <= b < NUM_BANDS) by (apply Hl; now left).
    assert (Hl' : forall i, In i l -> 0 <= i < NUM_BANDS)
      by (intros i Hi; apply Hl; now right).
    destruct (run_band_commute p b c x y Hb Hc) as (C1 & C2 & C3).
    rewrite !cascade_cons.
    assert (Eq : run_band (snd (run_band p c y 1)) b x 0
                 = (fst (run_band p b x 0),
                    snd (run_band (snd (run_band p b x 0)) c y 1)))
      by (rewrite <- C1, <- C3; apply surjective_pairing).
    rewrite Eq. clear Eq C1 C3.
    destruct (run_band p b x 0) as [x1 pa]. cbn [fst snd] in *.
    destruct (IH Hl' x1 y pa c Hc) as (I1 & I2 & I3).
    rewrite I1, I2, I3, C2. auto.
Qed.

(** The band loop of [process] is the cascade on the left sample followed
    by the cascade on the right sample. *)
Lemma stereo_is_two_passes (l : list Z) :
  (forall i, In i l -> 0 <= i < NUM_BANDS) ->
  forall (x y : float) (p : EQProcessor),
    cascade_stereo l (x, y, p)
    = (fst (cascade 0 l (x, p)),
       fst (cascade 1 l (y, snd (cascade 0 l (x, p)))),
       snd (cascade 1 l (y, snd (cascade 0 l (x, p))))).
Proof.
  induction l as [|b l IH]; intros Hl x y p; [reflexivity|].
  assert (Hb : 0 <= b < NUM_BANDS) by (apply Hl; now left).
  assert (Hl' : forall i, In i l -> 0 <= i < NUM_BANDS)
    by (intros i Hi; apply Hl; now right).
  change (cascade_stereo (b :: l) (x, y, p))
    with (cascade_stereo l
            (let (l', p1) := run_band p b x 0 in
             let (r', p2) := run_band p1 b y 1 in (l', r', p2))).
  rewrite !cascade_cons.
  destruct (run_band p b x 0) as [x1 pa] eqn:Ra.
  destruct (run_band pa b y 1) as [y1 pb] eqn:Rb.
  rewrite (IH Hl').
  destruct (right_step_through_left_pass l Hl' x1 y pa b Hb)
    as (I1 & I2 & I3).
  rewrite Rb in I1, I2, I3. cbn [fst snd] in I1, I2, I3.
  rewrite I1, I2, <- I3.
  now rewrite <- surjective_pairing.
Qed.

End Block.

(** ** [processBlock] against the per-sample calls *)

Section Streams.
Context {A : Arith}.

(** [processMono] called on the samples of [xs] in turn. *)
Fixpoint processMono_stream (p : EQProcessor) (xs : list float)
  : list float * EQProcessor :=
  match xs with
  | [] => ([], p)
  | x :: t =>
    let (y, p1) := processMono p x in
    let (ys, p2) := processMono_stream p1 t in
    (y :: ys, p2)
  end.

(** [process] called on the frames in turn. *)
Fixpoint process_stream (p : EQProcessor) (frames : list (float * float))
  : list (float * float) * EQProcessor :=
  match frames with
  | [] => ([], p)
  | (l, r) :: t =>
    let '(l', r', p1) := process p l r in
    let (out, p2) := process_stream p1 t in
    ((l', r') :: out, p2)
  end.

(** Frames laid out as an interleaved buffer: left, right, left, ... *)
Definition interleave (frames : list (float * float)) : list float :=
  flat_map (fun lr => [fst lr; snd lr]) frames.

Lemma buf_get_app_at (pre rest : list float) (x : float) :
  buf_get (pre ++ x :: rest) (Z.of_nat (length pre)) = x.
Proof.
  unfold buf_get, FFT.get.
  rewrite Z_N_nat, Nat2Z.id, app_nth2, Nat.sub_diag by lia. reflexivity.
Qed.

Lemma set_nth_app_at (pre rest : list float) (x y : float) :
  FFT.set_nth (pre ++ x :: rest) (length pre) y = pre ++ y :: rest.
Proof.
  induction pre as [|h pre IH]; [reflexivity|].
  cbn [app length FFT.set_nth]. now rewrite IH.
Qed.

Lemma buf_set_app_at (pre rest : list float) (x y : float) :
  buf_set (pre ++ x :: rest) (Z.of_nat (length pre)) y = pre ++ y :: rest.
Proof.
  unfold buf_set, FFT.set. rewrite Z_N_nat, Nat2Z.id. apply set_nth_app_at.
Qed.

Lemma buf_get_set_other (buffer : list float) (i j : Z) (v : float) :
  0 <= i -> 0 <= j -> i <> j ->
  buf_get (buf_set buffer i v) j = buf_get buffer j.
Proof.
  intros Hi Hj Hne. unfold buf_get, buf_set.
  apply FFT_facts.get_set_other. lia.
Qed.

Lemma length_buf_set (buffer : list float) (i : Z) (v : float) :
  length (buf_set buffer i v) = length buffer.
Proof. unfold buf_set, FFT.set. apply FFT_facts.length_set_nth. Qed.

Lemma processMono_stream_bypassed (xs : list float) :
  forall p, bypass_ p = true -> processMono_stream p xs = (xs, p).
Proof.
  induction xs as [|x t IH]; intros p Hb; [reflexivity|].
  cbn [processMono_stream]. unfold processMono at 1. rewrite Hb.
  now rewrite (IH p Hb).
Qed.

Lemma process_stream_bypassed (frames : list (float * float)) :
  forall p, bypass_ p = true -> process_stream p frames = (frames, p).
Proof.
  induction frames as [|[l r] t IH]; intros p Hb; [reflexivity|].
  cbn [process_stream]. unfold process at 1. rewrite Hb.
  now rewrite (IH p Hb).
Qed.

(** One frame of a one-channel block. *)
Lemma channel_loop_mono (frame : Z) (buffer : list float) (p : EQProcessor) :
  channel_loop 2 0 frame 1 (buffer, p)
  = (buf_set buffer frame
       (fst (fold_left processMono_band bands (buf_get buffer frame, p))),
     snd (fold_left processMono_band bands (buf_get buffer frame, p))).
Proof.
  cbn [channel_loop]. change ((0 <? 1) && (0 <? 2)) with true. cbv iota.
  rewrite Z.mul_1_r, Z.add_0_r.
  change (block_band 0) with processMono_band.
  destruct (fold_left processMono_band bands (buf_get buffer frame, p))
    as [s p'].
  change ((0 + 1 <? 1) && (0 + 1 <? 2)) with false. reflexivity.
Qed.

Lemma frame_loop_mono (xs : list float) :
  forall (pre : list float) (p : EQProcessor),
    bypass_ p = false ->
    frame_loop (length xs) (Z.of_nat (length pre)) 1 (pre ++ xs, p)
    = (pre ++ fst (processMono_stream p xs),
       snd (processMono_stream p xs)).
Proof.
  induction xs as [|x t IH]; intros pre p Hb.
  - reflexivity.
  - cbn [length frame_loop processMono_stream].
    rewrite channel_loop_mono, buf_get_app_at, buf_set_app_at.
    unfold processMono at 1 2. rewrite Hb.
    pose proof (block_bands_same_design 0 bands bands_in_range x p) as Hd.
    change (block_band 0) with processMono_band in Hd.
    destruct (fold_left processMono_band bands (x, p)) as [y p1].
    cbn [fst snd] in *.
    assert (Hb1 : bypass_ p1 = false)
      by (destruct Hd as (_ & -> & _); exact Hb).
    replace (Z.of_nat (length pre) + 1) with (Z.of_nat (length (pre ++ [y])))
      by (rewrite length_app; cbn [length]; lia).
    replace (pre ++ y :: t) with ((pre ++ [y]) ++ t)
      by (now rewrite <- app_assoc).
    rewrite (IH (pre ++ [y]) p1 Hb1).
    destruct (processMono_stream p1 t) as [ys p2]. cbn [fst snd].
    now rewrite <- app_assoc.
Qed.

(** X18. On a one-channel buffer [processBlock] is [processMono] called on
    the samples one after the other: the same output samples and the same
    processor afterwards. *)
Theorem processBlock_mono_is_processMono (p : EQProcessor) (xs : list float) :
  processBlock p xs (Z.of_nat (length xs)) 1 = processMono_stream p xs.
Proof.
  unfold processBlock. destruct (bypass_ p) eqn:Hb.
  - now rewrite processMono_stream_bypassed.
  - rewrite Nat2Z.id.
    etransitivity; [exact (frame_loop_mono xs [] p Hb)|]. cbn [app].
    now destruct (processMono_stream p xs).
Qed.

Lemma filter_bands_in_range (f : Z -> bool) (i : Z) :
  In i (filter f bands) -> 0 <= i < NUM_BANDS.
Proof. intros H. apply filter_In in H as [H _]. now apply In_bands. Qed.

(** One frame of a two-channel block. *)
Lemma channel_loop_stereo (frame : Z) (buffer : list float)
    (p : EQProcessor) :
  0 <= frame ->
  let st := fold_left process_band bands
              (buf_get buffer (frame * 2), buf_get buffer (frame * 2 + 1), p)
  in
  channel_loop 2 0 frame 2 (buffer, p)
  = (buf_set (buf_set buffer (frame * 2) (fst (fst st)))
       (frame * 2 + 1) (snd (fst st)),
     snd st).
Proof.
  intros Hf st. subst st. cbn [channel_loop].
  change ((0 <? 2) && (0 <? 2)) with true. cbv iota.
  change ((0 + 1 <? 2) && (0 + 1 <? 2)) with true. cbv iota.
  rewrite Z.add_0_r. change (0 + 1) with 1.
  set (g := gains_ p).
  set (act := filter (fun i => lt d_0_01 (fabs (at5 g i))) bands).
  rewrite (block_loop_is_cascade g 0 bands _ p eq_refl). fold act.
  rewrite (stereo_loop_is_cascade g bands _ _ p eq_refl). fold act.
  rewrite (stereo_is_two_passes act (filter_bands_in_range _)).
  cbn [fst snd].
  pose proof (block_bands_same_design 0 bands bands_in_range
                (buf_get buffer (frame * 2)) p) as Hd.
  rewrite (block_loop_is_cascade g 0 bands _ p eq_refl) in Hd. fold act in Hd.
  destruct (cascade 0 act (buf_get buffer (frame * 2), p)) as [s0 p1].
  cbn [fst snd] in *.
  assert (Hg : gains_ p1 = g) by (destruct Hd as (_ & _ & _ & -> & _); reflexivity).
  rewrite buf_get_set_other by lia.
  rewrite (block_loop_is_cascade g 1 bands _ p1 Hg). fold act.
  destruct (cascade 1 act (buf_get buffer (frame * 2 + 1), p1)) as [s1 p2].
  reflexivity.
Qed.

Lemma frame_loop_stereo (frames : list (float * float)) :
  forall (pre : list (float * float)) (p : EQProcessor),
    bypass_ p = false ->
    frame_loop (length frames) (Z.of_nat (length pre)) 2
      (interleave pre ++ interleave frames, p)
    = (interleave pre ++ interleave (fst (process_stream p frames)),
       snd (process_stream p frames)).
Proof.
  induction frames as [|[l r] t IH]; intros pre p Hb.
  - reflexivity.
  - cbn [length frame_loop process_stream].
    assert (Hlen : length (interleave pre) = (2 * length pre)%nat).
    { clear. induction pre as [|a pre IHp]; [reflexivity|].
      unfold interleave in *. cbn [flat_map app length]. rewrite IHp. lia. }
    rewrite channel_loop_stereo by lia.
    change (interleave ((l, r) :: t)) with (l :: r :: interleave t).
    replace (Z.of_nat (length pre) * 2)
      with (Z.of_nat (length (interleave pre))) by lia.
    rewrite buf_get_app_at.
    replace (interleave pre ++ l :: r :: interleave t)
      with ((interleave pre ++ [l]) ++ r :: interleave t)
      by (now rewrite <- app_assoc).
    replace (Z.of_nat (length (interleave pre)) + 1)
      with (Z.of_nat (length (interleave pre ++ [l])))
      by (rewrite length_app; cbn [length]; lia).
    rewrite buf_get_app_at.
    unfold process at 1 2. rewrite Hb.
    pose proof (process_bands_same_design bands bands_in_range l r p) as Hd.
    destruct (fold_left process_band bands (l, r, p)) as [[l' r'] p1].
    cbn [fst snd] in *.
    assert (Hb1 : bypass_ p1 = false)
      by (destruct Hd as (_ & -> & _); exact Hb).
    replace ((interleave pre ++ [l]) ++ r :: interleave t)
      with (interleave pre ++ l :: r :: interleave t)
      by (now rewrite <- app_assoc).
    rewrite length_app. cbn [length].
    replace (Z.of_nat (length (interleave pre) + 1))
      with (Z.of_nat (length (interleave pre)) + 1) by lia.
    rewrite buf_set_app_at.
    replace (interleave pre ++ l' :: r :: interleave t)
      with ((interleave pre ++ [l']) ++ r :: interleave t)
      by (now rewrite <- app_assoc).
    replace (Z.of_nat (length (interleave pre)) + 1)
      with (Z.of_nat (length (interleave pre ++ [l'])))
      by (rewrite length_app; cbn [length]; lia).
    rewrite buf_set_app_at.
    replace ((interleave pre ++ [l']) ++ r' :: interleave t)
      with (interleave (pre ++ [(l', r')]) ++ interleave t).
    2:{ unfold interleave. rewrite flat_map_app. cbn [flat_map fst snd app].
        now rewrite <- !app_assoc. }
    replace (Z.of_nat (length pre) + 1)
      with (Z.of_nat (length (pre ++ [(l', r')])))
      by (rewrite length_app; cbn [length]; lia).
    rewrite (IH (pre ++ [(l', r')]) p1 Hb1).
    destruct (process_stream p1 t) as [out p2]. cbn [fst snd].
    unfold interleave. rewrite flat_map_app. cbn [flat_map fst snd app].
    now rewrite <- !app_assoc.
Qed.

(** X19. On an interleaved two-channel buffer [processBlock], which runs
    each frame's left sample through all the bands and then its right
    sample, gives what [process], which alternates the two samples band by
    band, gives when called on the frames one after the other: the same
    output and the same processor afterwards. *)
Theorem processBlock_stereo_is_process
    (p : EQProcessor) (frames : list (float * float)) :
  processBlock p (interleave frames) (Z.of_nat (length frames)) 2
  = (interleave (fst (process_stream p frames)),
     snd (process_stream p frames)).
Proof.
  unfold processBlock. destruct (bypass_ p) eqn:Hb.
  - now rewrite process_stream_bypassed.
  - rewrite Nat2Z.id.
    exact (frame_loop_stereo frames [] p Hb).
Qed.

(** *** What [processBlock] leaves alone *)

Lemma channel_loop_cells (turns : nat) :
  forall (ch frame numChannels : Z) (buffer : list float) (p : EQProcessor)
         (j : Z),
    0 <= ch -> 0 <= frame -> 0 <= j ->
    (forall c, ch <= c < 2 -> c < numChannels ->
               j <> frame * numChannels + c) ->
    buf_get (fst (channel_loop turns ch frame numChannels (buffer, p))) j
    = buf_get buffer j.
Proof.
  induction turns as [|turns IH]; intros ch frame n buffer p j Hc Hf Hj Hne.
  - reflexivity.
  - cbn [channel_loop].
    destruct ((ch <? n) && (ch <? 2)) eqn:E; [|reflexivity].
    apply andb_true_iff in E as [E1 E2].
    apply Z.ltb_lt in E1. apply Z.ltb_lt in E2.
    destruct (fold_left (block_band ch) bands
                (buf_get buffer (frame * n + ch), p)) as [s p1].
    rewrite IH by (try lia; intros c Hc1 Hc2; apply Hne; lia).
    apply buf_get_set_other; [nia | lia |].
    intros Heq. apply (Hne ch); lia.
Qed.

Lemma channel_loop_length (turns : nat) :
  forall (ch frame numChannels : Z) (buffer : list float) (p : EQProcessor),
    length (fst (channel_loop turns ch frame numChannels (buffer, p)))
    = length buffer.
Proof.
  induction turns as [|turns IH]; intros ch frame n buffer p.
  - reflexivity.
  - cbn [channel_loop].
    destruct ((ch <? n) && (ch <? 2)); [|reflexivity].
    destruct (fold_left (block_band ch) bands
                (buf_get buffer (frame * n + ch), p)) as [s p1].
    rewrite IH. apply length_buf_set.
Qed.

Lemma frame_loop_cells (count : nat) :
  forall (frame numChannels : Z) (buffer : list float) (p : EQProcessor)
         (j : Z),
    0 <= frame -> 0 <= j ->
    (forall f c, frame <= f < frame + Z.of_nat count -> 0 <= c < 2 ->
                 c < numChannels -> j <> f * numChannels + c) ->
    buf_get (fst (frame_loop count frame numChannels (buffer, p))) j
    = buf_get buffer j.
Proof.
  induction count as [|count IH]; intros frame n buffer p j Hf Hj Hne.
  - reflexivity.
  - cbn [frame_loop].
    pose proof (channel_loop_cells 2 0 frame n buffer p j
                  ltac:(lia) Hf Hj) as Hc.
    destruct (channel_loop 2 0 frame n (buffer, p)) as [b1 p1].
    cbn [fst] in Hc.
    rewrite IH by (try lia; intros f c H1 H2 H3; apply Hne; lia).
    apply Hc. intros c H1 H2. apply Hne; lia.
Qed.

Lemma frame_loop_length (count : nat) :
  forall (frame numChannels : Z) (buffer : list float) (p : EQProcessor),
    length (fst (frame_loop count frame numChannels (buffer, p)))
    = length buffer.
Proof.
  induction count as [|count IH]; intros frame n buffer p.
  - reflexivity.
  - cbn [frame_loop].
    pose proof (channel_loop_length 2 0 frame n buffer p) as Hc.
    destruct (channel_loop 2 0 frame n (buffer, p)) as [b1 p1].
    cbn [fst] in Hc. now rewrite IH.
Qed.

Lemma frame_loop_no_channel (count : nat) :
  forall (frame numChannels : Z) (st : list float * EQProcessor),
    numChannels <= 0 -> frame_loop count frame numChannels st = st.
Proof.
  induction count as [|count IH]; intros frame n st Hn; [reflexivity|].
  cbn [frame_loop channel_loop].
  assert (E : (0 <? n) = false) by (apply Z.ltb_ge; lia).
  rewrite E. cbn [andb]. now apply IH.
Qed.

(** X20. [processBlock] filters the first two channels of the first
    [numFrames] frames and touches nothing else: the buffer keeps its
    length, the samples of a third or later channel and those past the last
    frame are as before, and with the bypass on, or no frame or no channel
    to process, the buffer and the processor are unchanged. *)
Theorem processBlock_touches_two_channels
    (p : EQProcessor) (buffer : list float) (numFrames numChannels : Z) :
  length (fst (processBlock p buffer numFrames numChannels))
  = length buffer /\
  (forall j, 0 <= j -> 0 < numChannels ->
     numFrames * numChannels <= j \/ 2 <= j mod numChannels ->
     buf_get (fst (processBlock p buffer numFrames numChannels)) j
     = buf_get buffer j) /\
  (bypass_ p = true \/ numFrames <= 0 \/ numChannels <= 0 ->
   processBlock p buffer numFrames numChannels = (buffer, p)).
Proof.
  unfold processBlock. destruct (bypass_ p); [cbn; auto|].
  split; [apply frame_loop_length|]. split.
  - intros j Hj Hn Hout. apply frame_loop_cells; [lia | exact Hj |].
    intros f c Hf Hc Hcn Heq.
    destruct Hout as [Hout|Hout].
    + assert (f < numFrames) by lia. nia.
    + subst j. rewrite Z.add_comm, Z.mod_add in Hout by lia.
      rewrite Z.mod_small in Hout by lia. lia.
  - intros [H|[H|H]].
    + discriminate.
    + replace (Z.to_nat numFrames) with O by lia. reflexivity.
    + now apply frame_loop_no_channel.
Qed.

End Streams.

End EQ_rest_facts.

(* ================================================================== *)
(** * The plugin processor: parameter changes ([vst/plugin_processor.cpp],
      [vst/plugin_ids.hpp]) *)
(* ================================================================== *)

Module SpectrumEQ_params.
Import IEEE EQ.
Local Open Scope Z_scope.

Definition d_0_5 : double := mkDouble 0x3fe0000000000000 eq_refl.

(** [enum ParamID]: gain, frequency and Q of band 1 to 5, then bypass. *)
Definition kBand1Gain : Z := 0.
Definition kBand1Freq : Z := 1.
Definition kBand1Q : Z := 2.
Definition kBypass : N := 15.

(** [static_cast<Steinberg::Vst::ParamID>] of an [int]: its value modulo
    [2^32]. *)
Definition to_ParamID (v : Z) : N := Z.to_N (v mod 4294967296).

Definition getBandGainParam (band : Z) : N := to_ParamID (kBand1Gain + band * 3).
Definition getBandFreqParam (band : Z) : N := to_ParamID (kBand1Freq + band * 3).
Definition getBandQParam (band : Z) : N := to_ParamID (kBand1Q + band * 3).

(** The host's [IParamValueQueue], by the three members the processor
    calls; [getPoint index] is the sample offset and the value when the
    call answers [kResultTrue]. *)
Record IParamValueQueue : Type := mkQueue {
  getParameterId : N;
  getPointCount : Z;
  getPoint : Z -> option (Z * double)
}.

(** The host's [IParameterChanges]: [getParameterCount] queues, each of
    which [getParameterData] may hand out as a null pointer. *)
Definition IParameterChanges : Type := list (option IParamValueQueue).

Section WithArith.
Context {A : Arith}.

(** The body of the innermost [if]: the parameter [paramId] takes the
    normalized [value]. *)
Definition apply_change (eq_ : EQProcessor) (paramId : N) (value : double)
  : EQProcessor :=
  if (paramId =? kBypass)%N then setBypass eq_ (lt d_0_5 value)
  else
    let band := Z.of_N (paramId / 3) in
    let paramType := Z.of_N (paramId mod 3) in
    if band <? NUM_BANDS then
      match paramType with
      | 0 =>
        setBandGain eq_ band
          (add MIN_GAIN (mul value (sub MAX_GAIN MIN_GAIN)))
      | 1 =>
        let logMin := log10 MIN_FREQ in
        let logMax := log10 MAX_FREQ in
        let freq := pow d_10 (add logMin (mul value (sub logMax logMin))) in
        setBandFrequency eq_ band freq
      | 2 =>
        let logMin := log10 MIN_Q in
        let logMax := log10 MAX_Q in
        let q := pow d_10 (add logMin (mul value (sub logMax logMin))) in
        setBandQ eq_ band q
      | _ => eq_
      end
    else eq_.

(** One turn of the loop over the queues. *)
Definition process_queue (eq_ : EQProcessor)
    (paramQueue : option IParamValueQueue) : EQProcessor :=
  match paramQueue with
  | None => eq_
  | Some queue =>
    let paramId := getParameterId queue in
    let numPoints := getPointCount queue in
    if 0 <? numPoints then
      match getPoint queue (numPoints - 1) with
      | Some (_, value) => apply_change eq_ paramId value
      | None => eq_
      end
    else eq_
  end.

(** [void processParameterChanges(IParameterChanges* paramChanges)], on
    the member [eq_]; a null pointer is [None]. *)
Definition processParameterChanges (eq_ : EQProcessor)
    (paramChanges : option IParameterChanges) : EQProcessor :=
  match paramChanges with
  | None => eq_
  | Some queues => fold_left process_queue queues eq_
  end.

End WithArith.
End SpectrumEQ_params.

Module SpectrumEQ_rest_facts.
Import IEEE IEEE_facts EQ EQ_facts SpectrumEQ SpectrumEQ_facts.
Import EQ_rest EQ_rest_facts SpectrumEQ_params.

Section WithArith.
Context {A : Arith}.

(** ** [setState] on any stream *)

Lemma setter_keeps_memory (p : EQProcessor) (band : Z) (v : double) :
  (sampleRate_ (setBandGain p band v) = sampleRate_ p /\
   all_delay_state (setBandGain p band v) = all_delay_state p) /\
  (sampleRate_ (setBandFrequency p band v) = sampleRate_ p /\
   all_delay_state (setBandFrequency p band v) = all_delay_state p) /\
  (sampleRate_ (setBandQ p band v) = sampleRate_ p /\
   all_delay_state (setBandQ p band v) = all_delay_state p).
Proof.
  unfold setBandGain, setBandFrequency, setBandQ.
  destruct ((band >=? 0)%Z && (band <? NUM_BANDS)%Z) eqn:E; [|auto].
  assert (Hb : (0 <= band < NUM_BANDS)%Z).
  { apply andb_true_iff in E as [E1 E2].
    apply Z.geb_le in E1. apply Z.ltb_lt in E2. lia. }
  rewrite !updateFilter_delay by exact Hb. cbn. auto.
Qed.

Lemma apply_band_keeps (q : EQProcessor) (band : Z) (g f x : double) :
  sampleRate_ (apply_band q band g f x) = sampleRate_ q /\
  all_delay_state (apply_band q band g f x) = all_delay_state q /\
  (in_domain q -> in_domain (apply_band q band g f x)).
Proof.
  unfold apply_band.
  destruct (setter_keeps_memory q band g) as ((S1 & D1) & _).
  destruct (setter_keeps_memory (setBandGain q band g) band f)
    as (_ & (S2 & D2) & _).
  destruct (setter_keeps_memory
              (setBandFrequency (setBandGain q band g) band f) band x)
    as (_ & _ & (S3 & D3)).
  split; [congruence|]. split; [congruence|].
  intros H. apply setBandQ_in_domain, setBandFrequency_in_domain.
  now apply setBandGain_in_domain.
Qed.

Lemma setState_bands_keeps (l : list Z) :
  forall (q : EQProcessor) (s : IBStream),
    sampleRate_ (fst (setState_bands l q s)) = sampleRate_ q /\
    bypass_ (fst (setState_bands l q s)) = bypass_ q /\
    all_delay_state (fst (setState_bands l q s)) = all_delay_state q /\
    (in_domain q -> in_domain (fst (setState_bands l q s))).
Proof.
  induction l as [|band l IH]; intros q s; [cbn; auto|].
  cbn [setState_bands].
  destruct (readDouble s) as [[g s1]|]; [|cbn; auto].
  destruct (readDouble s1) as [[f s2]|]; [|cbn; auto].
  destruct (readDouble s2) as [[x s3]|]; [|cbn; auto].
  fold (apply_band q band g f x).
  destruct (apply_band_keeps q band g f x) as (S1 & D1 & I1).
  destruct (IH (apply_band q band g f x) s3) as (S2 & B2 & D2 & I2).
  split; [congruence|]. split.
  { rewrite B2. unfold apply_band, setBandQ, setBandFrequency, setBandGain.
    destruct ((band >=? 0)%Z && (band <? NUM_BANDS)%Z); reflexivity. }
  split; [congruence|]. auto.
Qed.

(** X21. Whatever [setState] is given (a null stream, a truncated one,
    bytes that decode to NaN or to values far out of range) and whether it
    succeeds or fails, the processor it leaves has every band inside its
    domain if it had before, the same sample rate and the same filter delay
    memory: loading a state never resets or corrupts the running filters. *)
Theorem setState_keeps_domain_and_memory
    (q : EQProcessor) (state : option IBStream) :
  (in_domain q -> in_domain (snd (setState q state))) /\
  sampleRate_ (snd (setState q state)) = sampleRate_ q /\
  all_delay_state (snd (setState q state)) = all_delay_state q.
Proof.
  unfold setState.
  destruct state as [s|]; [|cbn; auto].
  destruct (readInt32 s) as [[version s0]|]; [|cbn; auto].
  destruct (setState_bands_keeps bands q s0) as (S1 & _ & D1 & I1).
  destruct (setState_bands bands q s0) as [q1 [s1|]]; cbn [fst snd] in *;
    [|auto].
  destruct (readInt32 s1) as [[bypass s2]|]; cbn [fst snd]; auto.
Qed.

(** ** [setState] on a stream that holds the whole layout *)

Lemma dfield_firstn (s : list byte) (n off : nat) :
  (off + 8 <= n)%nat -> dfield (firstn n s) off = dfield s off.
Proof.
  intros H. unfold dfield.
  rewrite skipn_firstn_comm, firstn_firstn.
  now replace (Nat.min 8 (n - off)) with 8%nat by lia.
Qed.

Lemma setState_complete (q : EQProcessor) (s : IBStream) :
  (128 <= length s)%nat ->
  setState q (Some s)
  = (kResultOk,
     setBypass (fst (setState_bands bands q (skipn 4 s)))
       (negb (int32_of_bits (le_value (firstn 4 (skipn 124 s))) =? 0)%Z)).
Proof.
  intros H. unfold setState, readInt32.
  rewrite readRaw_long by lia.
  pose proof (setState_bands_spec 5 0 q (skipn 4 s) ltac:(lia)) as S.
  cbv zeta in S. rewrite <- bands_seq in S.
  destruct S as (_ & S2 & _).
  rewrite length_skipn in S2. specialize (S2 ltac:(lia)).
  destruct (setState_bands bands q (skipn 4 s)) as [q1 res].
  cbn [fst snd] in *. rewrite S2.
  rewrite readRaw_long by (rewrite !length_skipn; lia).
  rewrite skipn_skipn. reflexivity.
Qed.

(** X22. On every stream of 128 bytes or more [setState] succeeds.  Band
    [b] then holds the three little-endian doubles found at offsets [4 + 24
    b], [12 + 24 b] and [20 + 24 b], each clamped to its domain; the bypass
    flag is on exactly when the [int32] at offset 124 is not zero. *)
Theorem setState_complete_stream (q : EQProcessor) (s : IBStream) :
  (128 <= length s)%nat ->
  fst (setState q (Some s)) = kResultOk /\
  (forall band : nat, (band < 5)%nat ->
     getBandGain (snd (setState q (Some s))) (Z.of_nat band)
     = clampG (dfield s (4 + 24 * band)) /\
     getBandFrequency (snd (setState q (Some s))) (Z.of_nat band)
     = clampF (dfield s (12 + 24 * band)) /\
     getBandQ (snd (setState q (Some s))) (Z.of_nat band)
     = clampQ (dfield s (20 + 24 * band))) /\
  isBypassed (snd (setState q (Some s)))
  = negb (int32_of_bits (le_value (firstn 4 (skipn 124 s))) =? 0)%Z.
Proof.
  intros H. rewrite (setState_complete q s H). cbn [fst snd].
  split; [reflexivity|]. split; [|reflexivity].
  intros band Hb.
  pose proof (setState_bands_spec 5 0 q (skipn 4 s) ltac:(lia)) as S.
  cbv zeta in S. rewrite <- bands_seq in S.
  destruct S as (_ & _ & _ & _ & _ & Sband).
  destruct (Sband band Hb) as [S1 _].
  rewrite length_skipn in S1.
  destruct S1 as (G & F & Q); [lia | lia |].
  assert (Hr : (0 <= Z.of_nat band < NUM_BANDS)%Z)
    by (unfold NUM_BANDS; lia).
  unfold getBandGain, getBandFrequency, getBandQ, setBypass.
  rewrite (in_range_true _ Hr). cbn [gains_ frequencies_ qFactors_].
  rewrite G, F, Q, !dfield_skipn, Nat.sub_0_r.
  replace (4 + (24 * band + 8))%nat with (12 + 24 * band)%nat by lia.
  replace (4 + (24 * band + 16))%nat with (20 + 24 * band)%nat by lia.
  auto.
Qed.

Lemma setState_bands_prefix (n : nat) :
  forall (base : nat) (q : EQProcessor) (s : IBStream) (k : nat),
    (24 * n <= k)%nat -> (k <= length s)%nat ->
    fst (setState_bands (map Z.of_nat (seq base n)) q (firstn k s))
    = fst (setState_bands (map Z.of_nat (seq base n)) q s).
Proof.
  induction n as [|n IH]; intros base q s k Hk Hs; [reflexivity|].
  cbn [seq map].
  rewrite !read_band_long by (rewrite ?length_firstn; lia).
  rewrite !dfield_firstn by lia.
  rewrite skipn_firstn_comm.
  apply IH; [lia | rewrite length_skipn; lia].
Qed.

(** X23. [setState] never looks at the version number it reads, nor at
    anything after the 128 bytes of the layout: two streams that differ only
    in their first four bytes, or only past byte 128, load to the same
    result. *)
Theorem setState_ignores_version_and_tail
    (q : EQProcessor) (version version' body tail : list byte) :
  length version = 4%nat -> length version' = 4%nat ->
  length body = 124%nat ->
  setState q (Some (version' ++ body)) = setState q (Some (version ++ body)) /\
  setState q (Some (version ++ body ++ tail))
  = setState q (Some (version ++ body)).
Proof.
  intros Hv Hv' Hb. split.
  - unfold setState, readInt32.
    now rewrite !readRaw_app by assumption.
  - rewrite !setState_complete by (rewrite !length_app; lia).
    f_equal. f_equal.
    + replace (skipn 4 (version ++ body ++ tail)) with (body ++ tail)
        by (rewrite skipn_app, skipn_all2, Hv by lia; reflexivity).
      replace (skipn 4 (version ++ body)) with body
        by (rewrite skipn_app, skipn_all2, Hv by lia;
            cbn [app Nat.sub skipn]; reflexivity).
      rewrite bands_seq.
      replace body with (firstn 124 (body ++ tail)) at 2
        by (rewrite firstn_app, firstn_all2, Hb by lia;
            now rewrite Nat.sub_diag, app_nil_r).
      symmetry. apply setState_bands_prefix; [lia|].
      rewrite length_app. lia.
    + do 3 f_equal.
      assert (E : forall x : list byte,
                skipn 124 (version ++ x) = skipn 120 x).
      { intros x. rewrite skipn_app, Hv.
        rewrite (skipn_all2 version) by lia. reflexivity. }
      rewrite !E. rewrite skipn_app, Hb.
      change (124 - 120)%nat with 4%nat.
      rewrite firstn_app, length_skipn, Hb.
      change (4 - (124 - 120))%nat with 0%nat.
      change (skipn (120 - 124) tail) with tail.
      cbn [firstn]. now rewrite app_nil_r.
Qed.

End WithArith.

(** ** Parameter changes *)

Section Params.
Context {A : Arith}.
Local Open Scope Z_scope.

Lemma apply_change_call (eq_ : EQProcessor) (paramId : N) (value : double) :
  apply_change eq_ paramId value = eq_ \/
  call eq_ (apply_change eq_ paramId value).
Proof.
  unfold apply_change.
  destruct (paramId =? kBypass)%N; [right; constructor|].
  destruct (Z.of_N (paramId / 3) <? NUM_BANDS); [|now left].
  destruct (Z.of_N (paramId mod 3)) as [|[t|[t|t|]|]|t];
    try (now left); right; constructor.
Qed.

Lemma process_queue_call (eq_ : EQProcessor)
    (paramQueue : option IParamValueQueue) :
  process_queue eq_ paramQueue = eq_ \/
  call eq_ (process_queue eq_ paramQueue).
Proof.
  unfold process_queue. destruct paramQueue as [queue|]; [|now left].
  destruct (0 <? getPointCount queue); [|now left].
  destruct (getPoint queue (getPointCount queue - 1)) as [[o v]|];
    [|now left].
  apply apply_change_call.
Qed.

Lemma processParameterChanges_calls (eq_ : EQProcessor)
    (paramChanges : option IParameterChanges) :
  calls eq_ (processParameterChanges eq_ paramChanges).
Proof.
  unfold processParameterChanges.
  destruct paramChanges as [queues|]; [|constructor].
  assert (G : forall p, calls eq_ p -> calls eq_ (fold_left process_queue queues p)).
  { induction queues as [|q queues IH]; intros p Hp; [exact Hp|].
    cbn [fold_left]. apply IH.
    destruct (process_queue_call p q) as [->|Hc]; [exact Hp|].
    now apply (calls_then _ p). }
  apply G. constructor.
Qed.

(** X24. The processor decodes a parameter id the way the id helpers encode
    it: a change of [getBandGainParam band], [getBandFreqParam band] or
    [getBandQParam band] calls the gain, frequency or Q setter of that band,
    a change of [kBypass] switches the bypass on for a value above 0.5 and
    off otherwise, and of a queue only the last point counts. *)
Theorem parameter_ids_decode (eq_ : EQProcessor) (band : Z)
    (queue : IParamValueQueue) (offset : Z) (value : double) :
  0 <= band < NUM_BANDS ->
  0 < getPointCount queue ->
  getPoint queue (getPointCount queue - 1) = Some (offset, value) ->
  (getParameterId queue = getBandGainParam band ->
   processParameterChanges eq_ (Some [Some queue])
   = setBandGain eq_ band
       (add MIN_GAIN (mul value (sub MAX_GAIN MIN_GAIN)))) /\
  (getParameterId queue = getBandFreqParam band ->
   processParameterChanges eq_ (Some [Some queue])
   = setBandFrequency eq_ band
       (pow d_10 (add (log10 MIN_FREQ)
                      (mul value (sub (log10 MAX_FREQ) (log10 MIN_FREQ)))))) /\
  (getParameterId queue = getBandQParam band ->
   processParameterChanges eq_ (Some [Some queue])
   = setBandQ eq_ band
       (pow d_10 (add (log10 MIN_Q)
                      (mul value (sub (log10 MAX_Q) (log10 MIN_Q)))))) /\
  (getParameterId queue = kBypass ->
   processParameterChanges eq_ (Some [Some queue])
   = setBypass eq_ (lt d_0_5 value)).
Proof.
  intros Hb Hc Hp.
  assert (E : processParameterChanges eq_ (Some [Some queue])
              = apply_change eq_ (getParameterId queue) value).
  { cbn [processParameterChanges fold_left process_queue].
    apply Z.ltb_lt in Hc. now rewrite Hc, Hp. }
  rewrite E.
  split; [|split; [|split]]; intros ->; each_band Hb; reflexivity.
Qed.

(** X25. A block of parameter changes acts through the setters only.  It
    keeps every band inside its domain and the filters designed for the
    current values, and it never touches the sample rate or the delay memory
    of the filters; queues that are null, empty, whose last point cannot be
    read, or whose id is 16 or more change nothing. *)
Theorem parameter_changes_keep_domain_and_memory
    (eq_ : EQProcessor) (paramChanges : option IParameterChanges) :
  (in_domain eq_ -> in_domain (processParameterChanges eq_ paramChanges)) /\
  (designed eq_ -> designed (processParameterChanges eq_ paramChanges)) /\
  sampleRate_ (processParameterChanges eq_ paramChanges) = sampleRate_ eq_ /\
  all_delay_state (processParameterChanges eq_ paramChanges)
  = all_delay_state eq_ /\
  (forall queues,
     paramChanges = Some queues ->
     (forall q, In q queues ->
        match q with
        | None => True
        | Some queue =>
          getPointCount queue <= 0 \/
          getPoint queue (getPointCount queue - 1) = None \/
          (16 <= getParameterId queue)%N
        end) ->
     processParameterChanges eq_ paramChanges = eq_).
Proof.
  split.
  { intros H. pose proof (processParameterChanges_calls eq_ paramChanges) as C.
    induction C as [|p q r C IH Hc]; [exact H|].
    eapply call_in_domain; [exact Hc | now apply IH]. }
  split.
  { intros H. pose proof (processParameterChanges_calls eq_ paramChanges) as C.
    induction C as [|p q r C IH Hc]; [exact H|].
    eapply call_designed; [exact Hc | now apply IH]. }
  assert (K : forall p id v,
            sampleRate_ (apply_change p id v) = sampleRate_ p /\
            all_delay_state (apply_change p id v) = all_delay_state p).
  { intros p id v. unfold apply_change.
    destruct (id =? kBypass)%N; [cbn; auto|].
    destruct (Z.of_N (id / 3) <? NUM_BANDS); [|auto].
    destruct (Z.of_N (id mod 3)) as [|[t|[t|t|]|]|t]; auto;
      apply setter_keeps_memory. }
  assert (Q : forall p q,
            sampleRate_ (process_queue p q) = sampleRate_ p /\
            all_delay_state (process_queue p q) = all_delay_state p).
  { intros p q. unfold process_queue. destruct q as [queue|]; [|auto].
    destruct (0 <? getPointCount queue); [|auto].
    destruct (getPoint queue (getPointCount queue - 1)) as [[o v]|]; [|auto].
    apply K. }
  assert (F : forall queues p,
            sampleRate_ (fold_left process_queue queues p) = sampleRate_ p /\
            all_delay_state (fold_left process_queue queues p)
            = all_delay_state p).
  { induction queues as [|q queues IH]; intros p; [auto|].
    cbn [fold_left]. destruct (IH (process_queue p q)) as [I1 I2].
    destruct (Q p q) as [Q1 Q2]. split; congruence. }
  split; [destruct paramChanges; [apply F | reflexivity]|].
  split; [destruct paramChanges; [apply F | reflexivity]|].
  intros queues -> Hq. cbn [processParameterChanges].
  induction queues as [|q queues IH]; [reflexivity|].
  cbn [fold_left].
  assert (E : process_queue eq_ q = eq_).
  { specialize (Hq q (or_introl eq_refl)). unfold process_queue.
    destruct q as [queue|]; [|reflexivity].
    destruct (0 <? getPointCount queue) eqn:E0; [|reflexivity].
    apply Z.ltb_lt in E0.
    destruct Hq as [Hq|[Hq|Hq]]; [lia | now rewrite Hq |].
    destruct (getPoint queue (getPointCount queue - 1)) as [[o v]|];
      [|reflexivity].
    unfold apply_change.
    assert (E1 : (getParameterId queue =? kBypass)%N = false)
      by (apply N.eqb_neq; unfold kBypass; lia).
    rewrite E1.
    assert (E2 : (Z.of_N (getParameterId queue / 3) <? NUM_BANDS) = false).
    { apply Z.ltb_ge. unfold NUM_BANDS.
      assert (5 <= getParameterId queue / 3)%N
        by (apply N.div_le_lower_bound; lia).
      lia. }
    now rewrite E2. }
  rewrite E. apply IH. intros q' Hq'. apply Hq. now right.
Qed.

End Params.

End SpectrumEQ_rest_facts.

(* ================================================================== *)
(** * More on the spectrum analyzer ([src/audio_analyzer.cpp]) *)
(* ================================================================== *)

Module audio_bands_facts.
Import IEEE IEEE_facts audio audio_facts.
Local Open Scope N_scope.

Section WithArith.
Context {A : Arith}.

Lemma band_loop_nth (band : N -> option (double * (N * N))) :
  forall (cnt : nat) (i : N) (table : list (double * (N * N))),
    band_loop band cnt i = Some table ->
    i + N.of_nat cnt <= FFT.two64 ->
    forall (k : nat) (d : double * (N * N)),
      (k < cnt)%nat -> band (i + N.of_nat k) = Some (nth k table d).
Proof.
  induction cnt as [|cnt IH]; intros i table H Hw k d Hk; [lia|].
  cbn [band_loop] in H.
  destruct (band i) as [entry|] eqn:E; [|discriminate].
  destruct (band_loop band cnt (FFT.wadd i 1)) as [rest|] eqn:R;
    [|discriminate].
  injection H as <-.
  destruct k as [|k].
  - rewrite N.add_0_r. exact E.
  - cbn [nth].
    assert (Hn : FFT.wadd i 1 = i + 1)
      by (apply FFT_facts.wadd_small; lia).
    rewrite Hn in R.
    replace (i + N.of_nat (S k)) with (i + 1 + N.of_nat k) by lia.
    apply (IH (i + 1) rest R); lia.
Qed.

(** X26. On the logarithmic scale the band table has no gap: the first bin
    of band [i + 1] is not past the last bin of band [i].  The two are the
    same bin, unless band [i] had no bin of its own and was given [binLow +
    1]. *)
Theorem log_bands_leave_no_gap (sampleRate : N) (config : AnalyzerConfig)
    (bandFrequencies : list double) (bandBins : list (N * N)) (i : N) :
  updateBands sampleRate config = Some (bandFrequencies, bandBins) ->
  useLogScale config = true ->
  numBands config < FFT.two64 ->
  i + 1 < numBands config ->
  fst (FFT.get (0, 0) bandBins (i + 1)) <= snd (FFT.get (0, 0) bandBins i) /\
  (snd (FFT.get (0, 0) bandBins i) = fst (FFT.get (0, 0) bandBins (i + 1)) \/
   snd (FFT.get (0, 0) bandBins i) = fst (FFT.get (0, 0) bandBins i) + 1).
Proof.
  unfold updateBands. intros H Hlog Hn Hi. rewrite Hlog in H.
  set (logMin := log10 (minFrequency config)) in H.
  set (logStep := div (sub _ logMin) _) in H.
  set (binWidth := div _ _) in H.
  destruct (band_loop (log_band logMin logStep binWidth)
              (N.to_nat (numBands config)) 0) as [t|] eqn:E; [|discriminate].
  injection H as _ <-.
  destruct (band_loop_entries _
              (fun i e => log_band_nonempty logMin logStep binWidth i e)
              _ _ _ E) as [Hl _].
  pose proof (band_loop_nth _ _ _ _ E ltac:(lia)) as Hnth.
  assert (G : forall j, j < numBands config ->
            log_band logMin logStep binWidth j
            = Some (FFT.get (d_0, (0, 0)) t j) /\
            FFT.get (0, 0) (map snd t) j
            = snd (FFT.get (d_0, (0, 0)) t j)).
  { intros j Hj. split.
    - specialize (Hnth (N.to_nat j) (d_0, (0, 0)) ltac:(lia)).
      rewrite N.add_0_l, N2Nat.id in Hnth. exact Hnth.
    - apply (FFT_facts.get_map snd t (d_0, (0, 0)) (0, 0)).
      unfold FFT.size. lia. }
  destruct (G i ltac:(lia)) as [L1 ->].
  destruct (G (i + 1) Hi) as [L2 ->].
  destruct (FFT.get (d_0, (0, 0)) t i) as [c1 [lo1 hi1]].
  destruct (FFT.get (d_0, (0, 0)) t (i + 1)) as [c2 [lo2 hi2]].
  cbn [fst snd].
  unfold log_band, bin_range in L1, L2.
  assert (Hw : FFT.wadd i 1 = i + 1)
    by (apply FFT_facts.wadd_small; lia).
  rewrite Hw in L1.
  set (fl1 := pow d_10 (add logMin (mul (of_size i) logStep))) in L1.
  set (fh1 := pow d_10 (add logMin (mul (of_size (i + 1)) logStep)))
    in L1, L2.
  destruct (to_size (div fl1 binWidth)) as [a|] eqn:Ea; [|discriminate].
  destruct (to_size (div fh1 binWidth)) as [b|] eqn:Eb; [|discriminate].
  destruct (to_size (div (pow d_10 _) binWidth)) as [c|] in L2;
    [|discriminate].
  injection L1 as _ <- <-. injection L2 as _ <- _.
  pose proof (to_size_below_max _ _ Ea) as Hmax.
  destruct (b <=? a) eqn:Eba.
  - apply N.leb_le in Eba.
    rewrite FFT_facts.wadd_small by exact Hmax. split; [lia | now right].
  - split; [lia | now left].
Qed.

End WithArith.
End audio_bands_facts.
(** * The levels and the band values of a frame *)

Module audio_levels.
Import IEEE.
Local Open Scope N_scope.

Section WithArith.
Context {A : Arith}.

(** One turn of [for (const auto& s : samples)] in [computeSpectrum]. *)
Definition level_step (st : double * double) (s : double)
  : double * double :=
  let (rms, peak) := st in
  (add rms (mul s s), max peak (fabs s)).

(** [currentSpectrum.rmsLevel] and [currentSpectrum.peakLevel] of the
    extracted samples. *)
Definition levels (samples : list double) : double * double :=
  let (rms, peak) := fold_left level_step samples (d_0, d_0) in
  (sqrt (div rms (of_size (FFT.size samples))), peak).

End WithArith.
End audio_levels.

Module audio_levels_facts.
Import IEEE IEEE_facts audio audio_facts audio_levels.
Local Open Scope N_scope.

Lemma le_trans (a b c : double) :
  le a b = true -> le b c = true -> le a c = true.
Proof.
  unfold le. intros H1 H2.
  apply andb_true_iff in H1 as [H1 Hk1]. apply andb_true_iff in H1 as [Ha Hb].
  apply andb_true_iff in H2 as [H2 Hk2]. apply andb_true_iff in H2 as [_ Hc].
  rewrite Ha, Hc. cbn [andb]. apply Z.leb_le in Hk1, Hk2. apply Z.leb_le. lia.
Qed.

Lemma le_ordered (a b : double) :
  le a b = true -> is_nan a = false /\ is_nan b = false.
Proof.
  unfold le. intros H.
  apply andb_true_iff in H as [H _]. apply andb_true_iff in H as [Ha Hb].
  now apply negb_true_iff in Ha, Hb.
Qed.

(** The running maximum [m = std::max(m, x)], as both loops keep it. *)
Lemma running_max_spec (xs : list double) :
  forall m0 : double,
    is_nan m0 = false ->
    let m := fold_left max xs m0 in
    is_nan m = false /\ le m0 m = true /\
    (forall x, In x xs -> lt m x = false) /\
    (m = m0 \/ In m xs).
Proof.
  induction xs as [|x xs IH]; intros m0 H0; cbn [fold_left].
  - split; [exact H0|]. split; [now apply le_refl|].
    split; [intros x []|now left].
  - assert (H1 : is_nan (max m0 x) = false).
    { unfold max. destruct (lt m0 x) eqn:E; [|exact H0].
      exact (lt_left_ordered _ _ E). }
    assert (H2 : le m0 (max m0 x) = true).
    { unfold max. destruct (lt m0 x) eqn:E; [now apply lt_le|].
      now apply le_refl. }
    assert (H3 : lt (max m0 x) x = false).
    { unfold max. destruct (lt m0 x) eqn:E; [apply lt_irrefl | exact E]. }
    destruct (IH (max m0 x) H1) as (I1 & I2 & I3 & I4).
    split; [exact I1|]. split; [exact (le_trans _ _ _ H2 I2)|]. split.
    + intros y [<-|Hy]; [|now apply I3].
      destruct (is_nan x) eqn:Ex.
      { unfold lt. rewrite Ex. cbn. now rewrite andb_false_r. }
      apply le_not_lt. apply (le_trans _ (max m0 x)); [|exact I2].
      now apply not_lt_le.
    + destruct I4 as [I4|I4]; [|right; now right].
      rewrite I4. unfold max. destruct (lt m0 x); [right; now left | now left].
Qed.

Section WithArith.
Context {A : Arith}.

Lemma levels_peak (samples : list double) :
  snd (levels samples) = fold_left max (map fabs samples) d_0.
Proof.
  unfold levels.
  assert (G : forall xs r p,
            snd (fold_left level_step xs (r, p))
            = fold_left max (map fabs xs) p).
  { induction xs as [|x xs IH]; intros r p; [reflexivity|].
    cbn [fold_left map level_step]. apply IH. }
  specialize (G samples d_0 d_0).
  now destruct (fold_left level_step samples (d_0, d_0)).
Qed.

(** X27. The peak level of a frame is the largest absolute value among its
    samples: it is never NaN and never negative, no sample exceeds it in
    absolute value (a NaN sample is passed over), and it is the absolute
    value of one of the samples, or 0 for a frame that has none above. *)
Theorem peak_level_is_largest_sample (samples : list double) :
  let peak := snd (levels samples) in
  is_nan peak = false /\ le d_0 peak = true /\
  (forall s, In s samples -> lt peak (fabs s) = false) /\
  (forall s, In s samples -> is_nan (fabs s) = false ->
             le (fabs s) peak = true) /\
  (peak = d_0 \/ exists s, In s samples /\ peak = fabs s).
Proof.
  intros peak. subst peak. rewrite levels_peak.
  destruct (running_max_spec (map fabs samples) d_0 eq_refl)
    as (H1 & H2 & H3 & H4).
  split; [exact H1|]. split; [exact H2|].
  assert (H5 : forall s, In s samples ->
                 lt (fold_left max (map fabs samples) d_0) (fabs s) = false)
    by (intros s Hs; apply H3; now apply in_map).
  split; [exact H5|]. split.
  - intros s Hs Hn. apply not_lt_le; [exact H1 | exact Hn | now apply H5].
  - destruct H4 as [H4|H4]; [now left | right].
    apply in_map_iff in H4 as (s & Es & Hs). exists s. now split.
Qed.

(** *** The value of a band *)

(** The bins [bin, bin + cnt). *)
Fixpoint bins_from (cnt : nat) (bin : N) : list N :=
  match cnt with
  | O => []
  | S c => bin :: bins_from c (bin + 1)
  end.

Lemma In_bins_from (cnt : nat) :
  forall bin b, In b (bins_from cnt bin) <-> bin <= b < bin + N.of_nat cnt.
Proof.
  induction cnt as [|cnt IH]; intros bin b; cbn [bins_from In].
  - lia.
  - rewrite IH. lia.
Qed.

Lemma bin_loop_bandMax (magnitudes : list double) (cnt : nat) :
  forall (bin : N) (bandMax maxMag : double) (peakBin : N),
    bin + N.of_nat cnt < FFT.two64 ->
    fst (fst (bin_loop magnitudes cnt bin (bandMax, maxMag, peakBin)))
    = fold_left max
        (map (FFT.get d_0 magnitudes) (bins_from cnt bin)) bandMax.
Proof.
  induction cnt as [|cnt IH]; intros bin bm mm pb Hw; [reflexivity|].
  cbn [bin_loop bins_from map fold_left].
  rewrite FFT_facts.wadd_small by lia.
  destruct (lt mm (FFT.get d_0 magnitudes bin)); apply IH; lia.
Qed.

(** X28. What the band loop of [computeSpectrum] stores for a band.  A band
    that starts at or past [halfSize] shows 0 and keeps its smoothed value.
    For any other band the value blended into the smoothed one, with weight
    [1 - smoothingFactor], is the largest magnitude among its bins up to
    [halfSize - 1]: it is never NaN and never negative, no bin of the band
    exceeds it, and it is the magnitude of one of them, or 0.  The values of
    the other bands are not touched. *)
Theorem band_value_is_band_maximum (magnitudes : list double)
    (halfSize : N) (smoothing : double) (st : scan) (band : N)
    (startBin endBin : N) :
  halfSize < FFT.two64 ->
  band < FFT.size (smoothedMagnitudes st) ->
  band < FFT.size (spectrumMagnitudes st) ->
  let st' := scan_band magnitudes halfSize smoothing st band
               (startBin, endBin) in
  (halfSize <= startBin ->
   FFT.get d_0 (spectrumMagnitudes st') band = d_0 /\
   smoothedMagnitudes st' = smoothedMagnitudes st) /\
  (startBin < halfSize ->
   exists bandMax : double,
     is_nan bandMax = false /\ le d_0 bandMax = true /\
     (forall bin, startBin <= bin <= N.min endBin (halfSize - 1) ->
        lt bandMax (FFT.get d_0 magnitudes bin) = false) /\
     (bandMax = d_0 \/
      exists bin, startBin <= bin <= N.min endBin (halfSize - 1) /\
                  bandMax = FFT.get d_0 magnitudes bin) /\
     FFT.get d_0 (smoothedMagnitudes st') band
     = add (mul smoothing (FFT.get d_0 (smoothedMagnitudes st) band))
           (mul (sub d_1 smoothing) bandMax) /\
     FFT.get d_0 (spectrumMagnitudes st') band
     = FFT.get d_0 (smoothedMagnitudes st') band) /\
  (forall other, other <> band ->
     FFT.get d_0 (smoothedMagnitudes st') other
     = FFT.get d_0 (smoothedMagnitudes st) other /\
     FFT.get d_0 (spectrumMagnitudes st') other
     = FFT.get d_0 (spectrumMagnitudes st) other).
Proof.
  intros H64 Hb1 Hb2 st'. subst st'. unfold scan_band.
  destruct (halfSize <=? startBin) eqn:E.
  - apply N.leb_le in E. cbn [spectrumMagnitudes smoothedMagnitudes].
    split; [intros _; split; [now apply FFT_facts.get_set_same | reflexivity]|].
    split; [intros; lia|].
    intros other Hne. split; [reflexivity|].
    apply FFT_facts.get_set_other. congruence.
  - apply N.leb_gt in E.
    rewrite FFT_facts.wsub_small by lia.
    set (endBin' := N.min endBin (halfSize - 1)).
    pose proof (bin_loop_bandMax magnitudes (bin_count startBin endBin')
                  startBin d_0 (maxMag st) (peakBin st)) as Hbm.
    assert (Hc : startBin + N.of_nat (bin_count startBin endBin')
                 < FFT.two64).
    { unfold bin_count. destruct (startBin <=? endBin') eqn:E2; [|lia].
      apply N.leb_le in E2. rewrite N2Nat.id. subst endBin'. lia. }
    specialize (Hbm Hc).
    destruct (bin_loop magnitudes (bin_count startBin endBin') startBin
                (d_0, maxMag st, peakBin st)) as [[bm mm] pb].
    cbn [fst] in Hbm. cbn [spectrumMagnitudes smoothedMagnitudes].
    split; [intros; lia|]. split.
    + intros _. exists bm.
      destruct (running_max_spec
                  (map (FFT.get d_0 magnitudes)
                       (bins_from (bin_count startBin endBin') startBin))
                  d_0 eq_refl) as (H1 & H2 & H3 & H4).
      rewrite <- Hbm in H1, H2, H3, H4.
      assert (Hin : forall bin, startBin <= bin <= endBin' <->
                      In bin (bins_from (bin_count startBin endBin') startBin)).
      { intros bin. rewrite In_bins_from. unfold bin_count.
        destruct (startBin <=? endBin') eqn:E2.
        - apply N.leb_le in E2. rewrite N2Nat.id. lia.
        - apply N.leb_gt in E2. cbn. lia. }
      split; [exact H1|]. split; [exact H2|]. split.
      { intros bin Hbin. apply H3. apply in_map. now apply Hin. }
      split.
      { destruct H4 as [H4|H4]; [now left | right].
        apply in_map_iff in H4 as (bin & Eb & Hbin).
        exists bin. split; [now apply Hin | now symmetry]. }
      split; [now apply FFT_facts.get_set_same|].
      now rewrite !FFT_facts.get_set_same.
    + intros other Hne.
      split; apply FFT_facts.get_set_other; congruence.
Qed.

End WithArith.
End audio_levels_facts.
(** * The circular sample buffer *)

Module audio_ring.
Import IEEE.
Local Open Scope N_scope.

(** Single-precision arithmetic of the mono mix, uninterpreted like the
    double-precision one. *)
Class Arith32 : Type := {
  addf : float -> float -> float;
  divf : float -> float -> float;
  of_uint32 : N -> float
}.

Definition f_0 : float := mkFloat 0 eq_refl.

Definition wmul (a b : N) : N := (a * b) mod FFT.two64.

(** [pImpl->sampleBuffer] and [pImpl->bufferWritePos]. *)
Record Ring : Type := mkRing {
  sampleBuffer : list float;
  bufferWritePos : N
}.

Section WithArith.
Context {A : Arith} {F : Arith32}.

(** [for (uint32_t c = 0; c < channels; ++c)
       sample += samples[i * channels + c];] *)
Fixpoint mix_loop (samples : list float) (i channels : N) (cnt : nat)
    (c : N) (sample : float) : float :=
  match cnt with
  | O => sample
  | S cnt' =>
    mix_loop samples i channels cnt' (c + 1)
      (addf sample (FFT.get f_0 samples (FFT.wadd (wmul i channels) c)))
  end.

(** The mono sample of frame [i]. *)
Definition mono (samples : list float) (channels i : N) : float :=
  divf (mix_loop samples i channels (N.to_nat channels) 0 f_0)
       (of_uint32 channels).

(** The two statements that store one sample. *)
Definition write (st : Ring) (sample : float) : Ring :=
  mkRing (FFT.set (sampleBuffer st) (bufferWritePos st) sample)
         (FFT.wadd (bufferWritePos st) 1 mod FFT.size (sampleBuffer st)).

(** [for (size_t i = 0; i < frameCount; ++i)], [cnt] turns from [i]. *)
Fixpoint mix_frames (samples : list float) (channels : N) (cnt : nat) (i : N)
    (st : Ring) : Ring :=
  match cnt with
  | O => st
  | S cnt' =>
    mix_frames samples channels cnt' (FFT.wadd i 1)
      (write st (mono samples channels i))
  end.

(** [void processAudioData(const float* samples, size_t frameCount,
    uint32_t channels)] *)
Definition processAudioData (st : Ring) (samples : list float)
    (frameCount channels : N) : Ring :=
  mix_frames samples channels (N.to_nat frameCount) 0 st.

(** [computeSpectrum]: the read position and the extraction loop. *)
Definition readPos (st : Ring) (fftSize : N) : N :=
  FFT.wsub (FFT.wadd (bufferWritePos st) (FFT.size (sampleBuffer st))) fftSize
  mod FFT.size (sampleBuffer st).

Fixpoint extract_loop (st : Ring) (readPos : N) (cnt : nat) (i : N)
  : list double :=
  match cnt with
  | O => []
  | S cnt' =>
    to_double (FFT.get f_0 (sampleBuffer st)
                 (FFT.wadd readPos i mod FFT.size (sampleBuffer st)))
    :: extract_loop st readPos cnt' (FFT.wadd i 1)
  end.

(** The local [samples] of [computeSpectrum] after the extraction. *)
Definition extract (st : Ring) (fftSize : N) : list double :=
  extract_loop st (readPos st fftSize) (N.to_nat fftSize) 0.

End WithArith.
End audio_ring.

Module audio_ring_facts.
Import IEEE audio_ring.
Local Open Scope N_scope.

Lemma mod_add_ne (p d s : N) : p < s -> 0 < d -> d < s -> (p + d) mod s <> p.
Proof.
  intros Hp Hd Hs. destruct (N.lt_ge_cases (p + d) s) as [H|H].
  - rewrite N.mod_small by exact H. lia.
  - replace (p + d) with (p + d - s + 1 * s) by lia.
    rewrite N.Div0.mod_add, N.mod_small by lia. lia.
Qed.

Lemma mod_add_full (p s : N) : p < s -> (p + s) mod s = p.
Proof.
  intros Hp. replace (p + s) with (p + 1 * s) by lia.
  rewrite N.Div0.mod_add. now apply N.mod_small.
Qed.

Section WithArith.
Context {A : Arith} {F : Arith32}.

(** A buffer in the state the analyzer keeps it: it has room for the
    window, the cursor is inside it, and its indices are far from the
    end of [size_t]. *)
Definition well_formed (st : Ring) (fftSize : N) : Prop :=
  0 < fftSize /\ fftSize <= FFT.size (sampleBuffer st) /\
  bufferWritePos st < FFT.size (sampleBuffer st) /\
  2 * FFT.size (sampleBuffer st) < FFT.two64.

(** The sample the window holds at place [k]. *)
Definition window_at (st : Ring) (fftSize k : N) : double :=
  to_double
    (FFT.get f_0 (sampleBuffer st)
       ((bufferWritePos st + (FFT.size (sampleBuffer st) - fftSize) + k)
        mod FFT.size (sampleBuffer st))).

Lemma extract_loop_map (st : Ring) (r : N) (cnt : nat) :
  forall i, r + i + N.of_nat cnt < FFT.two64 ->
    extract_loop st r cnt i
    = map (fun k => to_double
                      (FFT.get f_0 (sampleBuffer st)
                         ((r + (i + N.of_nat k))
                          mod FFT.size (sampleBuffer st))))
          (seq 0 cnt).
Proof.
  induction cnt as [|cnt IH]; intros i Hw; [reflexivity|].
  cbn [extract_loop seq map].
  rewrite !FFT_facts.wadd_small by lia.
  rewrite N.add_0_r. f_equal.
  rewrite IH by lia. rewrite <- seq_shift, map_map.
  apply map_ext. intros k. do 3 f_equal. lia.
Qed.

Lemma extract_window (st : Ring) (fftSize : N) :
  well_formed st fftSize ->
  extract st fftSize
  = map (fun k => window_at st fftSize (N.of_nat k))
        (seq 0 (N.to_nat fftSize)).
Proof.
  intros (H0 & Hle & Hp & Hw). unfold extract, readPos.
  set (s := FFT.size (sampleBuffer st)) in *.
  rewrite FFT_facts.wadd_small by lia.
  rewrite FFT_facts.wsub_small by lia.
  assert (Hr : (bufferWritePos st + s - fftSize) mod s < s)
    by (apply N.mod_lt; lia).
  rewrite extract_loop_map by lia.
  apply map_ext. intros k. unfold window_at. fold s. do 2 f_equal.
  rewrite N.add_0_l, N.Div0.add_mod_idemp_l. f_equal. lia.
Qed.

Lemma write_well_formed (st : Ring) (fftSize : N) (x : float) :
  well_formed st fftSize -> well_formed (write st x) fftSize.
Proof.
  intros (H0 & Hle & Hp & Hw). unfold well_formed, write.
  cbn [sampleBuffer bufferWritePos]. rewrite FFT_facts.size_set.
  split; [exact H0|]. split; [exact Hle|]. split; [|exact Hw].
  apply N.mod_lt. lia.
Qed.

Lemma window_at_write (st : Ring) (fftSize : N) (x : float) (k : N) :
  well_formed st fftSize -> k < fftSize ->
  window_at (write st x) fftSize k
  = if k + 1 =? fftSize then to_double x
    else window_at st fftSize (k + 1).
Proof.
  intros (H0 & Hle & Hp & Hw) Hk. unfold window_at, write.
  cbn [sampleBuffer bufferWritePos]. rewrite FFT_facts.size_set.
  set (s := FFT.size (sampleBuffer st)) in *.
  rewrite FFT_facts.wadd_small by lia.
  assert (E : ((bufferWritePos st + 1) mod s + (s - fftSize) + k) mod s
              = (bufferWritePos st + (s - fftSize + k + 1)) mod s).
  { rewrite <- N.add_assoc, N.Div0.add_mod_idemp_l. f_equal. lia. }
  rewrite E. destruct (k + 1 =? fftSize) eqn:Ek.
  - apply N.eqb_eq in Ek.
    replace (s - fftSize + k + 1) with s by lia.
    rewrite mod_add_full by exact Hp.
    now rewrite FFT_facts.get_set_same.
  - apply N.eqb_neq in Ek.
    rewrite FFT_facts.get_set_other.
    + do 3 f_equal. lia.
    + intros Heq. symmetry in Heq. revert Heq.
      apply mod_add_ne; [exact Hp | lia | lia].
Qed.

Lemma extract_write (st : Ring) (fftSize : N) (x : float) :
  well_formed st fftSize ->
  extract (write st x) fftSize = tl (extract st fftSize) ++ [to_double x].
Proof.
  intros Hwf. pose proof (write_well_formed st fftSize x Hwf) as Hwf'.
  rewrite !extract_window by assumption.
  pose proof Hwf as (H0 & _).
  destruct (N.to_nat fftSize) as [|w] eqn:Ew; [lia|].
  rewrite seq_S at 1. rewrite map_app. cbn [seq map tl app].
  f_equal.
  - rewrite <- seq_shift, map_map. apply map_ext_in.
    intros k Hk. apply in_seq in Hk.
    rewrite window_at_write by (try assumption; lia).
    assert (E : (N.of_nat k + 1 =? fftSize) = false)
      by (apply N.eqb_neq; lia).
    rewrite E. f_equal. lia.
  - rewrite window_at_write by (try assumption; lia).
    assert (E : (N.of_nat (0 + w) + 1 =? fftSize) = true)
      by (apply N.eqb_eq; lia).
    now rewrite E.
Qed.

Lemma length_extract (st : Ring) (fftSize : N) :
  well_formed st fftSize -> length (extract st fftSize) = N.to_nat fftSize.
Proof.
  intros H. rewrite extract_window by exact H.
  now rewrite length_map, length_seq.
Qed.

Lemma mix_frames_window (samples : list float) (channels : N) (cnt : nat) :
  forall (i : N) (st : Ring) (fftSize : N),
    well_formed st fftSize -> i + N.of_nat cnt < FFT.two64 ->
    well_formed (mix_frames samples channels cnt i st) fftSize /\
    FFT.size (sampleBuffer (mix_frames samples channels cnt i st))
    = FFT.size (sampleBuffer st) /\
    extract (mix_frames samples channels cnt i st) fftSize
    = skipn cnt
        (extract st fftSize
         ++ map (fun k => to_double (mono samples channels (i + N.of_nat k)))
                (seq 0 cnt)).
Proof.
  induction cnt as [|cnt IH]; intros i st fftSize Hwf Hi.
  - cbn [mix_frames seq map skipn]. rewrite app_nil_r. auto.
  - cbn [mix_frames].
    rewrite FFT_facts.wadd_small by lia.
    pose proof (write_well_formed st fftSize (mono samples channels i) Hwf)
      as Hwf1.
    destruct (IH (i + 1) (write st (mono samples channels i)) fftSize Hwf1
                ltac:(lia)) as (I1 & I2 & I3).
    split; [exact I1|]. split.
    { rewrite I2. unfold write. cbn [sampleBuffer].
      apply FFT_facts.size_set. }
    rewrite I3, extract_write by exact Hwf.
    pose proof (length_extract st fftSize Hwf) as Hl.
    destruct Hwf as (H0 & _).
    destruct (extract st fftSize) as [|h t]; [cbn [length] in Hl; lia|].
    cbn [tl seq map app skipn]. rewrite <- app_assoc. cbn [app].
    rewrite N.add_0_r. do 3 f_equal.
    rewrite <- seq_shift, map_map. apply map_ext. intros k.
    do 2 f_equal. lia.
Qed.

(** X29. The buffer is a rolling window over the mono mix.  A call of
    [processAudioData] with [frameCount] frames drops the [frameCount]
    oldest samples of the window that [computeSpectrum] extracts and appends
    the mono samples of the new frames, oldest first; the buffer keeps its
    size and the cursor stays inside it. *)
Theorem processAudioData_rolls_the_window
    (st : Ring) (fftSize : N) (samples : list float)
    (frameCount channels : N) :
  well_formed st fftSize -> frameCount < FFT.two64 ->
  well_formed (processAudioData st samples frameCount channels) fftSize /\
  FFT.size (sampleBuffer (processAudioData st samples frameCount channels))
  = FFT.size (sampleBuffer st) /\
  length (extract st fftSize) = N.to_nat fftSize /\
  extract (processAudioData st samples frameCount channels) fftSize
  = skipn (N.to_nat frameCount)
      (extract st fftSize
       ++ map (fun k => to_double (mono samples channels (N.of_nat k)))
              (seq 0 (N.to_nat frameCount))).
Proof.
  intros Hwf Hf. unfold processAudioData.
  destruct (mix_frames_window samples channels (N.to_nat frameCount) 0 st
              fftSize Hwf ltac:(lia)) as (H1 & H2 & H3).
  split; [exact H1|]. split; [exact H2|].
  split; [now apply length_extract|].
  rewrite H3. do 2 f_equal.
Qed.

End WithArith.
End audio_ring_facts.
(** * The equalizer of the standalone analyzer: edits and lazy update *)

Module audio_eq.
Import IEEE.
Local Open Scope Z_scope.

Definition d_m12 : double := mkDouble 0xc028000000000000 eq_refl.   (* -12.0 *)
Definition d_12 : double := mkDouble 0x4028000000000000 eq_refl.    (* 12.0 *)
Definition d_20000 : double := mkDouble 0x40d3880000000000 eq_refl. (* 20000.0 *)

(** [struct EQBand] *)
Record EQBand : Type := mkBand {
  frequency : double;
  gain : double;
  q : double;
  enabled : bool
}.

(** [struct EqualizerConfig]; its member [enabled] is [eqEnabled] here. *)
Record EqualizerConfig : Type := mkEqualizer {
  bands : EQ.array5 EQBand;
  eqEnabled : bool
}.

(** The members of [AudioAnalyzerImpl] the equalizer uses.  The
    [BiquadFilter] of [audio_analyzer.cpp] has the members and the
    [setPeakingEQ] of the one of [eq_processor.hpp], statement for
    statement, and is the same type here. *)
Record AnalyzerEQ : Type := mkAnalyzerEQ {
  sampleRate : N;
  eqConfig : EqualizerConfig;
  eqFilters : EQ.array5 EQ.BiquadFilter;
  eqNeedsUpdate : bool
}.

Definition NUM_BANDS : Z := 5.

Section WithArith.
Context {A : Arith}.

(** One turn of the loop of [updateEQFilters]. *)
Definition update_band (st : AnalyzerEQ) (i : Z) : AnalyzerEQ :=
  let band := EQ.at5 (bands (eqConfig st)) i in
  mkAnalyzerEQ (sampleRate st) (eqConfig st)
    (EQ.put5 (eqFilters st) i
       (EQ.Biquad.setPeakingEQ (EQ.at5 (eqFilters st) i)
          (of_size (sampleRate st)) (frequency band) (gain band) (q band)))
    (eqNeedsUpdate st).

(** [void updateEQFilters()] *)
Definition updateEQFilters (st : AnalyzerEQ) : AnalyzerEQ :=
  let st := fold_left update_band EQ.bands st in
  mkAnalyzerEQ (sampleRate st) (eqConfig st) (eqFilters st) false.

(** [if (impl->eqNeedsUpdate) impl->updateEQFilters();] of
    [audioCallback]. *)
Definition update_if_needed (st : AnalyzerEQ) : AnalyzerEQ :=
  if eqNeedsUpdate st then updateEQFilters st else st.

Definition with_band (st : AnalyzerEQ) (bandIndex : Z) (band : EQBand)
  : AnalyzerEQ :=
  mkAnalyzerEQ (sampleRate st)
    (mkEqualizer (EQ.put5 (bands (eqConfig st)) bandIndex band)
                 (eqEnabled (eqConfig st)))
    (eqFilters st) true.

Definition setEQBandGain (st : AnalyzerEQ) (bandIndex : Z) (gainDb : double)
  : AnalyzerEQ :=
  if (bandIndex >=? 0) && (bandIndex <? NUM_BANDS) then
    let gainDb := max d_m12 (min d_12 gainDb) in
    let band := EQ.at5 (bands (eqConfig st)) bandIndex in
    with_band st bandIndex
      (mkBand (frequency band) gainDb (q band) (enabled band))
  else st.

Definition setEQBandFrequency (st : AnalyzerEQ) (bandIndex : Z)
    (frequency_ : double) : AnalyzerEQ :=
  if (bandIndex >=? 0) && (bandIndex <? NUM_BANDS) then
    let frequency_ := max d_20 (min d_20000 frequency_) in
    let band := EQ.at5 (bands (eqConfig st)) bandIndex in
    with_band st bandIndex
      (mkBand frequency_ (gain band) (q band) (enabled band))
  else st.

Definition setEQBandQ (st : AnalyzerEQ) (bandIndex : Z) (q_ : double)
  : AnalyzerEQ :=
  if (bandIndex >=? 0) && (bandIndex <? NUM_BANDS) then
    let q_ := max d_0_1 (min d_10 q_) in
    let band := EQ.at5 (bands (eqConfig st)) bandIndex in
    with_band st bandIndex
      (mkBand (frequency band) (gain band) q_ (enabled band))
  else st.

Definition setEQEnabled (st : AnalyzerEQ) (enabled_ : bool) : AnalyzerEQ :=
  mkAnalyzerEQ (sampleRate st)
    (mkEqualizer (bands (eqConfig st)) enabled_)
    (eqFilters st) (eqNeedsUpdate st).

Definition getEQBandGain (st : AnalyzerEQ) (bandIndex : Z) : double :=
  if (bandIndex >=? 0) && (bandIndex <? NUM_BANDS)
  then gain (EQ.at5 (bands (eqConfig st)) bandIndex) else d_0.

Definition getEQBandFrequency (st : AnalyzerEQ) (bandIndex : Z) : double :=
  if (bandIndex >=? 0) && (bandIndex <? NUM_BANDS)
  then frequency (EQ.at5 (bands (eqConfig st)) bandIndex) else d_1000.

Definition getEQBandQ (st : AnalyzerEQ) (bandIndex : Z) : double :=
  if (bandIndex >=? 0) && (bandIndex <? NUM_BANDS)
  then q (EQ.at5 (bands (eqConfig st)) bandIndex) else d_1.

End WithArith.
End audio_eq.

Module audio_eq_facts.
Import IEEE IEEE_facts audio_eq.
Local Open Scope Z_scope.

(** An edit made from the control thread. *)
Inductive edit : Type :=
| SetGain (bandIndex : Z) (gainDb : double)
| SetFrequency (bandIndex : Z) (frequency_ : double)
| SetQ (bandIndex : Z) (q_ : double)
| SetEnabled (enabled_ : bool).

Section WithArith.
Context {A : Arith}.

Definition apply_edit (st : AnalyzerEQ) (e : edit) : AnalyzerEQ :=
  match e with
  | SetGain i v => setEQBandGain st i v
  | SetFrequency i v => setEQBandFrequency st i v
  | SetQ i v => setEQBandQ st i v
  | SetEnabled b => setEQEnabled st b
  end.

(** Every filter holds the coefficients [setPeakingEQ] computes from the
    sample rate and the values of its band. *)
Definition eq_designed (st : AnalyzerEQ) : Prop :=
  forall i, 0 <= i < NUM_BANDS ->
    let band := EQ.at5 (bands (eqConfig st)) i in
    EQ_rest_facts.coefficients (EQ.at5 (eqFilters st) i)
    = EQ_rest_facts.coefficients
        (EQ.Biquad.setPeakingEQ EQ.Biquad.init (of_size (sampleRate st))
           (frequency band) (gain band) (q band)).

Lemma index_cases (i : Z) :
  (i >=? 0) && (i <? NUM_BANDS) = true ->
  i = 0 \/ i = 1 \/ i = 2 \/ i = 3 \/ i = 4.
Proof.
  intros E. apply andb_true_iff in E as [E1 E2].
  apply Z.geb_le in E1. apply Z.ltb_lt in E2. unfold NUM_BANDS in E2. lia.
Qed.

Lemma update_after_update (st : AnalyzerEQ) (e : edit) :
  update_if_needed (apply_edit (updateEQFilters st) e)
  = update_if_needed (apply_edit st e) \/
  eqNeedsUpdate st = false.
Proof.
  destruct (eqNeedsUpdate st) eqn:Ef; [left | now right].
  destruct st as [sr [[b0 b1 b2 b3 b4] en] [f0 f1 f2 f3 f4] fl].
  cbn [eqNeedsUpdate] in Ef. subst fl.
  destruct e as [i v|i v|i v|b]; cbn [apply_edit];
    unfold setEQBandGain, setEQBandFrequency, setEQBandQ, setEQEnabled;
    try (destruct ((i >=? 0) && (i <? NUM_BANDS)) eqn:E;
         [apply index_cases in E;
          destruct E as [-> | [-> | [-> | [-> | ->]]]]|]);
    reflexivity.
Qed.

Lemma update_if_needed_absorbs (st : AnalyzerEQ) (e : edit) :
  update_if_needed (apply_edit (update_if_needed st) e)
  = update_if_needed (apply_edit st e).
Proof.
  unfold update_if_needed at 2.
  destruct (eqNeedsUpdate st) eqn:Ef; [|reflexivity].
  destruct (update_after_update st e) as [H|H]; [exact H | congruence].
Qed.

(** X30. The lazy update loses nothing.  Edits never write the filters the
    audio callback is running; they set the flag, and one update at the
    start of the next callback leaves the equalizer in the state that
    updating after every single edit would have produced, with the flag
    cleared and, when an update took place, every filter designed for the
    current values of its band.  (Edits and callbacks are taken one after
    the other.) *)
Theorem lazy_update_equals_eager_update (st : AnalyzerEQ) (edits : list edit) :
  eqFilters (fold_left apply_edit edits st) = eqFilters st /\
  update_if_needed (fold_left apply_edit edits st)
  = fold_left (fun s e => update_if_needed (apply_edit s e)) edits
      (update_if_needed st) /\
  eqNeedsUpdate (update_if_needed (fold_left apply_edit edits st)) = false /\
  (eqNeedsUpdate (fold_left apply_edit edits st) = true ->
   eq_designed (update_if_needed (fold_left apply_edit edits st))).
Proof.
  split.
  { revert st. induction edits as [|e edits IH]; intros st; [reflexivity|].
    cbn [fold_left]. rewrite IH.
    destruct e as [i v|i v|i v|b]; cbn [apply_edit];
      unfold setEQBandGain, setEQBandFrequency, setEQBandQ, setEQEnabled;
      try destruct ((i >=? 0) && (i <? NUM_BANDS)); reflexivity. }
  split.
  { revert st. induction edits as [|e edits IH]; intros st; [reflexivity|].
    cbn [fold_left]. rewrite IH. now rewrite update_if_needed_absorbs. }
  generalize (fold_left apply_edit edits st). intros s.
  unfold update_if_needed. split.
  - destruct (eqNeedsUpdate s) eqn:E; [reflexivity | exact E].
  - intros E. rewrite E. intros i Hi.
    destruct s as [sr [[b0 b1 b2 b3 b4] en] [f0 f1 f2 f3 f4] fl].
    unfold NUM_BANDS in Hi.
    assert (Hc : i = 0 \/ i = 1 \/ i = 2 \/ i = 3 \/ i = 4) by lia.
    destruct Hc as [-> | [-> | [-> | [-> | ->]]]]; reflexivity.
Qed.

End WithArith.
End audio_eq_facts.

(* ================================================================== *)
(** * Running the additions on concrete inputs *)
(* ================================================================== *)

Module EQ_rest_examples.
Import IEEE IEEE_facts EQ EQ_facts EQ_examples EQ_rest EQ_rest_facts.
Local Open Scope Z_scope.

Lemma setters_touch_one_band_witness :
  0 <= 2 < NUM_BANDS /\
  untouched_but 2 init (setBandGain (A := first_operand) init 2 d_100).
Proof.
  assert (H : 0 <= 2 < NUM_BANDS) by (unfold NUM_BANDS; lia).
  split; [exact H|].
  exact (proj1 (setters_touch_one_band (A := first_operand) init 2 d_100 H)).
Defined.

Lemma reachable_states_in_domain_witness :
  calls (A := first_operand) init
    (setBandGain (A := first_operand) init 2 d_100) /\
  SpectrumEQ_facts.in_domain (setBandGain (A := first_operand) init 2 d_100).
Proof.
  assert (H : calls (A := first_operand) init
                (setBandGain (A := first_operand) init 2 d_100)).
  { apply (calls_then _ init); [apply calls_none | apply call_setBandGain]. }
  split; [exact H|].
  exact (reachable_states_in_domain (A := first_operand) _ H).
Defined.

Lemma filters_follow_parameters_witness :
  calls (A := first_operand)
    (setSampleRate (A := first_operand) init d_44100)
    (setBandGain (A := first_operand)
       (setSampleRate (A := first_operand) init d_44100) 1 d_5) /\
  designed (A := first_operand)
    (setBandGain (A := first_operand)
       (setSampleRate (A := first_operand) init d_44100) 1 d_5).
Proof.
  assert (H : calls (A := first_operand)
                (setSampleRate (A := first_operand) init d_44100)
                (setBandGain (A := first_operand)
                   (setSampleRate (A := first_operand) init d_44100) 1 d_5)).
  { apply (calls_then _ (setSampleRate (A := first_operand) init d_44100));
      [apply calls_none | apply call_setBandGain]. }
  split; [exact H|].
  exact (filters_follow_parameters (A := first_operand) init _ d_44100 H).
Defined.

Lemma response_curve_ignores_audio_and_bypass_witness :
  (forall i, 0 <= i < NUM_BANDS -> band_active init i = false) /\
  getResponseAt (A := first_operand) init d_1000
  = mul (Arith := first_operand) d_20 (log10 (Arith := first_operand) d_1).
Proof.
  assert (H : forall i, 0 <= i < NUM_BANDS -> band_active init i = false).
  { intros i Hi. each_band Hi; reflexivity. }
  split; [exact H|].
  destruct (response_curve_ignores_audio_and_bypass (A := first_operand)
              init d_1000 sample_a sample_b sample_a [] 0 0 true)
    as (_ & _ & _ & _ & _ & Hflat).
  exact (Hflat H).
Defined.

Lemma processBlock_touches_two_channels_witness :
  0 <= 2 /\ 0 < 3 /\ (1 * 3 <= 2 \/ 2 <= 2 mod 3) /\
  buf_get (fst (processBlock (A := first_operand) one_band_up
                  [sample_a; sample_b; sample_a] 1 3)) 2
  = buf_get [sample_a; sample_b; sample_a] 2.
Proof.
  assert (H1 : 0 <= 2) by lia.
  assert (H2 : 0 < 3) by lia.
  assert (H3 : 1 * 3 <= 2 \/ 2 <= 2 mod 3) by (right; reflexivity).
  split; [exact H1|]. split; [exact H2|]. split; [exact H3|].
  destruct (processBlock_touches_two_channels (A := first_operand)
              one_band_up [sample_a; sample_b; sample_a] 1 3)
    as (_ & Hc & _).
  exact (Hc 2 H1 H2 H3).
Defined.

End EQ_rest_examples.

Module SpectrumEQ_rest_examples.
Import IEEE IEEE_facts EQ EQ_facts EQ_examples SpectrumEQ SpectrumEQ_facts.
Import SpectrumEQ_examples EQ_rest EQ_rest_facts.
Import SpectrumEQ_params SpectrumEQ_rest_facts.

Lemma setState_keeps_domain_and_memory_witness :
  in_domain init /\
  in_domain
    (snd (setState (A := first_operand) init (Some truncated_stream))).
Proof.
  split; [exact in_domain_init|].
  exact (proj1 (setState_keeps_domain_and_memory (A := first_operand)
                  init (Some truncated_stream)) in_domain_init).
Defined.

Lemma setState_complete_stream_witness :
  (128 <= length (layout17 one_band_up))%nat /\
  fst (setState (A := first_operand) init (Some (layout17 one_band_up)))
  = kResultOk.
Proof.
  assert (H : (128 <= length (layout17 one_band_up))%nat)
    by (vm_compute; lia).
  split; [exact H|].
  exact (proj1 (setState_complete_stream (A := first_operand) init
                  (layout17 one_band_up) H)).
Defined.

(** A stream written with version 2, and one with a byte too many. *)
Lemma setState_ignores_version_and_tail_witness :
  length (le_bytes 4 1) = 4%nat /\ length (le_bytes 4 2) = 4%nat /\
  length (skipn 4 (layout17 one_band_up)) = 124%nat /\
  setState (A := first_operand) init
    (Some (le_bytes 4 2 ++ skipn 4 (layout17 one_band_up)))
  = setState (A := first_operand) init
      (Some (le_bytes 4 1 ++ skipn 4 (layout17 one_band_up))).
Proof.
  assert (H1 : length (le_bytes 4 1) = 4%nat) by reflexivity.
  assert (H2 : length (le_bytes 4 2) = 4%nat) by reflexivity.
  assert (H3 : length (skipn 4 (layout17 one_band_up)) = 124%nat)
    by reflexivity.
  split; [exact H1|]. split; [exact H2|]. split; [exact H3|].
  exact (proj1 (setState_ignores_version_and_tail (A := first_operand) init
                  (le_bytes 4 1) (le_bytes 4 2)
                  (skipn 4 (layout17 one_band_up)) [x00] H1 H2 H3)).
Defined.

(** The host moves the gain of band 3 to the middle of its range. *)
Definition gain_change : IParamValueQueue :=
  mkQueue (getBandGainParam 2) 1 (fun _ => Some (0%Z, d_0_5)).

Lemma parameter_ids_decode_witness :
  (0 <= 2 < NUM_BANDS)%Z /\ (0 < getPointCount gain_change)%Z /\
  getPoint gain_change (getPointCount gain_change - 1) = Some (0%Z, d_0_5) /\
  getParameterId gain_change = getBandGainParam 2 /\
  processParameterChanges (A := first_operand) init (Some [Some gain_change])
  = setBandGain (A := first_operand) init 2
      (add (Arith := first_operand) MIN_GAIN
         (mul (Arith := first_operand) d_0_5
            (sub (Arith := first_operand) MAX_GAIN MIN_GAIN))).
Proof.
  assert (H1 : (0 <= 2 < NUM_BANDS)%Z) by (unfold NUM_BANDS; lia).
  assert (H2 : (0 < getPointCount gain_change)%Z) by reflexivity.
  assert (H3 : getPoint gain_change (getPointCount gain_change - 1)
               = Some (0%Z, d_0_5)) by reflexivity.
  assert (H4 : getParameterId gain_change = getBandGainParam 2)
    by reflexivity.
  split; [exact H1|]. split; [exact H2|]. split; [exact H3|].
  split; [exact H4|].
  exact (proj1 (parameter_ids_decode (A := first_operand) init 2 gain_change
                  0%Z d_0_5 H1 H2 H3) H4).
Defined.

Lemma parameter_changes_keep_domain_and_memory_witness :
  in_domain init /\
  in_domain
    (processParameterChanges (A := first_operand) init
       (Some [Some gain_change])).
Proof.
  split; [exact in_domain_init|].
  exact (proj1 (parameter_changes_keep_domain_and_memory
                  (A := first_operand) init (Some [Some gain_change]))
               in_domain_init).
Defined.

End SpectrumEQ_rest_examples.

Module audio_rest_examples.
Import IEEE IEEE_facts audio audio_facts audio_examples.
Import audio_bands_facts audio_levels audio_levels_facts.
Import audio_ring audio_ring_facts audio_eq audio_eq_facts.
Local Open Scope N_scope.

Lemma log_bands_leave_no_gap_witness :
  updateBands (A := first_operand) 44100 three_bands
  = Some ([d_10; d_10; d_10], [(10, 11); (10, 11); (10, 11)]) /\
  useLogScale three_bands = true /\
  numBands three_bands < FFT.two64 /\ 0 + 1 < numBands three_bands /\
  fst (FFT.get (0, 0) [(10, 11); (10, 11); (10, 11)] (0 + 1))
  <= snd (FFT.get (0, 0) [(10, 11); (10, 11); (10, 11)] 0).
Proof.
  assert (H1 : updateBands (A := first_operand) 44100 three_bands
               = Some ([d_10; d_10; d_10], [(10, 11); (10, 11); (10, 11)]))
    by reflexivity.
  assert (H2 : useLogScale three_bands = true) by reflexivity.
  assert (H3 : numBands three_bands < FFT.two64) by reflexivity.
  assert (H4 : 0 + 1 < numBands three_bands) by reflexivity.
  split; [exact H1|]. split; [exact H2|]. split; [exact H3|].
  split; [exact H4|].
  exact (proj1 (log_bands_leave_no_gap (A := first_operand) 44100 three_bands
                  _ _ 0 H1 H2 H3 H4)).
Defined.

Definition fresh_scan : scan := mkScan d_0 0 [d_0; d_0] [d_0; d_0].

Lemma band_value_is_band_maximum_witness :
  4 < FFT.two64 /\
  0 < FFT.size (smoothedMagnitudes fresh_scan) /\
  0 < FFT.size (spectrumMagnitudes fresh_scan) /\
  forall other, other <> 0 ->
    FFT.get d_0
      (smoothedMagnitudes
         (scan_band (A := first_operand) offset_magnitudes 4 d_0 fresh_scan
            0 (1, 2))) other
    = FFT.get d_0 (smoothedMagnitudes fresh_scan) other.
Proof.
  assert (H1 : 4 < FFT.two64) by reflexivity.
  assert (H2 : 0 < FFT.size (smoothedMagnitudes fresh_scan)) by reflexivity.
  assert (H3 : 0 < FFT.size (spectrumMagnitudes fresh_scan)) by reflexivity.
  split; [exact H1|]. split; [exact H2|]. split; [exact H3|].
  destruct (band_value_is_band_maximum (A := first_operand) offset_magnitudes
              4 d_0 fresh_scan 0 1 2 H1 H2 H3) as (_ & _ & Ho).
  intros other Hne. exact (proj1 (Ho other Hne)).
Defined.

(** Single-precision operations that hand back their first operand. *)
Definition first_operand32 : Arith32 := {|
  addf := fun a _ => a;
  divf := fun a _ => a;
  of_uint32 := fun _ => audio_ring.f_0
|}.

Definition empty_ring : Ring :=
  mkRing [audio_ring.f_0; audio_ring.f_0; audio_ring.f_0; audio_ring.f_0] 0.

Lemma processAudioData_rolls_the_window_witness :
  well_formed empty_ring 2 /\ 3 < FFT.two64 /\
  length (extract (A := first_operand)
            (processAudioData (F := first_operand32) empty_ring
               [EQ_examples.sample_a; EQ_examples.sample_b;
                EQ_examples.sample_a] 3 1) 2)
  = 2%nat.
Proof.
  assert (H1 : well_formed empty_ring 2).
  { unfold well_formed.
    split; [reflexivity|]. split; [vm_compute; discriminate|].
    split; reflexivity. }
  assert (H2 : 3 < FFT.two64) by reflexivity.
  split; [exact H1|]. split; [exact H2|].
  destruct (processAudioData_rolls_the_window (A := first_operand)
              (F := first_operand32) empty_ring 2
              [EQ_examples.sample_a; EQ_examples.sample_b;
               EQ_examples.sample_a] 3 1 H1 H2) as (Hwf & _ & _ & _).
  exact (length_extract (A := first_operand) _ 2 Hwf).
Defined.

Definition default_band (f : double) : EQBand :=
  mkBand f d_0 (mkDouble 0x3fe6666666666666 eq_refl) true.

(** The equalizer as [AudioAnalyzerImpl] constructs it. *)
Definition analyzer_eq : AnalyzerEQ :=
  mkAnalyzerEQ 44100
    (mkEqualizer
       (EQ.mkArray5 (default_band (EQ.at5 EQ.DEFAULT_FREQUENCIES 0))
                    (default_band (EQ.at5 EQ.DEFAULT_FREQUENCIES 1))
                    (default_band (EQ.at5 EQ.DEFAULT_FREQUENCIES 2))
                    (default_band (EQ.at5 EQ.DEFAULT_FREQUENCIES 3))
                    (default_band (EQ.at5 EQ.DEFAULT_FREQUENCIES 4)))
       true)
    (EQ.mkArray5 EQ.Biquad.init EQ.Biquad.init EQ.Biquad.init
                 EQ.Biquad.init EQ.Biquad.init)
    false.

Lemma lazy_update_equals_eager_update_witness :
  eqNeedsUpdate
    (fold_left apply_edit
       [SetGain 1 EQ_examples.d_5; SetQ 1 d_2] analyzer_eq) = true /\
  eq_designed (A := first_operand)
    (update_if_needed (A := first_operand)
       (fold_left apply_edit
          [SetGain 1 EQ_examples.d_5; SetQ 1 d_2] analyzer_eq)).
Proof.
  assert (H : eqNeedsUpdate
                (fold_left apply_edit
                   [SetGain 1 EQ_examples.d_5; SetQ 1 d_2] analyzer_eq)
              = true) by reflexivity.
  split; [exact H|].
  destruct (lazy_update_equals_eager_update (A := first_operand) analyzer_eq
              [SetGain 1 EQ_examples.d_5; SetQ 1 d_2]) as (_ & _ & _ & Hd).
  exact (Hd H).
Defined.

End audio_rest_examples.

(* ================================================================== *)
(** * The transform on binary64 *)
(* ================================================================== *)

Module FFT_binary64.
Import IEEE FFT.
Local Open Scope N_scope.

(** The scalars of [fft.cpp]: [double] with the correctly rounded
    operations, [PI] the literal of the source, and the cosine and sine
    of a C library. *)
Definition scalar (m : binary64.libm) : Scalar double := {|
  zero := d_0;
  one := d_1;
  minus_two := d_m2;
  PI := M_PI;
  add := binary64.add;
  sub := binary64.sub;
  mul := binary64.mul;
  div := binary64.div;
  opp := binary64.opp;
  cos := binary64.m_cos m;
  sin := binary64.m_sin m;
  of_size := binary64.of_size
|}.

Definition d_m0 : double := mkDouble 0x8000000000000000 eq_refl.    (* -0.0 *)
Definition d_1e_20 : double := mkDouble 0x3bc79ca10c924223 eq_refl. (* 1e-20 *)

(** [y] is farther from [x] than the relative error [tol] allows:
    [|y - x| > tol * |x|], on the exact values of the patterns. *)
Definition relative_error_above (tol : QArith_base.Q) (x y : double) : Prop :=
  QArith_base.Qlt
    (QArith_base.Qmult tol (Qabs.Qabs (EQ_examples.value x)))
    (Qabs.Qabs (QArith_base.Qminus (EQ_examples.value y)
                                   (EQ_examples.value x))).

Definition patterns (v : list (double * double)) : list (N * N) :=
  map (fun c => (dbits (fst c), dbits (snd c))) v.

Lemma patterns_inj (v w : list (double * double)) :
  patterns v = patterns w -> v = w.
Proof.
  revert w. induction v as [|[a b] v IH]; intros [|[c d] w]; cbn;
    try discriminate; [reflexivity|].
  intros [= Ha Hb H]. f_equal; [|now apply IH].
  f_equal; now apply double_eq.
Qed.

Lemma Done_patterns (o : outcome (list (double * double)))
    (w : list (double * double)) :
  match o with Done v => patterns v = patterns w | _ => False end ->
  o = Done w.
Proof.
  destruct o as [v| |]; [|contradiction..].
  intros H. f_equal. now apply patterns_inj.
Qed.

(** The signal [1.0, 1e-20]. *)
Definition small_beside_one : list double := [d_1; d_1e_20].

Example d_1e_20_value :
  EQ_examples.nearest d_1e_20 1 100000000000000000000 (-119).
Proof. vm_compute. discriminate. Qed.

(** C1 as stated fails on the code.  [1e-20] is far below half a unit
    in the last place of [1.0], so the two-point transform of
    [1.0, 1e-20] rounds [1.0 + 1e-20] and [1.0 - 1e-20] to [1.0]; the
    inverse of the spectrum [(1, 0), (1, 0)] is [1.0, 0.0]: the second
    sample comes back as 0, a relative error of 1, far above [1e-9].
    The two-point transform multiplies by the twiddle factor [(1, 0)]
    only, so this holds whatever the cosine and sine of the C library
    return. *)
Lemma round_trip_loses_small_sample :
  size small_beside_one = p2 1 /\
  (forall m : binary64.libm,
     transform (S_ := scalar m) small_beside_one
     = Done [(d_1, d_0); (d_1, d_0)] /\
     inverse (S_ := scalar m) [(d_1, d_0); (d_1, d_0)]
     = Done [(d_1, d_m0); (d_0, d_0)]) /\
  relative_error_above (QArith_base.Qmake 1 1000000000)
    (get d_0 small_beside_one 1)
    (fst (get (d_0, d_0) [(d_1, d_m0); (d_0, d_0)] 1)).
Proof.
  split; [reflexivity|]. split.
  - intros m. split; apply Done_patterns; vm_compute; reflexivity.
  - vm_compute. reflexivity.
Qed.

End FFT_binary64.

(* ================================================================== *)
(** * The band table on binary64 *)
(* ================================================================== *)

Module audio_binary64.
Import IEEE audio audio_facts.
Local Open Scope N_scope.


(** The two linear bands of [audio_examples.two_bands] are centred on
    9500 Hz and 16500 Hz and hold the bins 1..2 and 2..3. *)
Example two_bands_rebuild (m : binary64.libm) :
  updateBands (A := binary64.arith m) 44100 audio_examples.two_bands
  = Some ([mkDouble 0x40c28e0000000000 eq_refl;
           mkDouble 0x40d01d0000000000 eq_refl],
          audio_examples.two_bands_table).
Proof.
  assert (E : forall (o : option (list double * list (N * N))) f b,
             match o with
             | Some (f', b') => map dbits f' = map dbits f /\ b' = b
             | None => False
             end -> o = Some (f, b)).
  { intros [[f' b']|] f b; [|contradiction]. intros [Hf ->].
    do 2 f_equal. revert f Hf.
    induction f' as [|x f' IH]; intros [|y f]; cbn; try discriminate;
      [reflexivity|].
    intros [= Hx Hr]. f_equal; [now apply double_eq | now apply IH]. }
  apply E. vm_compute. split; reflexivity.
Qed.




End audio_binary64.
